(** * Two-player maze chase: the authoritative game simulation

    Shallow embedding of the game server (server.js; index.js carries the
    same functions with the same bodies): the session record [gameState],
    the input handlers, the 150 ms game loop with its seven phases, and the
    HTTP endpoint for manual direction injection.

    Conventions of the embedding.
    - JavaScript numbers that hold grid coordinates, scores, lives and
      millisecond timestamps are integers in the program: [Z].
    - [player.direction] and [ghost.direction] only ever receive the four
      literals "up", "down", "left", "right": the enumeration [Direction].
    - Ghost colours and player names are strings; a property that may be
      missing ([originalColor], [name], [winner]) is an [option].
    - The program mutates one global object.  Every function below takes
      the object and returns the mutated one; array callbacks that write
      to the shared object thread it through the traversal.
    - [Date.now()] and [Math.random()] are inputs of a tick ([TickEnv]).
    - [String.prototype.toUpperCase] is a parameter of the development,
      fixed on strings of the ASCII range only. *)

From Stdlib Require Import ZArith List String Ascii Bool Lia.
Import ListNotations.
Open Scope Z_scope.

(** ** Data model *)

Inductive Direction : Type := Up | Down | Left | Right.

Definition Pos : Type := (Z * Z)%type.

Record Player : Type := mkPlayer
  { p_x : Z;
    p_y : Z;
    p_direction : Direction;
    p_score : Z;
    p_lives : Z;
    p_invulnerable : bool;
    p_invulnerableTime : Z;
    p_name : option string }.

(** The fields [speed: 1] and [target: null] of a ghost object are never
    read or written after construction and are left out. *)
Record Ghost : Type := mkGhost
  { g_x : Z;
    g_y : Z;
    g_direction : Direction;
    g_color : string;
    g_originalColor : option string }.

Record GameState : Type := mkGameState
  { player1 : Player;
    player2 : Player;
    dots : list Pos;
    powerPellets : list Pos;
    ghosts : list Ghost;
    gameOver : bool;
    winner : option string;
    powerMode : bool;
    powerModeTime : Z }.

(** The four flags of an input object, by truthiness. *)
Record Input : Type := mkInput
  { i_up : bool; i_down : bool; i_left : bool; i_right : bool }.

(** What one tick reads from the outside: the clock, once per phase that
    calls [Date.now()], and the random draws, indexed by the ghost that
    makes them ([Math.random() < 0.3] and
    [directions[Math.floor(Math.random() * 4)]]). *)
Record TickEnv : Type := mkTickEnv
  { now_invulnerability : Z;
    now_powerMode : Z;
    now_collisions : Z;
    draw_chase : nat -> bool;
    draw_direction : nat -> Direction }.

(** *** Field updates *)

Definition p_setPos (nx ny : Z) (p : Player) : Player :=
  mkPlayer nx ny (p_direction p) (p_score p) (p_lives p)
           (p_invulnerable p) (p_invulnerableTime p) (p_name p).

Definition p_setDirection (d : Direction) (p : Player) : Player :=
  mkPlayer (p_x p) (p_y p) d (p_score p) (p_lives p)
           (p_invulnerable p) (p_invulnerableTime p) (p_name p).

Definition p_addScore (n : Z) (p : Player) : Player :=
  mkPlayer (p_x p) (p_y p) (p_direction p) (p_score p + n) (p_lives p)
           (p_invulnerable p) (p_invulnerableTime p) (p_name p).

Definition p_setInvulnerable (b : bool) (p : Player) : Player :=
  mkPlayer (p_x p) (p_y p) (p_direction p) (p_score p) (p_lives p)
           b (p_invulnerableTime p) (p_name p).

Definition p_setName (n : option string) (p : Player) : Player :=
  mkPlayer (p_x p) (p_y p) (p_direction p) (p_score p) (p_lives p)
           (p_invulnerable p) (p_invulnerableTime p) n.

Definition g_setPos (nx ny : Z) (g : Ghost) : Ghost :=
  mkGhost nx ny (g_direction g) (g_color g) (g_originalColor g).

Definition g_setDirection (d : Direction) (g : Ghost) : Ghost :=
  mkGhost (g_x g) (g_y g) d (g_color g) (g_originalColor g).

Definition g_setColors (c : string) (o : option string) (g : Ghost) : Ghost :=
  mkGhost (g_x g) (g_y g) (g_direction g) c o.

Definition setPlayer1 (p : Player) (s : GameState) : GameState :=
  mkGameState p (player2 s) (dots s) (powerPellets s) (ghosts s)
              (gameOver s) (winner s) (powerMode s) (powerModeTime s).

Definition setPlayer2 (p : Player) (s : GameState) : GameState :=
  mkGameState (player1 s) p (dots s) (powerPellets s) (ghosts s)
              (gameOver s) (winner s) (powerMode s) (powerModeTime s).

Definition setDots (l : list Pos) (s : GameState) : GameState :=
  mkGameState (player1 s) (player2 s) l (powerPellets s) (ghosts s)
              (gameOver s) (winner s) (powerMode s) (powerModeTime s).

Definition setPowerPellets (l : list Pos) (s : GameState) : GameState :=
  mkGameState (player1 s) (player2 s) (dots s) l (ghosts s)
              (gameOver s) (winner s) (powerMode s) (powerModeTime s).

Definition setGhosts (l : list Ghost) (s : GameState) : GameState :=
  mkGameState (player1 s) (player2 s) (dots s) (powerPellets s) l
              (gameOver s) (winner s) (powerMode s) (powerModeTime s).

Definition setOutcome (w : option string) (s : GameState) : GameState :=
  mkGameState (player1 s) (player2 s) (dots s) (powerPellets s) (ghosts s)
              true w (powerMode s) (powerModeTime s).

Definition setPowerMode (b : bool) (t : Z) (s : GameState) : GameState :=
  mkGameState (player1 s) (player2 s) (dots s) (powerPellets s) (ghosts s)
              (gameOver s) (winner s) b t.

(** *** JavaScript truthiness of an optional string, and [a || b] *)

Definition truthy (o : option string) : bool :=
  match o with
  | Some s => negb (String.eqb s EmptyString)
  | None => false
  end.

Definition orDefault (o : option string) (d : string) : string :=
  match o with
  | Some s => if truthy o then s else d
  | None => d
  end.

(** ** The maze *)

Definition MAZE_LAYOUT : list (list Z) :=
  [
    [1; 1; 1; 1; 1; 1; 1; 1; 1; 1; 1; 1; 1; 1; 1; 1; 1; 1; 1; 1; 1; 1; 1; 1; 1; 1; 1; 1];
    [1; 0; 0; 0; 0; 0; 0; 0; 0; 0; 0; 0; 0; 1; 1; 0; 0; 0; 0; 0; 0; 0; 0; 0; 0; 0; 0; 1];
    [1; 0; 1; 1; 1; 1; 0; 1; 1; 1; 1; 1; 0; 1; 1; 0; 1; 1; 1; 1; 1; 0; 1; 1; 1; 1; 0; 1];
    [1; 3; 1; 1; 1; 1; 0; 1; 1; 1; 1; 1; 0; 1; 1; 0; 1; 1; 1; 1; 1; 0; 1; 1; 1; 1; 3; 1];
    [1; 0; 1; 1; 1; 1; 0; 1; 1; 1; 1; 1; 0; 1; 1; 0; 1; 1; 1; 1; 1; 0; 1; 1; 1; 1; 0; 1];
    [1; 0; 0; 0; 0; 0; 0; 0; 0; 0; 0; 0; 0; 0; 0; 0; 0; 0; 0; 0; 0; 0; 0; 0; 0; 0; 0; 1];
    [1; 0; 1; 1; 1; 1; 0; 1; 1; 0; 1; 1; 1; 1; 1; 1; 1; 1; 0; 1; 1; 0; 1; 1; 1; 1; 0; 1];
    [1; 0; 1; 1; 1; 1; 0; 1; 1; 0; 1; 1; 1; 1; 1; 1; 1; 1; 0; 1; 1; 0; 1; 1; 1; 1; 0; 1];
    [1; 0; 0; 0; 0; 0; 0; 1; 1; 0; 0; 0; 0; 1; 1; 0; 0; 0; 0; 1; 1; 0; 0; 0; 0; 0; 0; 1];
    [1; 1; 1; 1; 1; 1; 0; 1; 1; 1; 1; 1; 0; 1; 1; 0; 1; 1; 1; 1; 1; 0; 1; 1; 1; 1; 1; 1];
    [1; 1; 1; 1; 1; 1; 0; 1; 1; 1; 1; 1; 0; 1; 1; 0; 1; 1; 1; 1; 1; 0; 1; 1; 1; 1; 1; 1];
    [1; 1; 1; 1; 1; 1; 0; 1; 1; 0; 0; 0; 0; 0; 0; 0; 0; 0; 0; 1; 1; 0; 1; 1; 1; 1; 1; 1];
    [1; 1; 1; 1; 1; 1; 0; 1; 1; 0; 1; 1; 1; 2; 2; 1; 1; 1; 0; 1; 1; 0; 1; 1; 1; 1; 1; 1];
    [1; 1; 1; 1; 1; 1; 0; 1; 1; 0; 1; 2; 2; 2; 2; 2; 2; 1; 0; 1; 1; 0; 1; 1; 1; 1; 1; 1];
    [0; 0; 0; 0; 0; 0; 0; 0; 0; 0; 1; 2; 2; 2; 2; 2; 2; 1; 0; 0; 0; 0; 0; 0; 0; 0; 0; 0];
    [1; 1; 1; 1; 1; 1; 0; 1; 1; 0; 1; 2; 2; 2; 2; 2; 2; 1; 0; 1; 1; 0; 1; 1; 1; 1; 1; 1];
    [1; 1; 1; 1; 1; 1; 0; 1; 1; 0; 1; 1; 1; 1; 1; 1; 1; 1; 0; 1; 1; 0; 1; 1; 1; 1; 1; 1];
    [1; 1; 1; 1; 1; 1; 0; 1; 1; 0; 0; 0; 0; 0; 0; 0; 0; 0; 0; 1; 1; 0; 1; 1; 1; 1; 1; 1];
    [1; 1; 1; 1; 1; 1; 0; 1; 1; 0; 1; 1; 1; 1; 1; 1; 1; 1; 0; 1; 1; 0; 1; 1; 1; 1; 1; 1];
    [1; 1; 1; 1; 1; 1; 0; 1; 1; 0; 1; 1; 1; 1; 1; 1; 1; 1; 0; 1; 1; 0; 1; 1; 1; 1; 1; 1];
    [1; 0; 0; 0; 0; 0; 0; 0; 0; 0; 0; 0; 0; 1; 1; 0; 0; 0; 0; 0; 0; 0; 0; 0; 0; 0; 0; 1];
    [1; 0; 1; 1; 1; 1; 0; 1; 1; 1; 1; 1; 0; 1; 1; 0; 1; 1; 1; 1; 1; 0; 1; 1; 1; 1; 0; 1];
    [1; 0; 1; 1; 1; 1; 0; 1; 1; 1; 1; 1; 0; 1; 1; 0; 1; 1; 1; 1; 1; 0; 1; 1; 1; 1; 0; 1];
    [1; 3; 0; 0; 1; 1; 0; 0; 0; 0; 0; 0; 0; 0; 0; 0; 0; 0; 0; 0; 0; 0; 1; 1; 0; 0; 3; 1];
    [1; 1; 1; 0; 1; 1; 0; 1; 1; 0; 1; 1; 1; 1; 1; 1; 1; 1; 0; 1; 1; 0; 1; 1; 0; 1; 1; 1];
    [1; 1; 1; 0; 1; 1; 0; 1; 1; 0; 1; 1; 1; 1; 1; 1; 1; 1; 0; 1; 1; 0; 1; 1; 0; 1; 1; 1];
    [1; 0; 0; 0; 0; 0; 0; 1; 1; 0; 0; 0; 0; 1; 1; 0; 0; 0; 0; 1; 1; 0; 0; 0; 0; 0; 0; 1];
    [1; 0; 1; 1; 1; 1; 1; 1; 1; 1; 1; 1; 0; 1; 1; 0; 1; 1; 1; 1; 1; 1; 1; 1; 1; 1; 0; 1];
    [1; 0; 1; 1; 1; 1; 1; 1; 1; 1; 1; 1; 0; 1; 1; 0; 1; 1; 1; 1; 1; 1; 1; 1; 1; 1; 0; 1];
    [1; 0; 0; 0; 0; 0; 0; 0; 0; 0; 0; 0; 0; 0; 0; 0; 0; 0; 0; 0; 0; 0; 0; 0; 0; 0; 0; 1];
    [1; 1; 1; 1; 1; 1; 1; 1; 1; 1; 1; 1; 1; 1; 1; 1; 1; 1; 1; 1; 1; 1; 1; 1; 1; 1; 1; 1]
  ].

(** [MAZE_LAYOUT[newY][newX]]; the callers index it inside the bounds only. *)
Definition mazeCell (newX newY : Z) : option Z :=
  match nth_error MAZE_LAYOUT (Z.to_nat newY) with
  | Some row => nth_error row (Z.to_nat newX)
  | None => None
  end.

(** [v !== 1] *)
Definition notWall (v : option Z) : bool :=
  match v with
  | Some c => negb (c =? 1)
  | None => true
  end.

Definition mazeRows : Z := Z.of_nat (List.length MAZE_LAYOUT).
Definition mazeCols : Z := Z.of_nat (List.length (nth 0%nat MAZE_LAYOUT [])).

(** One step of a [switch (direction)]: the [newX]/[newY] counters. *)
Definition stepDir (d : Direction) (x y : Z) : Z * Z :=
  match d with
  | Up => (x, y - 1)
  | Down => (x, y + 1)
  | Left => (x - 1, y)
  | Right => (x + 1, y)
  end.

(** [if (newX < 0) newX = 27; if (newX > 27) newX = 0] *)
Definition tunnel (newX : Z) : Z :=
  let newX := if newX <? 0 then 27 else newX in
  if newX >? 27 then 0 else newX.

(** ** Input routing *)

Definition updatePlayerDirection (player : Player) (input : Input) : Player :=
  if i_up input then p_setDirection Up player
  else if i_down input then p_setDirection Down player
  else if i_left input then p_setDirection Left player
  else if i_right input then p_setDirection Right player
  else player.

(** ** Timers *)

Definition expireInvulnerability (currentTime : Z) (p : Player) : Player :=
  if p_invulnerable p && (currentTime - p_invulnerableTime p >? 3000)
  then p_setInvulnerable false p
  else p.

Definition updateInvulnerability (currentTime : Z) (s : GameState) : GameState :=
  let s := setPlayer1 (expireInvulnerability currentTime (player1 s)) s in
  setPlayer2 (expireInvulnerability currentTime (player2 s)) s.

Definition isBlue (g : Ghost) : bool := String.eqb (g_color g) "blue"%string.

(** The callback of the colour reset in [updatePowerMode]. *)
Definition resetColor (ghost : Ghost) : Ghost :=
  if isBlue ghost then
    match g_originalColor ghost with
    | Some c => if truthy (Some c) then g_setColors c None ghost else ghost
    | None => ghost
    end
  else ghost.

Definition updatePowerMode (currentTime : Z) (s : GameState) : GameState :=
  if powerMode s then
    if currentTime - powerModeTime s >? 10000
    then setGhosts (map resetColor (ghosts s))
                   (setPowerMode false (powerModeTime s) s)
    else s
  else s.

(** ** Player movement *)

Definition movePlayer (player : Player) : Player :=
  let '(newX, newY) := stepDir (p_direction player) (p_x player) (p_y player) in
  let newX := tunnel newX in
  if (newY >=? 0) && (newY <? mazeRows) && (newX >=? 0) && (newX <? mazeCols)
     && notWall (mazeCell newX newY)
  then p_setPos newX newY player
  else player.

(** ** Ghost movement *)

Definition manhattan (ghost : Ghost) (p : Player) : Z :=
  Z.abs (g_x ghost - p_x p) + Z.abs (g_y ghost - p_y p).

Definition playerPos (p : Player) : Pos := (p_x p, p_y p).

Definition fleeFrom (ghost : Ghost) (p : Player) : Pos :=
  (g_x ghost + (g_x ghost - p_x p), g_y ghost + (g_y ghost - p_y p)).

(** The first half of the [moveGhosts] callback: the target, [None] for
    [null]. *)
Definition chooseTarget (s : GameState) (env : TickEnv) (ghost : Ghost)
    (index : nat) : option Pos :=
  if powerMode s then
    if manhattan ghost (player1 s) <? manhattan ghost (player2 s)
    then Some (fleeFrom ghost (player1 s))
    else Some (fleeFrom ghost (player2 s))
  else
    match index with
    | 0%nat => Some (playerPos (player1 s))
    | 1%nat => Some (playerPos (player2 s))
    | 2%nat =>
        if p_score (player1 s) >=? p_score (player2 s)
        then Some (playerPos (player1 s))
        else Some (playerPos (player2 s))
    | 3%nat =>
        if draw_chase env index then
          if manhattan ghost (player1 s) <? manhattan ghost (player2 s)
          then Some (playerPos (player1 s))
          else Some (playerPos (player2 s))
        else None
    | _ => None
    end.

(** The attempted cell and the facing direction, before the tunnel. *)
Definition attemptMove (env : TickEnv) (ghost : Ghost) (index : nat)
    (target : option Pos) : Z * Z * Direction :=
  let newX := g_x ghost in
  let newY := g_y ghost in
  match target with
  | Some (tx, ty) =>
      let deltaX := tx - g_x ghost in
      let deltaY := ty - g_y ghost in
      if Z.abs deltaX >? Z.abs deltaY then
        if deltaX >? 0 then (newX + 1, newY, Right) else (newX - 1, newY, Left)
      else
        if deltaY >? 0 then (newX, newY + 1, Down) else (newX, newY - 1, Up)
  | None =>
      let randomDirection := draw_direction env index in
      let '(nx, ny) := stepDir randomDirection newX newY in
      (nx, ny, randomDirection)
  end.

Definition stepGhost (env : TickEnv) (ghost : Ghost) (index : nat)
    (target : option Pos) : Ghost :=
  let '(newX, newY, d) := attemptMove env ghost index target in
  let ghost := g_setDirection d ghost in
  let newX := tunnel newX in
  if (newX >=? 0) && (newX <? 28) && (newY >=? 0) && (newY <? 31)
  then g_setPos newX newY ghost
  else ghost.

Definition moveGhost (s : GameState) (env : TickEnv) (ghost : Ghost)
    (index : nat) : Ghost :=
  stepGhost env ghost index (chooseTarget s env ghost index).

(** [array.forEach((element, index) => ...)] for a callback that writes to
    its element only. *)
Fixpoint forEachIndexed {A : Type} (f : A -> nat -> A) (index : nat)
    (l : list A) : list A :=
  match l with
  | [] => []
  | a :: r => f a index :: forEachIndexed f (S index) r
  end.

Definition moveGhosts (env : TickEnv) (s : GameState) : GameState :=
  setGhosts (forEachIndexed (moveGhost s env) 0%nat (ghosts s)) s.

(** ** Collisions *)

(** [array.filter(callback)] for a callback that also writes to the shared
    object: the object is threaded through the elements in order. *)
Fixpoint filterSt {S A : Type} (f : S -> A -> S * bool) (s : S) (l : list A)
    : S * list A :=
  match l with
  | [] => (s, [])
  | a :: r =>
      let '(s1, keep) := f s a in
      let '(s2, r') := filterSt f s1 r in
      (s2, if keep then a :: r' else r')
  end.

(** [ghosts.forEach((ghost, ghostIndex) => ...)] for a callback that writes
    to the ghost and to the shared object (never to the ghost array). *)
Fixpoint forEachGhost (f : GameState -> Ghost -> nat -> GameState * Ghost)
    (s : GameState) (ghostIndex : nat) (l : list Ghost)
    : GameState * list Ghost :=
  match l with
  | [] => (s, [])
  | g :: r =>
      let '(s1, g') := f s g ghostIndex in
      let '(s2, r') := forEachGhost f s1 (S ghostIndex) r in
      (s2, g' :: r')
  end.

Definition onPlayer (c : Pos) (p : Player) : bool :=
  (fst c =? p_x p) && (snd c =? p_y p).

Definition collectDot (s : GameState) (dot : Pos) : GameState * bool :=
  if onPlayer dot (player1 s) || onPlayer dot (player2 s) then
    let s := if onPlayer dot (player1 s)
             then setPlayer1 (p_addScore 10 (player1 s)) s else s in
    let s := if onPlayer dot (player2 s)
             then setPlayer2 (p_addScore 10 (player2 s)) s else s in
    (s, false)
  else (s, true).

Definition turnBlue (ghost : Ghost) : Ghost :=
  if negb (isBlue ghost)
  then g_setColors "blue"%string (Some (g_color ghost)) ghost
  else ghost.

Definition collectPellet (now : Z) (s : GameState) (pellet : Pos)
    : GameState * bool :=
  if onPlayer pellet (player1 s) || onPlayer pellet (player2 s) then
    let s := if onPlayer pellet (player1 s)
             then setPlayer1 (p_addScore 50 (player1 s)) s else s in
    let s := if onPlayer pellet (player2 s)
             then setPlayer2 (p_addScore 50 (player2 s)) s else s in
    let s := setPowerMode true now s in
    let s := setGhosts (map turnBlue (ghosts s)) s in
    (s, false)
  else (s, true).

Definition ghostOn (ghost : Ghost) (p : Player) : bool :=
  (g_x ghost =? p_x p) && (g_y ghost =? p_y p).

Definition homeX (ghostIndex : nat) : Z := 13 + Z.of_nat ghostIndex mod 2.
Definition homeY (ghostIndex : nat) : Z := 14 + Z.of_nat ghostIndex / 2.

(** The power-mode branch on the ghost: respawn at the centre, restore the
    original colour when there is one. *)
Definition eatGhost (ghostIndex : nat) (ghost : Ghost) : Ghost :=
  let ghost := g_setPos (homeX ghostIndex) (homeY ghostIndex) ghost in
  match g_originalColor ghost with
  | Some c => if truthy (Some c) then g_setColors c None ghost else ghost
  | None => ghost
  end.

(** The kill branch on the player: one life less, invulnerable from [now],
    back at the starting cell and facing. *)
Definition killPlayer (now : Z) (startX startY : Z) (startDir : Direction)
    (p : Player) : Player :=
  mkPlayer startX startY startDir (p_score p) (p_lives p - 1) true now
           (p_name p).

Definition ghostCollision (now : Z) (s : GameState) (ghost : Ghost)
    (ghostIndex : nat) : GameState * Ghost :=
  let '(s, ghost) :=
    if ghostOn ghost (player1 s) then
      if powerMode s then
        (setPlayer1 (p_addScore 200 (player1 s)) s, eatGhost ghostIndex ghost)
      else if negb (p_invulnerable (player1 s)) then
        (setPlayer1 (killPlayer now 1 1 Right (player1 s)) s, ghost)
      else (s, ghost)
    else (s, ghost) in
  if ghostOn ghost (player2 s) then
    if powerMode s then
      (setPlayer2 (p_addScore 200 (player2 s)) s, eatGhost ghostIndex ghost)
    else if negb (p_invulnerable (player2 s)) then
      (setPlayer2 (killPlayer now 26 1 Left (player2 s)) s, ghost)
    else (s, ghost)
  else (s, ghost).

Definition checkDots (s : GameState) : GameState :=
  let '(s, kept) := filterSt collectDot s (dots s) in
  setDots kept s.

Definition checkPowerPellets (now : Z) (s : GameState) : GameState :=
  let '(s, kept) := filterSt (collectPellet now) s (powerPellets s) in
  setPowerPellets kept s.

Definition checkGhostCollisions (now : Z) (s : GameState) : GameState :=
  let '(s, gl) := forEachGhost (ghostCollision now) s 0%nat (ghosts s) in
  setGhosts gl s.

Definition checkCollisions (now : Z) (s : GameState) : GameState :=
  checkGhostCollisions now (checkPowerPellets now (checkDots s)).

(** ** Game over *)

Definition displayName1 (s : GameState) : string :=
  orDefault (p_name (player1 s)) "Player 1".

Definition displayName2 (s : GameState) : string :=
  orDefault (p_name (player2 s)) "Player 2".

Definition winnerByScore (s : GameState) : option string :=
  if p_score (player1 s) >? p_score (player2 s) then Some (displayName1 s)
  else if p_score (player2 s) >? p_score (player1 s) then Some (displayName2 s)
  else None.

Definition checkGameOver (s : GameState) : GameState :=
  let s :=
    if (Z.of_nat (List.length (dots s)) =? 0)
       && (Z.of_nat (List.length (powerPellets s)) =? 0)
    then setOutcome (winnerByScore s) s else s in
  let s :=
    if (p_lives (player1 s) <=? 0) && (p_lives (player2 s) <=? 0)
    then setOutcome (winnerByScore s) s else s in
  if (p_lives (player1 s) <=? 0) && (p_lives (player2 s) >? 0)
  then setOutcome (Some (displayName2 s)) s
  else if (p_lives (player2 s) <=? 0) && (p_lives (player1 s) >? 0)
  then setOutcome (Some (displayName1 s)) s
  else s.

(** ** Session reset *)

Fixpoint scanCells (v : Z) (x y : Z) (row : list Z) : list Pos :=
  match row with
  | [] => []
  | c :: r => (if c =? v then [(x, y)] else []) ++ scanCells v (x + 1) y r
  end.

Fixpoint scanRows (v : Z) (y : Z) (rows : list (list Z)) : list Pos :=
  match rows with
  | [] => []
  | row :: r => scanCells v 0 y row ++ scanRows v (y + 1) r
  end.

Definition startGhosts : list Ghost :=
  [ mkGhost 13 14 Up "red" None;
    mkGhost 14 14 Up "pink" None;
    mkGhost 13 15 Left "cyan" None;
    mkGhost 14 15 Right "orange" None ].

Definition startPlayer1 (n : option string) : Player :=
  mkPlayer 1 1 Right 0 5 false 0 n.

Definition startPlayer2 (n : option string) : Player :=
  mkPlayer 26 1 Left 0 5 false 0 n.

(** The object literal the module starts with: no names, no collectibles. *)
Definition initialGameState : GameState :=
  mkGameState (startPlayer1 None) (startPlayer2 None) [] [] startGhosts
              false None false 0.

Definition resetGameState : GameState :=
  mkGameState (startPlayer1 (Some ""%string)) (startPlayer2 (Some ""%string))
              (scanRows 0 0 MAZE_LAYOUT) (scanRows 3 0 MAZE_LAYOUT)
              startGhosts false None false 0.

(** ** The game loop *)

(** The body of the interval callback, up to the broadcast. *)
Definition gameTick (env : TickEnv) (s : GameState) : GameState :=
  let s := updateInvulnerability (now_invulnerability env) s in
  let s := updatePowerMode (now_powerMode env) s in
  let s := setPlayer1 (movePlayer (player1 s)) s in
  let s := setPlayer2 (movePlayer (player2 s)) s in
  let s := moveGhosts env s in
  let s := checkCollisions (now_collisions env) s in
  checkGameOver s.

(** ** The server: session object, interval handle, event handlers *)

(** [gameLoopInterval] is [true] while it holds a live interval handle and
    [false] while it is [null].  Bridge bookkeeping ([connectedBridges],
    [arduinoConnected]) never meets the session object and is left out. *)
Record Server : Type := mkServer
  { gameState : GameState;
    gameLoopInterval : bool }.

Definition boot : Server := mkServer initialGameState false.

Definition noInput : Input := mkInput false false false false.

(** ** Strings and their upper-case form *)

(** A JavaScript string is held as the bytes of its UTF-8 form.  It lies in
    the ASCII range when every byte is below 128. *)
Fixpoint isAscii (s : string) : bool :=
  match s with
  | EmptyString => true
  | String c r => (nat_of_ascii c <? 128)%nat && isAscii r
  end.

Definition upperChar (c : ascii) : ascii :=
  let n := nat_of_ascii c in
  if (97 <=? n)%nat && (n <=? 122)%nat then ascii_of_nat (n - 32) else c.

(** Upper-casing of the ASCII range: the letters a to z become A to Z, every
    other byte stays. *)
Fixpoint asciiUpper (s : string) : string :=
  match s with
  | EmptyString => EmptyString
  | String c r => String (upperChar c) (asciiUpper r)
  end.

(** Case analysis on every condition of the goal. *)
Ltac break_ifs :=
  repeat match goal with
         | |- context [if ?c then _ else _] => destruct c eqn:?
         end.

Section UpperCasing.

(** [String.prototype.toUpperCase] is a built-in of the language, not code
    of the server.  It is a parameter of the development: nothing is
    assumed about what it does to strings outside the ASCII range (there it
    follows the Unicode case tables, which map some letters outside the
    range onto letters inside it), and on strings of the ASCII range it is
    [asciiUpper]. *)
Variable toUpperCase : string -> string.

Hypothesis toUpperCase_ascii :
  forall t : string, isAscii t = true -> toUpperCase t = asciiUpper t.

(** [const input = {up: false, ...}; switch (direction.toUpperCase())] *)
Definition inputOfToken (direction : string) : Input :=
  let d := toUpperCase direction in
  if String.eqb d "UP" then mkInput true false false false
  else if String.eqb d "DOWN" then mkInput false true false false
  else if String.eqb d "LEFT" then mkInput false false true false
  else if String.eqb d "RIGHT" then mkInput false false false true
  else noInput.

(** [["UP", "DOWN", "LEFT", "RIGHT"].includes(direction.toUpperCase())] *)
Definition validToken (direction : string) : bool :=
  existsb (String.eqb (toUpperCase direction))
          ["UP"; "DOWN"; "LEFT"; "RIGHT"]%string.

(** The [direction] property of a request body: missing, a string, or a
    value of another type (with its truthiness). *)
Inductive JsValue : Type :=
  | JsUndefined
  | JsString (s : string)
  | JsOther (isTruthy : bool).

(** What the client of the endpoint sees: status 400 with an error body,
    status 500 when the handler throws ([toUpperCase] of a value that is
    not a string), or the success body with the input object. *)
Inductive Response : Type :=
  | BadRequest
  | HandlerThrew
  | Pressed (input : Input).

Definition mapPlayer1 (f : Player -> Player) (sv : Server) : Server :=
  mkServer (setPlayer1 (f (player1 (gameState sv))) (gameState sv))
           (gameLoopInterval sv).

Definition mapPlayer2 (f : Player -> Player) (sv : Server) : Server :=
  mkServer (setPlayer2 (f (player2 (gameState sv))) (gameState sv))
           (gameLoopInterval sv).

(** [socket.on("arduino-input", ...)] *)
Definition onArduinoInput (input : Input) (sv : Server) : Server :=
  mapPlayer1 (fun p => updatePlayerDirection p input) sv.

(** [socket.on("player-input", ...)] *)
Definition onPlayerInput (player : Z) (input : Input) (sv : Server) : Server :=
  if player =? 1 then mapPlayer1 (fun p => updatePlayerDirection p input) sv
  else if player =? 2 then mapPlayer2 (fun p => updatePlayerDirection p input) sv
  else sv.

(** [socket.on("arduino-manual-press", ...)], for a string payload. *)
Definition onArduinoManualPress (direction : string) (sv : Server) : Server :=
  mapPlayer1 (fun p => updatePlayerDirection p (inputOfToken direction)) sv.

(** [app.post("/api/arduino/press", ...)] *)
Definition apiArduinoPress (direction : JsValue) (sv : Server)
    : Server * Response :=
  match direction with
  | JsUndefined => (sv, BadRequest)
  | JsOther false => (sv, BadRequest)
  | JsOther true => (sv, HandlerThrew)
  | JsString d =>
      if negb (truthy (Some d)) || negb (validToken d) then (sv, BadRequest)
      else
        let input := inputOfToken d in
        (mapPlayer1 (fun p => updatePlayerDirection p input) sv, Pressed input)
  end.

(** [socket.on("start-game", ...)]: reset, store the names, start the loop
    unless one is running. *)
Definition onStartGame (player1Name player2Name : option string)
    (sv : Server) : Server :=
  let s := resetGameState in
  let s := setPlayer1 (p_setName player1Name (player1 s)) s in
  let s := setPlayer2 (p_setName player2Name (player2 s)) s in
  mkServer s (if negb (gameLoopInterval sv) then true else gameLoopInterval sv).

(** The interval callback: it only runs while the handle is live, and
    clears the handle on the tick that ends the game. *)
Definition onInterval (env : TickEnv) (sv : Server) : Server :=
  if gameLoopInterval sv then
    let s := gameTick env (gameState sv) in
    mkServer s (if gameOver s then false else true)
  else sv.

Inductive Event : Type :=
  | Tick (env : TickEnv)
  | PlayerInput (player : Z) (input : Input)
  | ArduinoInput (input : Input)
  | ArduinoManualPress (direction : string)
  | ApiArduinoPress (direction : JsValue)
  | StartGame (player1Name player2Name : option string).

Definition handle (sv : Server) (e : Event) : Server :=
  match e with
  | Tick env => onInterval env sv
  | PlayerInput player input => onPlayerInput player input sv
  | ArduinoInput input => onArduinoInput input sv
  | ArduinoManualPress direction => onArduinoManualPress direction sv
  | ApiArduinoPress direction => fst (apiArduinoPress direction sv)
  | StartGame n1 n2 => onStartGame n1 n2 sv
  end.

(** The server after a sequence of events, oldest first. *)
Definition run (sv : Server) (events : list Event) : Server :=
  fold_left handle events sv.

(** ** Specification-side vocabulary *)

(** The cell a player attempts: one step along its facing direction, then
    the horizontal wraparound. *)
Definition candidate (p : Player) : Pos :=
  let '(nx, ny) := stepDir (p_direction p) (p_x p) (p_y p) in (tunnel nx, ny).

(** The maze holds a wall (value 1) at the cell. *)
Definition isWall (c : Pos) : bool :=
  match mazeCell (fst c) (snd c) with
  | Some v => v =? 1
  | None => false
  end.

(** The vertical bound, rows 0 to 30. *)
Definition insideVertical (c : Pos) : bool := (0 <=? snd c) && (snd c <=? 30).

(** The 28 x 31 grid: columns 0 to 27, rows 0 to 30. *)
Definition inGrid (c : Pos) : bool :=
  (0 <=? fst c) && (fst c <=? 27) && (0 <=? snd c) && (snd c <=? 30).

(** The cell a ghost stands on. *)
Definition ghostPos (g : Ghost) : Pos := (g_x g, g_y g).

(** Where a ghost ends after attempting the cell [c]: the wrapped cell when
    it lies in the grid, its old cell otherwise. *)
Definition commitGhost (ghost : Ghost) (c : Pos) : Pos :=
  if inGrid (tunnel (fst c), snd c) then (tunnel (fst c), snd c)
  else ghostPos ghost.

(** ** Predicates, derived operations and sample sessions of the statements *)

(** A session in normal mode with player 1 at the given cell. *)
Definition chaseState (p1x p1y : Z) : GameState :=
  mkGameState (mkPlayer p1x p1y Right 0 5 false 0 None) (startPlayer2 None)
              [] [] startGhosts false None false 0.

(** A tick environment at time 0 whose draws never chase and point up. *)
Definition quietEnv : TickEnv :=
  mkTickEnv 0 0 0 (fun _ => false) (fun _ => Up).

(** Exactly one of the two players has no lives left. *)
Definition exactlyOneDead (s : GameState) : Prop :=
  (p_lives (player1 s) <= 0 /\ p_lives (player2 s) > 0)
  \/ (p_lives (player2 s) <= 0 /\ p_lives (player1 s) > 0).


(** Power mode and player 1's invulnerability both switched on at [since];
    the first ghost is blue and remembers red. *)
Definition poweredState (since : Z) : GameState :=
  mkGameState (mkPlayer 1 1 Right 50 5 true since None) (startPlayer2 None)
              [] []
              [ mkGhost 13 14 Up "blue" (Some "red"%string);
                mkGhost 14 14 Up "pink" None ]
              false None true since.

(** The direction a token names: the one whose name is the upper-case form
    of the token. *)
Definition tokenDirection (t : string) : option Direction :=
  let u := toUpperCase t in
  if String.eqb u "UP" then Some Up
  else if String.eqb u "DOWN" then Some Down
  else if String.eqb u "LEFT" then Some Left
  else if String.eqb u "RIGHT" then Some Right
  else None.

(** The client did not get the success body. *)
Definition isRejection (r : Response) : bool :=
  match r with
  | Pressed _ => false
  | BadRequest | HandlerThrew => true
  end.

(** A request carries a direction token when the property is a string that
    upper-cases to one of the four names. *)
Definition carriesToken (d : JsValue) : bool :=
  match d with
  | JsString t => validToken t
  | JsUndefined | JsOther _ => false
  end.



(** Both scores raised, nothing else touched. *)
Definition addScores (a b : Z) (s : GameState) : GameState :=
  setPlayer2 (p_addScore b (player2 s)) (setPlayer1 (p_addScore a (player1 s)) s).

(** The verdict of the dot callback: keep the dots under no player. *)
Definition keepDot (s : GameState) (d : Pos) : bool :=
  negb (onPlayer d (player1 s) || onPlayer d (player2 s)).

(** How many entries of a dot array lie under a player. *)
Definition dotsUnder (p : Player) (l : list Pos) : Z :=
  Z.of_nat (List.length (filter (fun d => onPlayer d p) l)).

(** The session when a tick reaches the collision phase. *)
Definition beforeCollisions (env : TickEnv) (s : GameState) : GameState :=
  let s := updateInvulnerability (now_invulnerability env) s in
  let s := updatePowerMode (now_powerMode env) s in
  let s := setPlayer1 (movePlayer (player1 s)) s in
  let s := setPlayer2 (movePlayer (player2 s)) s in
  moveGhosts env s.

(** Equality of cells, and arrays of pairwise distinct cells. *)
Definition posEqb (a b : Pos) : bool :=
  (fst a =? fst b) && (snd a =? snd b).

Fixpoint distinctb (l : list Pos) : bool :=
  match l with
  | [] => true
  | a :: r => negb (existsb (posEqb a) r) && distinctb r
  end.

(** A ghost, and a whole session, inside the 28 x 31 grid. *)
Definition ghostInGrid (g : Ghost) : Prop := inGrid (ghostPos g) = true.

Definition GridInv (s : GameState) : Prop :=
  inGrid (playerPos (player1 s)) = true
  /\ inGrid (playerPos (player2 s)) = true
  /\ Forall ghostInGrid (ghosts s)
  /\ List.length (ghosts s) = 4%nat.






(** ** Further vocabulary: inputs, terminal conditions, vitals *)

(** Some flag of the input object is set. *)
Definition hasFlag (input : Input) : bool :=
  i_up input || i_down input || i_left input || i_right input.

(** Both collectible arrays are empty. *)
Definition collectiblesGone (s : GameState) : bool :=
  (Z.of_nat (List.length (dots s)) =? 0)
  && (Z.of_nat (List.length (powerPellets s)) =? 0).

(** Some player has no lives left. *)
Definition someoneDead (s : GameState) : bool :=
  (p_lives (player1 s) <=? 0) || (p_lives (player2 s) <=? 0).

(** Some entry of a collectible array lies under a player. *)
Definition pelletEaten (s : GameState) (l : list Pos) : bool :=
  existsb (fun d => onPlayer d (player1 s) || onPlayer d (player2 s)) l.

(** What eating a pellet does besides the score: power mode on from [now],
    every ghost blue. *)
Definition activatePower (now : Z) (s : GameState) : GameState :=
  setGhosts (map turnBlue (ghosts s)) (setPowerMode true now s).

(** A ghost of the array shares the player's cell and the player is not
    invulnerable. *)
Definition isHit (p : Player) (gl : list Ghost) : bool :=
  negb (p_invulnerable p) && existsb (fun g => ghostOn g p) gl.

(** The players after a ghost pass in normal mode over the array [gl]. *)
Definition resolveHits (now : Z) (gl : list Ghost) (s : GameState) : GameState :=
  setPlayer2 (if isHit (player2 s) gl
              then killPlayer now 26 1 Left (player2 s) else player2 s)
    (setPlayer1 (if isHit (player1 s) gl
                 then killPlayer now 1 1 Right (player1 s) else player1 s) s).

(** In power mode: the ghost after player 1's check, whether player 2 then
    eats it, and the ghost after both checks. *)
Definition afterPlayer1 (s : GameState) (g : Ghost) (i : nat) : Ghost :=
  if ghostOn g (player1 s) then eatGhost i g else g.

Definition eatenBy2 (s : GameState) (g : Ghost) (i : nat) : bool :=
  ghostOn (afterPlayer1 s g i) (player2 s).

Definition afterPlayers (s : GameState) (g : Ghost) (i : nat) : Ghost :=
  if eatenBy2 s g i then eatGhost i (afterPlayer1 s g i) else afterPlayer1 s g i.

(** How many elements of an array, counted with their index from [k] on,
    satisfy a test. *)
Fixpoint countGhosts (f : Ghost -> nat -> bool) (k : nat) (l : list Ghost) : Z :=
  match l with
  | [] => 0
  | g :: r => (if f g k then 1 else 0) + countGhosts f (S k) r
  end.

(** The session when a tick reaches the ghost pass. *)
Definition beforeGhostPass (env : TickEnv) (s : GameState) : GameState :=
  checkPowerPellets (now_collisions env) (checkDots (beforeCollisions env s)).

(** What a player carries through a tick apart from its cell and timers. *)
Definition vitals (p : Player) : Z * Z * option string :=
  (p_score p, p_lives p, p_name p).

(** A non-negative multiple of ten. *)
Definition tenfold (z : Z) : Prop := exists k, 0 <= k /\ z = 10 * k.

(** Lives, scores and verdict of a server, as every reachable server has
    them. *)
Definition VitalsInv (sv : Server) : Prop :=
  let s := gameState sv in
  (0 <= p_lives (player1 s) <= 5 /\ 0 <= p_lives (player2 s) <= 5)
  /\ (tenfold (p_score (player1 s)) /\ tenfold (p_score (player2 s)))
  /\ (gameOver s = false ->
      0 < p_lives (player1 s) /\ 0 < p_lives (player2 s) /\ winner s = None)
  /\ (gameOver s = true -> gameLoopInterval sv = false).

(** A colour a ghost can own: not empty, not blue. *)
Definition isOwnColor (c : string) : bool :=
  negb (String.eqb c EmptyString) && negb (String.eqb c "blue"%string).

(** The ghost shows the colour [own] with an empty slot, or shows blue and
    remembers [own]. *)
Definition wearsOwnOrBlue (own : string) (g : Ghost) : Prop :=
  isOwnColor own = true
  /\ ((g_color g = own /\ g_originalColor g = None)
      \/ (g_color g = "blue"%string /\ g_originalColor g = Some own)).

(** The colours of a session: ghost by ghost the colour it started with or
    blue over it, and no blue ghost outside power mode. *)
Definition ColorInv (s : GameState) : Prop :=
  Forall2 wearsOwnOrBlue (map g_color startGhosts) (ghosts s)
  /\ (powerMode s = false -> Forall (fun g => isBlue g = false) (ghosts s)).

(** Manhattan distance between two cells. *)
Definition distTo (c t : Pos) : Z :=
  Z.abs (fst c - fst t) + Z.abs (snd c - snd t).

(** The player a ghost flees from in power mode: player 1 when strictly
    nearer, player 2 otherwise. *)
Definition nearerPlayer (s : GameState) (ghost : Ghost) : Player :=
  if manhattan ghost (player1 s) <? manhattan ghost (player2 s)
  then player1 s else player2 s.

(** ** What the server sends out *)

(** The broadcasts of the event handlers ([io.emit]) and the call of
    [saveScores], each with its argument at the time it is made.  Status
    broadcasts of the bridge bookkeeping are left to [BridgeState]. *)
Inductive Effect : Type :=
  | EmitGameUpdate (s : GameState)
  | EmitArduinoInput (input : Input)
  | EmitGameStarted (player1Name player2Name : option string)
  | CallSaveScores (s : GameState).









(** ** Bridge bookkeeping *)

(** A live socket: its id and its [isBridge] property (absent reads as
    false).  Socket ids are unique among live sockets. *)
Record Socket : Type := mkSocket
  { sock_id : string;
    sock_isBridge : bool }.

(** [connectedBridges] is a JavaScript [Set] of socket ids: a list in
    insertion order without repetition. *)
Record BridgeState : Type := mkBridgeState
  { liveSockets : list Socket;
    connectedBridges : list string;
    arduinoConnected : bool }.

(** The payload of an "arduino-status" message; its [bridge] field, which
    repeats [connected], is left out. *)
Record ArduinoStatus : Type := mkArduinoStatus
  { status_connected : bool;
    status_bridges : nat }.

(** [set.add(x)] and [set.delete(x)] *)
Definition setAdd (x : string) (l : list string) : list string :=
  if existsb (String.eqb x) l then l else l ++ [x].

Definition setDelete (x : string) (l : list string) : list string :=
  filter (fun y => negb (String.eqb x y)) l.

Definition hasId (id : string) (s : Socket) : bool := String.eqb id (sock_id s).

Inductive NetEvent : Type :=
  | Connection (id : string)
  | RegisterArduinoBridge (id : string)
  | BridgeHeartbeat (id : string)
  | Disconnect (id : string).

Definition bootBridges : BridgeState := mkBridgeState [] [] false.

(** The handlers of [io.on("connection")], ["register-arduino-bridge"],
    ["bridge-heartbeat"] and ["disconnect"], with the status messages they
    send.  A connection brings a socket with a fresh id; the other events
    come from live sockets. *)
Definition netHandle (b : BridgeState) (e : NetEvent)
    : BridgeState * list ArduinoStatus :=
  match e with
  | Connection id =>
      if existsb (hasId id) (liveSockets b) then (b, [])
      else
        (mkBridgeState (liveSockets b ++ [mkSocket id false])
                       (connectedBridges b) (arduinoConnected b),
         [mkArduinoStatus
            (arduinoConnected b
             || (0 <? List.length (connectedBridges b))%nat)
            (List.length (connectedBridges b))])
  | RegisterArduinoBridge id =>
      if existsb (hasId id) (liveSockets b) then
        let bridges := setAdd id (connectedBridges b) in
        (mkBridgeState
           (map (fun s => if hasId id s then mkSocket (sock_id s) true else s)
                (liveSockets b))
           bridges true,
         [mkArduinoStatus true (List.length bridges)])
      else (b, [])
  | BridgeHeartbeat id => (b, [])
  | Disconnect id =>
      match find (hasId id) (liveSockets b) with
      | None => (b, [])
      | Some s =>
          let live := filter (fun s' => negb (hasId id s')) (liveSockets b) in
          if sock_isBridge s then
            let bridges := setDelete id (connectedBridges b) in
            (mkBridgeState live bridges
               (if (List.length bridges =? 0)%nat then false
                else arduinoConnected b),
             [mkArduinoStatus (0 <? List.length bridges)%nat
                              (List.length bridges)])
          else
            (mkBridgeState live (connectedBridges b) (arduinoConnected b), [])
      end
  end.

Definition netRun (b : BridgeState) (events : list NetEvent) : BridgeState :=
  fold_left (fun b e => fst (netHandle b e)) events b.

(** The live sockets that registered as bridges. *)
Definition liveBridges (b : BridgeState) : list Socket :=
  filter sock_isBridge (liveSockets b).

Definition BridgeInv (b : BridgeState) : Prop :=
  NoDup (map sock_id (liveSockets b))
  /\ NoDup (connectedBridges b)
  /\ (forall id, In id (connectedBridges b) <-> In (mkSocket id true) (liveSockets b))
  /\ arduinoConnected b = (0 <? List.length (connectedBridges b))%nat.

(** ** The keypad of the serial-port variant of the server *)

(** The simulated LCD keypad shield ([class ArduinoSimulator]); the socket
    server it emits to is outside of it. *)
Record ArduinoSimulator : Type := mkSimulator
  { sim_isConnected : bool;
    sim_currentKey : option string;
    sim_lastKeyTime : Z;
    sim_keyDelay : Z;
    sim_lcdLine1 : string;
    sim_lcdLine2 : string }.

(** [new ArduinoSimulator(io)] *)
Definition newSimulator : ArduinoSimulator :=
  mkSimulator false None 0 100 "Pac-Man Player 1" "Ready to play!".

(** [connect()] and [disconnect()], without their status broadcast. *)
Definition simConnect (sim : ArduinoSimulator) : ArduinoSimulator :=
  mkSimulator true (sim_currentKey sim) (sim_lastKeyTime sim) (sim_keyDelay sim)
              (sim_lcdLine1 sim) (sim_lcdLine2 sim).

Definition simDisconnect (sim : ArduinoSimulator) : ArduinoSimulator :=
  mkSimulator false (sim_currentKey sim) (sim_lastKeyTime sim) (sim_keyDelay sim)
              (sim_lcdLine1 sim) (sim_lcdLine2 sim).

(** The [switch (buttonName)] of [pressButton]: case-sensitive. *)
Definition keyInput (buttonName : string) : Input :=
  if String.eqb buttonName "UP" then mkInput true false false false
  else if String.eqb buttonName "DOWN" then mkInput false true false false
  else if String.eqb buttonName "LEFT" then mkInput false false true false
  else if String.eqb buttonName "RIGHT" then mkInput false false false true
  else noInput.

(** [pressButton(buttonName)] at clock reading [now]: the simulator
    afterwards and the input object it emits, if any.  The timer that
    rewrites the display two seconds later is left out. *)
Definition pressButton (now : Z) (buttonName : string) (sim : ArduinoSimulator)
    : ArduinoSimulator * option Input :=
  if negb (sim_isConnected sim) then (sim, None)
  else if now - sim_lastKeyTime sim <? sim_keyDelay sim then (sim, None)
  else
    (mkSimulator (sim_isConnected sim) (Some buttonName) now (sim_keyDelay sim)
                 "Button pressed:" (buttonName ++ " ->"),
     Some (keyInput buttonName)).

(** [manualPress(direction)] *)
Definition manualPress (now : Z) (direction : string) (sim : ArduinoSimulator)
    : ArduinoSimulator * option Input :=
  pressButton now (toUpperCase direction) sim.

(** A run of presses, each with its clock reading: the simulator afterwards
    and the emitted inputs with the time of their press. *)
Fixpoint pressAll (sim : ArduinoSimulator) (presses : list (Z * string))
    : ArduinoSimulator * list (Z * Input) :=
  match presses with
  | [] => (sim, [])
  | (now, buttonName) :: r =>
      let '(sim1, out) := pressButton now buttonName sim in
      let '(sim2, outs) := pressAll sim1 r in
      (sim2, match out with
             | Some input => (now, input) :: outs
             | None => outs
             end)
  end.

(** Successive times, each at least [d] after the one before, the first at
    least [d] after [last]. *)
Fixpoint spaced (d last : Z) (ts : list Z) : Prop :=
  match ts with
  | [] => True
  | t :: r => t - last >= d /\ spaced d t r
  end.

(** What the client of the serial-port variant's endpoint sees: 400, 500
    when the handler throws, 503 without a simulator, or success. *)
Inductive SimResponse : Type :=
  | SimBadRequest
  | SimHandlerThrew
  | SimUnavailable
  | SimSuccess.

(** [app.post("/api/arduino/press")] of the serial-port variant. *)
Definition apiArduinoPressSim (now : Z) (direction : JsValue)
    (arduinoSimulator : option ArduinoSimulator)
    : option ArduinoSimulator * SimResponse * option Input :=
  match direction with
  | JsUndefined => (arduinoSimulator, SimBadRequest, None)
  | JsOther false => (arduinoSimulator, SimBadRequest, None)
  | JsOther true => (arduinoSimulator, SimHandlerThrew, None)
  | JsString d =>
      if negb (truthy (Some d)) || negb (validToken d)
      then (arduinoSimulator, SimBadRequest, None)
      else
        match arduinoSimulator with
        | Some sim =>
            let '(sim', out) := manualPress now d sim in
            (Some sim', SimSuccess, out)
        | None => (None, SimUnavailable, None)
        end
  end.

(** The [switch (key)] of the serial parser: key names and the numeric
    codes of the keypad shield. *)
Definition serialKeyInput (key : string) : Input :=
  if String.eqb key "UP" then mkInput true false false false
  else if String.eqb key "DOWN" then mkInput false true false false
  else if String.eqb key "LEFT" then mkInput false false true false
  else if String.eqb key "RIGHT" then mkInput false false false true
  else if String.eqb key "0" || String.eqb key "RIGHT_VAL"
       then mkInput false false false true
  else if String.eqb key "1" || String.eqb key "UP_VAL"
       then mkInput true false false false
  else if String.eqb key "2" || String.eqb key "DOWN_VAL"
       then mkInput false true false false
  else if String.eqb key "3" || String.eqb key "LEFT_VAL"
       then mkInput false false true false
  else noInput.

(** The threshold chain on an analog reading.  A line that parses to NaN
    fails every comparison, as a reading of 600 or more does. *)
Definition analogInput (analogValue : Z) : Input :=
  if analogValue <? 50 then mkInput false false false true
  else if analogValue <? 200 then mkInput true false false false
  else if analogValue <? 400 then mkInput false true false false
  else if analogValue <? 600 then mkInput false false true false
  else noInput.

(** The serial parser's handlers, from the parsed key or reading on: a key
    line is always emitted and applied; a reading only when it selects a
    direction. *)
Definition onSerialKey (key : string) (sv : Server) : Server * list Effect :=
  let input := serialKeyInput key in
  let sv' := mapPlayer1 (fun p => updatePlayerDirection p input) sv in
  (sv', [EmitArduinoInput input; EmitGameUpdate (gameState sv')]).

Definition onSerialAnalog (analogValue : Z) (sv : Server)
    : Server * list Effect :=
  let input := analogInput analogValue in
  if hasFlag input then
    let sv' := mapPlayer1 (fun p => updatePlayerDirection p input) sv in
    (sv', [EmitArduinoInput input; EmitGameUpdate (gameState sv')])
  else (sv, []).

(** How many flags an input object has set. *)
Definition flagCount (input : Input) : nat :=
  ((if i_up input then 1 else 0) + (if i_down input then 1 else 0)
   + (if i_left input then 1 else 0) + (if i_right input then 1 else 0))%nat.

(** * Basic facts *)

Lemma tunnel_range (x : Z) : 0 <= tunnel x <= 27.
Proof.
  unfold tunnel.
  destruct (x <? 0) eqn:Hneg.
  - simpl. lia.
  - destruct (x >? 27) eqn:Hbig; lia.
Qed.

Lemma tunnel_spec (x : Z) :
  (x < 0 -> tunnel x = 27) /\ (x > 27 -> tunnel x = 0)
  /\ (0 <= x <= 27 -> tunnel x = x).
Proof.
  unfold tunnel. repeat split; intros H.
  - destruct (x <? 0) eqn:E; [reflexivity | lia].
  - destruct (x <? 0) eqn:E; [lia |].
    destruct (x >? 27) eqn:E'; lia.
  - destruct (x <? 0) eqn:E; [lia |].
    destruct (x >? 27) eqn:E'; lia.
Qed.

Lemma mazeRows_eq : mazeRows = 31.
Proof. reflexivity. Qed.

Lemma mazeCols_eq : mazeCols = 28.
Proof. reflexivity. Qed.

Lemma setPlayer1_same (s : GameState) : setPlayer1 (player1 s) s = s.
Proof. destruct s; reflexivity. Qed.

Lemma setPlayer2_same (s : GameState) : setPlayer2 (player2 s) s = s.
Proof. destruct s; reflexivity. Qed.

Lemma mapPlayer1_id (sv : Server) : mapPlayer1 (fun p => p) sv = sv.
Proof. destruct sv as [s i]; unfold mapPlayer1; simpl. now rewrite setPlayer1_same. Qed.

Lemma mapPlayer2_id (sv : Server) : mapPlayer2 (fun p => p) sv = sv.
Proof. destruct sv as [s i]; unfold mapPlayer2; simpl. now rewrite setPlayer2_same. Qed.

(** * Player movement *)

Lemma movePlayer_eq (p : Player) :
  movePlayer p =
    if insideVertical (candidate p) && negb (isWall (candidate p))
    then p_setPos (fst (candidate p)) (snd (candidate p)) p
    else p.
Proof.
  unfold movePlayer, candidate.
  destruct (stepDir (p_direction p) (p_x p) (p_y p)) as [nx ny].
  pose proof (tunnel_range nx) as Hr.
  rewrite mazeRows_eq, mazeCols_eq.
  unfold insideVertical, isWall, notWall; cbn [fst snd].
  replace (tunnel nx >=? 0) with true by (symmetry; apply Z.geb_le; lia).
  replace (tunnel nx <? 28) with true by (symmetry; apply Z.ltb_lt; lia).
  replace (ny >=? 0) with (0 <=? ny) by (rewrite Z.geb_leb; reflexivity).
  replace (ny <? 31) with (ny <=? 30)
    by (destruct (ny <=? 30) eqn:E1, (ny <? 31) eqn:E2; lia).
  rewrite !andb_true_r.
  destruct (mazeCell (tunnel nx) ny); reflexivity.
Qed.

Lemma MAZE_LAYOUT_rows :
  List.length MAZE_LAYOUT = 31%nat
  /\ Forall (fun row => List.length row = 28%nat) MAZE_LAYOUT.
Proof.
  split; [reflexivity |]. unfold MAZE_LAYOUT. repeat constructor.
Qed.

(** Inside the grid the indexed read of the layout finds an entry. *)
Lemma mazeCell_nth (cx ny : Z) :
  0 <= cx <= 27 -> 0 <= ny <= 30 ->
  mazeCell cx ny
  = Some (nth (Z.to_nat cx) (nth (Z.to_nat ny) MAZE_LAYOUT []) 0).
Proof.
  intros Hx Hy. destruct MAZE_LAYOUT_rows as [Hlen Hrows].
  unfold mazeCell.
  assert (Hn : (Z.to_nat ny < List.length MAZE_LAYOUT)%nat)
    by (rewrite Hlen; lia).
  rewrite (nth_error_nth' MAZE_LAYOUT [] Hn).
  apply nth_error_nth'.
  rewrite Forall_forall in Hrows.
  rewrite (Hrows (nth (Z.to_nat ny) MAZE_LAYOUT []))
    by (apply nth_In; exact Hn).
  lia.
Qed.

(** The wrapped column of a candidate. *)
Lemma tunnel_cases (nx : Z) :
  tunnel nx = (if nx <? 0 then 27 else if nx >? 27 then 0 else nx)
  /\ 0 <= tunnel nx <= 27
  /\ (tunnel nx = nx \/ (nx < 0 /\ tunnel nx = 27) \/ (27 < nx /\ tunnel nx = 0)).
Proof.
  unfold tunnel.
  destruct (nx <? 0) eqn:E1; [cbn; lia |].
  destruct (nx >? 27) eqn:E2; lia.
Qed.

(** The player step in closed form, by the fields of the record. *)
Lemma movePlayer_fields (p : Player) (nx ny : Z) :
  stepDir (p_direction p) (p_x p) (p_y p) = (nx, ny) ->
  movePlayer p
  = if (0 <=? ny) && (ny <=? 30)
       && negb (nth (Z.to_nat (tunnel nx))
                    (nth (Z.to_nat ny) MAZE_LAYOUT []) 0 =? 1)
    then mkPlayer (tunnel nx) ny (p_direction p) (p_score p) (p_lives p)
                  (p_invulnerable p) (p_invulnerableTime p) (p_name p)
    else p.
Proof.
  intros Hs. rewrite movePlayer_eq. unfold candidate. rewrite Hs.
  unfold insideVertical, isWall; cbn [fst snd].
  destruct ((0 <=? ny) && (ny <=? 30)) eqn:Ev; cbn [andb]; [| reflexivity].
  rewrite (mazeCell_nth (tunnel nx) ny) by (try apply tunnel_range; lia).
  destruct (negb _); [destruct p |]; reflexivity.
Qed.

(** C5. The player step, read off the fields of the record.  The candidate
    is the cell one step along the facing direction, its column wrapped
    into 0..27 (below 0 gives 27, above 27 gives 0).  The step writes the
    candidate into the position exactly when the candidate row is within
    0..30 and the layout does not hold a wall (1) there; otherwise the
    position stays.  Facing direction, score, lives, invulnerability and
    name are never touched.  So a player that moved stands on a cell of the
    grid that is no wall, one step along its facing direction from where it
    was, up to the wraparound of the column.  A player at (1,1) facing left
    stays at (1,1), the cell (0,1) being a wall; from open cells the four
    steps and the two wraparounds of row 14 land on the neighbouring cell,
    and the rows above 0 and below 30 are never entered. *)
Theorem movePlayer_commits_open_cells_only :
  (forall p : Player,
      let nx := match p_direction p with
                | Left => p_x p - 1
                | Right => p_x p + 1
                | Up | Down => p_x p
                end in
      let ny := match p_direction p with
                | Up => p_y p - 1
                | Down => p_y p + 1
                | Left | Right => p_y p
                end in
      let cx := if nx <? 0 then 27 else if nx >? 27 then 0 else nx in
      let open :=
        (0 <=? ny) && (ny <=? 30)
        && negb (nth (Z.to_nat cx) (nth (Z.to_nat ny) MAZE_LAYOUT []) 0 =? 1) in
      movePlayer p
      = mkPlayer (if open then cx else p_x p) (if open then ny else p_y p)
                 (p_direction p) (p_score p) (p_lives p) (p_invulnerable p)
                 (p_invulnerableTime p) (p_name p))
  /\ (forall p : Player,
      let p' := movePlayer p in
      p_direction p' = p_direction p
      /\ ((p_x p', p_y p') <> (p_x p, p_y p) ->
          0 <= p_x p' <= 27 /\ 0 <= p_y p' <= 30
          /\ nth (Z.to_nat (p_x p')) (nth (Z.to_nat (p_y p')) MAZE_LAYOUT []) 0
             <> 1
          /\ exists nx : Z,
               (p_x p' = nx \/ (nx < 0 /\ p_x p' = 27)
                \/ (27 < nx /\ p_x p' = 0))
               /\ ((p_direction p = Up /\ nx = p_x p /\ p_y p' = p_y p - 1)
                   \/ (p_direction p = Down /\ nx = p_x p
                       /\ p_y p' = p_y p + 1)
                   \/ (p_direction p = Left /\ nx = p_x p - 1
                       /\ p_y p' = p_y p)
                   \/ (p_direction p = Right /\ nx = p_x p + 1
                       /\ p_y p' = p_y p))))
  /\ (forall sc lv inv t n,
      nth 0 (nth 1 MAZE_LAYOUT []) 0 = 1
      /\ movePlayer (mkPlayer 1 1 Left sc lv inv t n)
         = mkPlayer 1 1 Left sc lv inv t n
      /\ movePlayer (mkPlayer 1 1 Up sc lv inv t n)
         = mkPlayer 1 1 Up sc lv inv t n
      /\ movePlayer (mkPlayer 1 1 Right sc lv inv t n)
         = mkPlayer 2 1 Right sc lv inv t n
      /\ movePlayer (mkPlayer 1 1 Down sc lv inv t n)
         = mkPlayer 1 2 Down sc lv inv t n
      /\ movePlayer (mkPlayer 2 1 Left sc lv inv t n)
         = mkPlayer 1 1 Left sc lv inv t n
      /\ movePlayer (mkPlayer 1 2 Up sc lv inv t n)
         = mkPlayer 1 1 Up sc lv inv t n
      /\ movePlayer (mkPlayer 0 14 Left sc lv inv t n)
         = mkPlayer 27 14 Left sc lv inv t n
      /\ movePlayer (mkPlayer 27 14 Right sc lv inv t n)
         = mkPlayer 0 14 Right sc lv inv t n
      /\ movePlayer (mkPlayer 14 0 Up sc lv inv t n)
         = mkPlayer 14 0 Up sc lv inv t n
      /\ movePlayer (mkPlayer 14 30 Down sc lv inv t n)
         = mkPlayer 14 30 Down sc lv inv t n).
Proof.
  split; [| split].
  - intros [x y d sc lv inv t n]; cbv zeta.
    destruct d;
      match goal with
      | |- movePlayer ?p = _ => rewrite (movePlayer_fields p _ _ eq_refl)
      end;
      cbn [p_direction p_x p_y p_score p_lives p_invulnerable
           p_invulnerableTime p_name];
      rewrite (proj1 (tunnel_cases _)); break_ifs; reflexivity.
  - intros [x y d sc lv inv t n]; cbv zeta.
    assert (Hgen : forall nx ny,
               stepDir d x y = (nx, ny) ->
               let p := mkPlayer x y d sc lv inv t n in
               p_direction (movePlayer p) = d
               /\ ((p_x (movePlayer p), p_y (movePlayer p)) <> (x, y) ->
                   p_x (movePlayer p) = tunnel nx /\ p_y (movePlayer p) = ny
                   /\ 0 <= ny <= 30
                   /\ nth (Z.to_nat (tunnel nx))
                          (nth (Z.to_nat ny) MAZE_LAYOUT []) 0 <> 1)).
    { intros nx ny Hs p. unfold p.
      rewrite (movePlayer_fields (mkPlayer x y d sc lv inv t n) nx ny Hs);
        cbn [p_direction p_x p_y].
      match goal with
      | |- context [if ?c then _ else _] => destruct c eqn:Hopen
      end; cbn [p_direction p_x p_y];
        (split; [reflexivity |]); [| intros H; now contradiction H].
      intros _.
      apply andb_prop in Hopen. destruct Hopen as [Hv Hw].
      apply andb_prop in Hv. destruct Hv as [Hv1 Hv2].
      apply negb_true_iff, Z.eqb_neq in Hw.
      split; [reflexivity | split; [reflexivity | split; [lia | exact Hw]]]. }
    cbn [p_direction p_x p_y].
    destruct d;
      match goal with
      | |- context [movePlayer ?p] =>
          destruct (Hgen _ _ eq_refl) as [Hdir Hmoved]
      end;
      cbv zeta in Hdir, Hmoved; (split; [exact Hdir |]);
      intros Hne; destruct (Hmoved Hne) as (Hx & Hy & Hv & Hw);
      rewrite Hx, Hy;
      match goal with
      | |- context [tunnel ?a] =>
          destruct (tunnel_cases a) as (_ & Hr & Hc)
      end;
      (split; [exact Hr | split; [exact Hv | split; [exact Hw |]]]).
    + exists x. split; [exact Hc | left; repeat split].
    + exists x. split; [exact Hc | right; left; repeat split].
    + exists (x - 1). split; [exact Hc | right; right; left; repeat split].
    + exists (x + 1). split; [exact Hc | right; right; right; repeat split].
  - intros. repeat split; reflexivity.
Qed.

Lemma movePlayer_commits_open_cells_only_witness :
  movePlayer (mkPlayer 1 1 Right 0 5 false 0 None)
  = mkPlayer 2 1 Right 0 5 false 0 None
  /\ nth 2 (nth 1 MAZE_LAYOUT []) 0 <> 1.
Proof.
  destruct movePlayer_commits_open_cells_only as (_ & H & _).
  pose proof (H (mkPlayer 1 1 Right 0 5 false 0 None)) as Hp.
  cbv zeta in Hp. destruct Hp as [_ Hm].
  split; [reflexivity |].
  destruct Hm as (_ & _ & Hw & _); [intros E; discriminate E | exact Hw].
Defined.

(** * Ghost movement towards a target *)

Lemma stepGhost_direction env ghost index target :
  g_direction (stepGhost env ghost index target)
  = snd (attemptMove env ghost index target).
Proof.
  unfold stepGhost.
  destruct (attemptMove env ghost index target) as [[nx ny] d]; cbn [snd].
  destruct ((tunnel nx >=? 0) && (tunnel nx <? 28) && (ny >=? 0) && (ny <? 31));
    reflexivity.
Qed.

Lemma stepGhost_pos env ghost index target :
  ghostPos (stepGhost env ghost index target)
  = commitGhost ghost (fst (attemptMove env ghost index target)).
Proof.
  unfold stepGhost, commitGhost, inGrid, ghostPos.
  destruct (attemptMove env ghost index target) as [[nx ny] d]; cbn [fst snd].
  replace (tunnel nx >=? 0) with (0 <=? tunnel nx)
    by (rewrite Z.geb_leb; reflexivity).
  replace (ny >=? 0) with (0 <=? ny) by (rewrite Z.geb_leb; reflexivity).
  replace (tunnel nx <? 28) with (tunnel nx <=? 27)
    by (destruct (tunnel nx <=? 27) eqn:E1, (tunnel nx <? 28) eqn:E2; lia).
  replace (ny <? 31) with (ny <=? 30)
    by (destruct (ny <=? 30) eqn:E1, (ny <? 31) eqn:E2; lia).
  destruct ((0 <=? tunnel nx) && (tunnel nx <=? 27) && (0 <=? ny) && (ny <=? 30));
    reflexivity.
Qed.

Lemma stepGhost_colors env ghost index target :
  g_color (stepGhost env ghost index target) = g_color ghost
  /\ g_originalColor (stepGhost env ghost index target) = g_originalColor ghost.
Proof.
  unfold stepGhost.
  destruct (attemptMove env ghost index target) as [[nx ny] d].
  destruct ((tunnel nx >=? 0) && (tunnel nx <? 28) && (ny >=? 0) && (ny <? 31));
    split; reflexivity.
Qed.

(** C1, as the code has it.  For a ghost with a target, the step is
    horizontal only when |dx| is strictly greater than |dy|, and vertical
    whenever |dy| >= |dx|, ties included.  The facing direction becomes the
    direction of the attempted step in each of the four cases, whether or
    not the bounds check lets the ghost move. *)
Theorem moveGhost_axis_choice :
  forall s env ghost index tx ty,
    chooseTarget s env ghost index = Some (tx, ty) ->
    let dx := tx - g_x ghost in
    let dy := ty - g_y ghost in
    let ghost' := moveGhost s env ghost index in
    (Z.abs dx > Z.abs dy -> dx > 0 ->
       g_direction ghost' = Right
       /\ ghostPos ghost' = commitGhost ghost (g_x ghost + 1, g_y ghost))
    /\ (Z.abs dx > Z.abs dy -> dx <= 0 ->
       g_direction ghost' = Left
       /\ ghostPos ghost' = commitGhost ghost (g_x ghost - 1, g_y ghost))
    /\ (Z.abs dy >= Z.abs dx -> dy > 0 ->
       g_direction ghost' = Down
       /\ ghostPos ghost' = commitGhost ghost (g_x ghost, g_y ghost + 1))
    /\ (Z.abs dy >= Z.abs dx -> dy <= 0 ->
       g_direction ghost' = Up
       /\ ghostPos ghost' = commitGhost ghost (g_x ghost, g_y ghost - 1)).
Proof.
  intros s env ghost index tx ty Ht dx dy ghost'.
  subst ghost'. unfold moveGhost. rewrite Ht.
  rewrite stepGhost_direction, stepGhost_pos.
  unfold attemptMove. fold dx dy.
  split; [| split; [| split]]; intros Habs Hsign.
  all: destruct (Z.abs dx >? Z.abs dy) eqn:E; try lia.
  all: destruct (dx >? 0) eqn:E'; try lia.
  all: destruct (dy >? 0) eqn:E''; try lia.
  all: split; reflexivity.
Qed.

(** A ghost on the top row, standing on its target: the attempted step is
    up, out of the grid; the ghost keeps its cell and faces up. *)
Lemma moveGhost_axis_choice_witness :
  let ghost := mkGhost 5 0 Left "red" None in
  let ghost' := moveGhost (chaseState 5 0) quietEnv ghost 0 in
  g_direction ghost' = Up /\ ghostPos ghost' = (5, 0).
Proof.
  intros ghost ghost'.
  pose proof (moveGhost_axis_choice (chaseState 5 0) quietEnv ghost 0 5 0
                eq_refl) as H.
  cbv zeta in H. destruct H as (_ & _ & _ & Hup).
  apply Hup; simpl; lia.
Defined.

(** C1, as the claim words it, fails on a tie: a ghost at (5,5) chasing a
    player at (7,7) has |dx| = |dy| = 2 and steps down to (5,6), facing
    down; it does not move horizontally. *)
Lemma moveGhost_tie_is_vertical :
  let ghost := mkGhost 5 5 Left "red" None in
  let ghost' := moveGhost (chaseState 7 7) quietEnv ghost 0 in
  chooseTarget (chaseState 7 7) quietEnv ghost 0 = Some (7, 7)
  /\ Z.abs (7 - g_x ghost) = Z.abs (7 - g_y ghost)
  /\ g_direction ghost' = Down
  /\ ghostPos ghost' = (5, 6)
  /\ g_direction ghost' <> Right
  /\ g_direction ghost' <> Left
  /\ g_x ghost' = g_x ghost.
Proof.
  cbv zeta. repeat split; try reflexivity; discriminate.
Qed.

(** * Win evaluation *)

Lemma orDefault_spec (o : option string) (d : string) :
  (forall n, o = Some n -> n <> EmptyString -> orDefault o d = n)
  /\ (o = None \/ o = Some EmptyString -> orDefault o d = d).
Proof.
  split.
  - intros n -> Hn. unfold orDefault, truthy.
    destruct (String.eqb_spec n EmptyString); [contradiction | reflexivity].
  - intros [-> | ->]; reflexivity.
Qed.



(** * Timers *)

Lemma expireInvulnerability_spec (now : Z) (p : Player) :
  p_invulnerable p = true ->
  (p_invulnerable (expireInvulnerability now p) = false
   <-> now - p_invulnerableTime p > 3000).
Proof.
  intros Hinv. unfold expireInvulnerability. rewrite Hinv; cbn [andb].
  destruct (now - p_invulnerableTime p >? 3000) eqn:E.
  - split; [lia | reflexivity].
  - split; [rewrite Hinv; discriminate | lia].
Qed.

Lemma expireInvulnerability_frame (now : Z) (p : Player) :
  expireInvulnerability now p = p
  \/ expireInvulnerability now p = p_setInvulnerable false p.
Proof.
  unfold expireInvulnerability.
  destruct (p_invulnerable p && (now - p_invulnerableTime p >? 3000));
    [right | left]; reflexivity.
Qed.

(** C4, as the code has it.  The timer phase compares with a strict
    inequality: power mode ends exactly when now - powerModeTime > 10000,
    and every blue ghost that carries an original colour then gets it back
    (the slot is cleared); a player's invulnerability ends exactly when
    now - invulnerableTime > 3000.  While the difference has not passed the
    threshold the phase changes nothing. *)
Theorem timers_expire_strictly_after_threshold :
  forall (now : Z) (s : GameState),
    (powerMode s = true ->
       (powerMode (updatePowerMode now s) = false
        <-> now - powerModeTime s > 10000))
    /\ (powerMode s = true -> now - powerModeTime s > 10000 ->
        forall i g c,
          nth_error (ghosts s) i = Some g ->
          isBlue g = true ->
          g_originalColor g = Some c -> c <> EmptyString ->
          nth_error (ghosts (updatePowerMode now s)) i
          = Some (g_setColors c None g))
    /\ (now - powerModeTime s <= 10000 -> updatePowerMode now s = s)
    /\ (p_invulnerable (player1 s) = true ->
        (p_invulnerable (player1 (updateInvulnerability now s)) = false
         <-> now - p_invulnerableTime (player1 s) > 3000))
    /\ (p_invulnerable (player2 s) = true ->
        (p_invulnerable (player2 (updateInvulnerability now s)) = false
         <-> now - p_invulnerableTime (player2 s) > 3000)).
Proof.
  intros now s. split; [| split; [| split; [| split]]].
  - intros Hpm. unfold updatePowerMode. rewrite Hpm.
    destruct (now - powerModeTime s >? 10000) eqn:E.
    + split; [lia | reflexivity].
    + split; [rewrite Hpm; discriminate | lia].
  - intros Hpm Hlate i g c Hi Hblue Hoc Hc. unfold updatePowerMode.
    rewrite Hpm.
    replace (now - powerModeTime s >? 10000) with true by lia.
    cbn [setGhosts ghosts]. rewrite nth_error_map, Hi. cbn [option_map].
    unfold resetColor. rewrite Hblue, Hoc. unfold truthy.
    destruct (String.eqb_spec c EmptyString); [contradiction | reflexivity].
  - intros Hearly. unfold updatePowerMode.
    replace (now - powerModeTime s >? 10000) with false by lia.
    destruct (powerMode s); reflexivity.
  - intros Hinv. unfold updateInvulnerability; cbn [setPlayer1 setPlayer2 player1].
    now apply expireInvulnerability_spec.
  - intros Hinv. unfold updateInvulnerability; cbn [setPlayer1 setPlayer2 player2].
    now apply expireInvulnerability_spec.
Qed.

(** One millisecond past the thresholds: power mode is off, the blue ghost
    is red again, player 1 is vulnerable again. *)
Lemma timers_expire_strictly_after_threshold_witness :
  powerMode (updatePowerMode 10001 (poweredState 0)) = false
  /\ nth_error (ghosts (updatePowerMode 10001 (poweredState 0))) 0
     = Some (mkGhost 13 14 Up "red" None)
  /\ p_invulnerable (player1 (updateInvulnerability 3001 (poweredState 0)))
     = false.
Proof.
  destruct (timers_expire_strictly_after_threshold 10001 (poweredState 0))
    as (Hoff & Hcol & _ & _ & _).
  destruct (timers_expire_strictly_after_threshold 3001 (poweredState 0))
    as (_ & _ & _ & Hinv & _).
  split; [| split].
  - apply Hoff; [reflexivity | simpl; lia].
  - apply (Hcol eq_refl) with
      (i := 0%nat) (g := mkGhost 13 14 Up "blue" (Some "red"%string))
      (c := "red"%string);
      [simpl; lia | reflexivity | reflexivity | reflexivity | discriminate].
  - apply Hinv; [reflexivity | simpl; lia].
Defined.

(** C4, as the claim words it, fails at the threshold itself: with
    now - activation equal to 10000 power mode is still on and the ghost is
    still blue, and with now - activation equal to 3000 the player is still
    invulnerable. *)
Lemma timers_not_expired_at_threshold :
  10000 - powerModeTime (poweredState 0) >= 10000
  /\ powerMode (updatePowerMode 10000 (poweredState 0)) = true
  /\ nth_error (ghosts (updatePowerMode 10000 (poweredState 0))) 0
     = Some (mkGhost 13 14 Up "blue" (Some "red"%string))
  /\ 3000 - p_invulnerableTime (player1 (poweredState 0)) >= 3000
  /\ p_invulnerable (player1 (updateInvulnerability 3000 (poweredState 0)))
     = true.
Proof.
  repeat split; try reflexivity; simpl; lia.
Qed.

(** * Input routing *)

Lemma updatePlayerDirection_noInput (p : Player) :
  updatePlayerDirection p noInput = p.
Proof. reflexivity. Qed.

Lemma validToken_cases (d : string) :
  validToken d = true ->
  toUpperCase d = "UP"%string \/ toUpperCase d = "DOWN"%string
  \/ toUpperCase d = "LEFT"%string \/ toUpperCase d = "RIGHT"%string.
Proof.
  unfold validToken; cbn [existsb].
  destruct (String.eqb_spec (toUpperCase d) "UP"); [auto |].
  destruct (String.eqb_spec (toUpperCase d) "DOWN"); [auto |].
  destruct (String.eqb_spec (toUpperCase d) "LEFT"); [auto |].
  destruct (String.eqb_spec (toUpperCase d) "RIGHT"); [auto |].
  discriminate.
Qed.

Lemma inputOfToken_invalid (d : string) :
  validToken d = false -> inputOfToken d = noInput.
Proof.
  unfold validToken, inputOfToken; cbn [existsb].
  destruct (String.eqb (toUpperCase d) "UP"); [discriminate |].
  destruct (String.eqb (toUpperCase d) "DOWN"); [discriminate |].
  destruct (String.eqb (toUpperCase d) "LEFT"); [discriminate |].
  destruct (String.eqb (toUpperCase d) "RIGHT"); [discriminate |].
  reflexivity.
Qed.

Lemma validToken_nonempty (d : string) :
  validToken d = true -> truthy (Some d) = true.
Proof.
  destruct d; [| reflexivity].
  unfold validToken. rewrite toUpperCase_ascii by reflexivity. discriminate.
Qed.

(** C10. An input object with no flag set changes nothing: not the player
    it is applied to, and not the server through any of the handlers that
    route it (player input for either player or for an unknown player
    number, bridge input, a manual press of a key that is no direction,
    such as SELECT). *)
Theorem noInput_is_noop :
  (forall p : Player, updatePlayerDirection p noInput = p)
  /\ (forall (sv : Server) (player : Z), onPlayerInput player noInput sv = sv)
  /\ (forall sv : Server, onArduinoInput noInput sv = sv)
  /\ (forall sv : Server, onArduinoManualPress "SELECT" sv = sv)
  /\ (forall (sv : Server) (input : Input),
         i_up input || i_down input || i_left input || i_right input = false ->
         onArduinoInput input sv = sv
         /\ onPlayerInput 1 input sv = sv /\ onPlayerInput 2 input sv = sv).
Proof.
  split; [| split; [| split; [| split]]].
  - exact updatePlayerDirection_noInput.
  - intros sv player. unfold onPlayerInput.
    destruct (player =? 1); [apply mapPlayer1_id |].
    destruct (player =? 2); [apply mapPlayer2_id | reflexivity].
  - intros sv. apply mapPlayer1_id.
  - intros sv.
    assert (H : inputOfToken "SELECT" = noInput).
    { unfold inputOfToken. rewrite toUpperCase_ascii by reflexivity.
      reflexivity. }
    unfold onArduinoManualPress. rewrite H. apply mapPlayer1_id.
  - intros sv [u d l r]; cbn [i_up i_down i_left i_right]. intros H.
    destruct u, d, l, r; try discriminate H.
    repeat split; [apply mapPlayer1_id | apply mapPlayer1_id | apply mapPlayer2_id].
Qed.

(** * The manual-press endpoint *)

Lemma tokenDirection_spec (t : string) :
  (tokenDirection t = Some Up <-> toUpperCase t = "UP"%string)
  /\ (tokenDirection t = Some Down <-> toUpperCase t = "DOWN"%string)
  /\ (tokenDirection t = Some Left <-> toUpperCase t = "LEFT"%string)
  /\ (tokenDirection t = Some Right <-> toUpperCase t = "RIGHT"%string)
  /\ (tokenDirection t = None <-> validToken t = false).
Proof.
  unfold tokenDirection, validToken; cbn [existsb].
  destruct (String.eqb_spec (toUpperCase t) "UP") as [-> | Hu];
    [repeat split; intros H; try reflexivity; discriminate H |].
  destruct (String.eqb_spec (toUpperCase t) "DOWN") as [-> | Hd];
    [repeat split; intros H; try reflexivity; discriminate H |].
  destruct (String.eqb_spec (toUpperCase t) "LEFT") as [-> | Hl];
    [repeat split; intros H; try reflexivity; discriminate H |].
  destruct (String.eqb_spec (toUpperCase t) "RIGHT") as [-> | Hr];
    [repeat split; intros H; try reflexivity; discriminate H |].
  repeat split; intros H; try reflexivity; try discriminate H; contradiction.
Qed.

Lemma inputOfToken_direction (t : string) (dir : Direction) :
  tokenDirection t = Some dir ->
  inputOfToken t
  = match dir with
    | Up => mkInput true false false false
    | Down => mkInput false true false false
    | Left => mkInput false false true false
    | Right => mkInput false false false true
    end.
Proof.
  unfold tokenDirection, inputOfToken.
  destruct (String.eqb (toUpperCase t) "UP");
    [intros H; injection H as <-; reflexivity |].
  destruct (String.eqb (toUpperCase t) "DOWN");
    [intros H; injection H as <-; reflexivity |].
  destruct (String.eqb (toUpperCase t) "LEFT");
    [intros H; injection H as <-; reflexivity |].
  destruct (String.eqb (toUpperCase t) "RIGHT");
    [intros H; injection H as <-; reflexivity |].
  discriminate.
Qed.

Lemma validToken_ascii (t : string) :
  isAscii t = true ->
  validToken t = existsb (String.eqb (asciiUpper t))
                         ["UP"; "DOWN"; "LEFT"; "RIGHT"]%string.
Proof.
  intros H. unfold validToken. rewrite (toUpperCase_ascii t H). reflexivity.
Qed.

(** C8. The manual-press endpoint reads the [direction] property through
    its upper-case form only; a token is a string whose upper-case form is
    UP, DOWN, LEFT or RIGHT.  A request that carries no token (a string
    with another upper-case form, or no string at all) is answered with a
    rejection and leaves the server as it was; a string without a token
    gets status 400.  A request that carries a token is handled exactly as
    the bridge input event with the one matching flag: player 1 keeps its
    position, score, lives, invulnerability and name and faces the named
    direction, player 2 and every other part of the session and the
    interval handle stay, and the success body echoes the input with that
    one flag.  The names are accepted in either letter case. *)
Theorem apiArduinoPress_rejects_or_routes :
  (forall t : string,
      (tokenDirection t = Some Up <-> toUpperCase t = "UP"%string)
      /\ (tokenDirection t = Some Down <-> toUpperCase t = "DOWN"%string)
      /\ (tokenDirection t = Some Left <-> toUpperCase t = "LEFT"%string)
      /\ (tokenDirection t = Some Right <-> toUpperCase t = "RIGHT"%string)
      /\ (tokenDirection t = None <-> validToken t = false))
  /\ (forall (d : JsValue) (sv : Server),
      carriesToken d = false ->
      fst (apiArduinoPress d sv) = sv
      /\ isRejection (snd (apiArduinoPress d sv)) = true)
  /\ (forall (t : string) (sv : Server),
      validToken t = false ->
      apiArduinoPress (JsString t) sv = (sv, BadRequest))
  /\ (forall (t : string) (dir : Direction) (sv : Server),
      tokenDirection t = Some dir ->
      let input := match dir with
                   | Up => mkInput true false false false
                   | Down => mkInput false true false false
                   | Left => mkInput false false true false
                   | Right => mkInput false false false true
                   end in
      let sv' := fst (apiArduinoPress (JsString t) sv) in
      let p := player1 (gameState sv) in
      snd (apiArduinoPress (JsString t) sv) = Pressed input
      /\ sv' = onArduinoInput input sv
      /\ player1 (gameState sv')
         = mkPlayer (p_x p) (p_y p) dir (p_score p) (p_lives p)
                    (p_invulnerable p) (p_invulnerableTime p) (p_name p)
      /\ player2 (gameState sv') = player2 (gameState sv)
      /\ dots (gameState sv') = dots (gameState sv)
      /\ powerPellets (gameState sv') = powerPellets (gameState sv)
      /\ ghosts (gameState sv') = ghosts (gameState sv)
      /\ gameOver (gameState sv') = gameOver (gameState sv)
      /\ winner (gameState sv') = winner (gameState sv)
      /\ powerMode (gameState sv') = powerMode (gameState sv)
      /\ powerModeTime (gameState sv') = powerModeTime (gameState sv)
      /\ gameLoopInterval sv' = gameLoopInterval sv)
  /\ (tokenDirection "up" = Some Up /\ tokenDirection "Down" = Some Down
      /\ tokenDirection "lEFT" = Some Left
      /\ tokenDirection "RIGHT" = Some Right
      /\ validToken "select" = false /\ validToken "" = false
      /\ validToken "UPWARDS" = false).
Proof.
  assert (Hbad : forall (t : string) (sv : Server),
             validToken t = false ->
             apiArduinoPress (JsString t) sv = (sv, BadRequest)).
  { intros t sv Hv. unfold apiArduinoPress. rewrite Hv; cbn [negb].
    rewrite orb_true_r. reflexivity. }
  split; [exact tokenDirection_spec | split; [| split; [exact Hbad | split]]].
  - intros [| t | [|]] sv Hc; cbn in Hc; try (split; reflexivity).
    rewrite (Hbad t sv Hc). split; reflexivity.
  - intros t dir sv Hdir.
    assert (Hv : validToken t = true).
    { destruct (validToken t) eqn:E; [reflexivity |].
      apply (proj2 (proj2 (proj2 (proj2 (tokenDirection_spec t))))) in E.
      rewrite E in Hdir. discriminate Hdir. }
    pose proof (inputOfToken_direction t dir Hdir) as Hin.
    assert (Heq : apiArduinoPress (JsString t) sv
                  = (onArduinoInput (inputOfToken t) sv, Pressed (inputOfToken t))).
    { unfold apiArduinoPress.
      rewrite Hv, (validToken_nonempty t Hv). reflexivity. }
    cbv zeta. rewrite Heq, Hin; cbn [fst snd].
    destruct sv as [s loop], s as [p1 p2 ds pp gs go w pm pmt], p1, dir;
      repeat split; reflexivity.
  - unfold tokenDirection.
    rewrite !validToken_ascii, !toUpperCase_ascii by reflexivity.
    repeat split; reflexivity.
Qed.

(** * Ghost collisions in power mode *)

Lemma eatGhost_pos (i : nat) (g : Ghost) :
  ghostPos (eatGhost i g) = (homeX i, homeY i).
Proof.
  unfold eatGhost; cbn [g_setPos g_originalColor].
  destruct (g_originalColor g) as [c |]; [| reflexivity].
  destruct (truthy (Some c)); reflexivity.
Qed.








(** * Traversals with a shared object *)

Lemma filterSt_fst_invariant {S A : Type} (P : S -> Prop)
    (f : S -> A -> S * bool) :
  (forall s a, P s -> P (fst (f s a))) ->
  forall l s, P s -> P (fst (filterSt f s l)).
Proof.
  intros Hf. induction l as [| a l IH]; intros s Hs; cbn [filterSt].
  - exact Hs.
  - pose proof (Hf s a Hs) as H1.
    destruct (f s a) as [s1 keep]. cbn [fst] in H1.
    pose proof (IH s1 H1) as H2.
    destruct (filterSt f s1 l) as [s2 r]. exact H2.
Qed.

Lemma forEachGhost_fst_invariant (P : GameState -> Prop)
    (f : GameState -> Ghost -> nat -> GameState * Ghost) :
  (forall s g i, P s -> P (fst (f s g i))) ->
  forall l s k, P s -> P (fst (forEachGhost f s k l)).
Proof.
  intros Hf. induction l as [| g l IH]; intros s k Hs; cbn [forEachGhost].
  - exact Hs.
  - pose proof (Hf s g k Hs) as H1.
    destruct (f s g k) as [s1 g1]. cbn [fst] in H1.
    pose proof (IH s1 (S k) H1) as H2.
    destruct (forEachGhost f s1 (S k) l) as [s2 r]. exact H2.
Qed.

(** * Dot collection *)

Lemma p_addScore_0 (p : Player) : p_addScore 0 p = p.
Proof. destruct p; unfold p_addScore; cbn. now rewrite Z.add_0_r. Qed.

Lemma p_addScore_add (a b : Z) (p : Player) :
  p_addScore b (p_addScore a p) = p_addScore (a + b) p.
Proof. unfold p_addScore; cbn. now rewrite Z.add_assoc. Qed.

Lemma addScores_0 (s : GameState) : addScores 0 0 s = s.
Proof.
  unfold addScores. rewrite !p_addScore_0.
  cbn [setPlayer1 player2]. destruct s; reflexivity.
Qed.

Lemma addScores_add (a b c d : Z) (s : GameState) :
  addScores c d (addScores a b s) = addScores (a + c) (b + d) s.
Proof.
  unfold addScores; cbn [setPlayer1 setPlayer2 player1 player2].
  rewrite !p_addScore_add. reflexivity.
Qed.

Lemma dotsUnder_addScore (k : Z) (p : Player) (l : list Pos) :
  dotsUnder (p_addScore k p) l = dotsUnder p l.
Proof. reflexivity. Qed.

Lemma collectDot_eq (s : GameState) (d : Pos) :
  collectDot s d
  = (addScores (if onPlayer d (player1 s) then 10 else 0)
               (if onPlayer d (player2 s) then 10 else 0) s,
     keepDot s d).
Proof.
  unfold collectDot, keepDot.
  destruct (onPlayer d (player1 s)) eqn:E1, (onPlayer d (player2 s)) eqn:E2;
    cbn [orb negb setPlayer1 player1 player2]; rewrite ?E2.
  - reflexivity.
  - unfold addScores. now rewrite p_addScore_0.
  - unfold addScores. rewrite p_addScore_0.
    cbn [setPlayer1 player2]. now rewrite setPlayer1_same.
  - now rewrite addScores_0.
Qed.

Lemma filterSt_collectDot :
  forall (l : list Pos) (s : GameState),
    filterSt collectDot s l
    = (addScores (10 * dotsUnder (player1 s) l) (10 * dotsUnder (player2 s) l) s,
       filter (keepDot s) l).
Proof.
  induction l as [| d l IH]; intros s.
  - cbn. now rewrite addScores_0.
  - cbn [filterSt]. rewrite collectDot_eq, IH.
    rewrite addScores_add. cbn [filter].
    change (keepDot (addScores _ _ s)) with (keepDot s).
    change (player1 (addScores (if onPlayer d (player1 s) then 10 else 0)
                               (if onPlayer d (player2 s) then 10 else 0) s))
      with (p_addScore (if onPlayer d (player1 s) then 10 else 0) (player1 s)).
    change (player2 (addScores (if onPlayer d (player1 s) then 10 else 0)
                               (if onPlayer d (player2 s) then 10 else 0) s))
      with (p_addScore (if onPlayer d (player2 s) then 10 else 0) (player2 s)).
    rewrite !dotsUnder_addScore.
    unfold dotsUnder; cbn [filter].
    f_equal. f_equal.
    + destruct (onPlayer d (player1 s)); cbn [List.length]; lia.
    + destruct (onPlayer d (player2 s)); cbn [List.length]; lia.
Qed.

Lemma onPlayer_true (d : Pos) (p : Player) :
  onPlayer d p = true <-> d = playerPos p.
Proof.
  unfold onPlayer, playerPos. destruct d as [dx dy]; cbn [fst snd].
  rewrite andb_true_iff, !Z.eqb_eq. split.
  - intros [-> ->]. reflexivity.
  - intros H. injection H as -> ->. split; reflexivity.
Qed.

Lemma dotsUnder_NoDup (p : Player) (l : list Pos) :
  NoDup l ->
  (In (playerPos p) l -> dotsUnder p l = 1)
  /\ (~ In (playerPos p) l -> dotsUnder p l = 0).
Proof.
  unfold dotsUnder. induction 1 as [| d l Hnotin Hnd IH]; cbn [filter In].
  - split; [intros [] | reflexivity].
  - destruct IH as [IH1 IH0].
    destruct (onPlayer d p) eqn:E.
    + apply onPlayer_true in E. subst d. split.
      * intros _. cbn [List.length]. rewrite Nat2Z.inj_succ, (IH0 Hnotin). lia.
      * intros H. exfalso. apply H. left. reflexivity.
    + assert (Hne : d <> playerPos p).
      { intros Heq. apply onPlayer_true in Heq. congruence. }
      split.
      * intros [Heq | Hin]; [contradiction | exact (IH1 Hin)].
      * intros H. apply IH0. intros Hin. apply H. right. exact Hin.
Qed.

Lemma keepDot_false (s : GameState) (d : Pos) :
  keepDot s d = false ->
  In d [playerPos (player1 s); playerPos (player2 s)].
Proof.
  unfold keepDot. rewrite negb_false_iff, orb_true_iff, !onPlayer_true.
  intros [-> | ->]; cbn; auto.
Qed.

Lemma removed_at_most_two (s : GameState) (l : list Pos) :
  NoDup l ->
  (List.length l <= List.length (filter (keepDot s) l) + 2)%nat.
Proof.
  intros Hnd. rewrite <- (filter_length (keepDot s) l) at 1.
  apply Nat.add_le_mono_l.
  change 2%nat with
    (List.length [playerPos (player1 s); playerPos (player2 s)]).
  apply NoDup_incl_length.
  - now apply NoDup_filter.
  - intros d Hin. apply filter_In in Hin. destruct Hin as [_ Hk].
    apply keepDot_false. now apply negb_true_iff in Hk.
Qed.

(** ** The [dots] array through the phases of a tick *)

Lemma gameTick_phases (env : TickEnv) (s : GameState) :
  gameTick env s
  = checkGameOver (checkCollisions (now_collisions env) (beforeCollisions env s)).
Proof. reflexivity. Qed.

Lemma dots_updatePowerMode now s : dots (updatePowerMode now s) = dots s.
Proof. unfold updatePowerMode. break_ifs; reflexivity. Qed.

Lemma dots_beforeCollisions env s : dots (beforeCollisions env s) = dots s.
Proof.
  unfold beforeCollisions, moveGhosts, updateInvulnerability.
  cbn [setGhosts setPlayer1 setPlayer2 dots].
  rewrite dots_updatePowerMode. reflexivity.
Qed.

Lemma checkDots_eq (s : GameState) :
  checkDots s
  = setDots (filter (keepDot s) (dots s))
            (addScores (10 * dotsUnder (player1 s) (dots s))
                       (10 * dotsUnder (player2 s) (dots s)) s).
Proof. unfold checkDots. now rewrite filterSt_collectDot. Qed.

Lemma dots_collectPellet now s a : dots (fst (collectPellet now s a)) = dots s.
Proof. unfold collectPellet. break_ifs; reflexivity. Qed.

Lemma dots_checkPowerPellets now s : dots (checkPowerPellets now s) = dots s.
Proof.
  unfold checkPowerPellets.
  pose proof (filterSt_fst_invariant (fun s' => dots s' = dots s)
                (collectPellet now)) as H.
  specialize (H (fun s0 a Hs => eq_trans (dots_collectPellet now s0 a) Hs)
                (powerPellets s) s eq_refl).
  destruct (filterSt (collectPellet now) s (powerPellets s)) as [s' kept].
  exact H.
Qed.

Lemma dots_ghostCollision now s g i :
  dots (fst (ghostCollision now s g i)) = dots s.
Proof.
  unfold ghostCollision.
  destruct (ghostOn g (player1 s)); [destruct (powerMode s) eqn:Hp |].
  - cbn [setPlayer1 player2 powerMode]. rewrite Hp. break_ifs; reflexivity.
  - destruct (negb (p_invulnerable (player1 s)));
      cbn [setPlayer1 player2 powerMode]; rewrite ?Hp; break_ifs; reflexivity.
  - break_ifs; reflexivity.
Qed.

Lemma dots_checkGhostCollisions now s :
  dots (checkGhostCollisions now s) = dots s.
Proof.
  unfold checkGhostCollisions.
  pose proof (forEachGhost_fst_invariant (fun s' => dots s' = dots s)
                (ghostCollision now)) as H.
  specialize (H (fun s0 g i Hs => eq_trans (dots_ghostCollision now s0 g i) Hs)
                (ghosts s) s 0%nat eq_refl).
  destruct (forEachGhost (ghostCollision now) s 0 (ghosts s)) as [s' gl].
  exact H.
Qed.

Lemma dots_checkGameOver s : dots (checkGameOver s) = dots s.
Proof. unfold checkGameOver. break_ifs; reflexivity. Qed.

Lemma gameTick_dots (env : TickEnv) (s : GameState) :
  dots (gameTick env s)
  = filter (keepDot (beforeCollisions env s)) (dots s).
Proof.
  rewrite gameTick_phases, dots_checkGameOver. unfold checkCollisions.
  rewrite dots_checkGhostCollisions, dots_checkPowerPellets, checkDots_eq.
  cbn [setDots dots]. now rewrite dots_beforeCollisions.
Qed.

(** * Reachable servers *)

Lemma run_invariant (P : Server -> Prop) :
  P boot ->
  (forall sv e, P sv -> P (handle sv e)) ->
  forall events, P (run boot events).
Proof.
  intros H0 Hstep events. unfold run.
  generalize boot H0. induction events as [| e events IH]; intros sv Hsv.
  - exact Hsv.
  - cbn [fold_left]. apply IH. now apply Hstep.
Qed.

Lemma run_snoc (sv : Server) (events : list Event) (e : Event) :
  run sv (events ++ [e]) = handle (run sv events) e.
Proof. unfold run. now rewrite fold_left_app. Qed.

(** ** The dots of a reachable session are pairwise distinct *)

Lemma posEqb_eq (a b : Pos) : posEqb a b = true <-> a = b.
Proof.
  unfold posEqb. destruct a as [ax ay], b as [bx by']; cbn [fst snd].
  rewrite andb_true_iff, !Z.eqb_eq. split.
  - intros [-> ->]. reflexivity.
  - intros H. injection H as -> ->. split; reflexivity.
Qed.

Lemma distinctb_NoDup (l : list Pos) : distinctb l = true -> NoDup l.
Proof.
  induction l as [| a l IH]; cbn [distinctb]; intros H.
  - constructor.
  - apply andb_true_iff in H. destruct H as [Hnot Hrest].
    constructor; [| now apply IH].
    intros Hin. apply negb_true_iff in Hnot.
    assert (Hex : existsb (posEqb a) l = true).
    { apply existsb_exists. exists a. split; [exact Hin | now apply posEqb_eq]. }
    congruence.
Qed.

Lemma resetGameState_dots_NoDup : NoDup (dots resetGameState).
Proof. apply distinctb_NoDup. vm_compute. reflexivity. Qed.

Lemma dots_mapPlayer1 f sv : dots (gameState (mapPlayer1 f sv)) = dots (gameState sv).
Proof. reflexivity. Qed.

Lemma dots_mapPlayer2 f sv : dots (gameState (mapPlayer2 f sv)) = dots (gameState sv).
Proof. reflexivity. Qed.

Lemma apiArduinoPress_cases (d : JsValue) (sv : Server) :
  fst (apiArduinoPress d sv) = sv
  \/ exists input,
       fst (apiArduinoPress d sv)
       = mapPlayer1 (fun p => updatePlayerDirection p input) sv.
Proof.
  destruct d as [| t | [|]]; try (left; reflexivity).
  unfold apiArduinoPress.
  destruct (negb (truthy (Some t)) || negb (validToken t)); cbn [fst].
  - left; reflexivity.
  - right. exists (inputOfToken t). reflexivity.
Qed.

Lemma handle_input_cases (sv : Server) (e : Event) :
  match e with Tick _ | StartGame _ _ => False | _ => True end ->
  handle sv e = sv
  \/ (exists input, handle sv e = mapPlayer1 (fun p => updatePlayerDirection p input) sv)
  \/ (exists input, handle sv e = mapPlayer2 (fun p => updatePlayerDirection p input) sv).
Proof.
  destruct e as [env | player input | input | d | d | n1 n2]; cbn [handle];
    intros He; try contradiction.
  - unfold onPlayerInput. break_ifs; eauto.
  - unfold onArduinoInput. eauto.
  - unfold onArduinoManualPress. eauto.
  - destruct (apiArduinoPress_cases d sv) as [H | [input H]]; eauto.
Qed.

Lemma reachable_dots_NoDup (events : list Event) :
  NoDup (dots (gameState (run boot events))).
Proof.
  apply (run_invariant (fun sv => NoDup (dots (gameState sv)))).
  - constructor.
  - intros sv e Hnd.
    destruct e as [env | player input | input | d | d | n1 n2].
    + cbn [handle]. unfold onInterval.
      destruct (gameLoopInterval sv); [| exact Hnd].
      cbn [gameState]. rewrite gameTick_dots. now apply NoDup_filter.
    + destruct (handle_input_cases sv (PlayerInput player input) I)
        as [-> | [[i ->] | [i ->]]]; exact Hnd.
    + destruct (handle_input_cases sv (ArduinoInput input) I)
        as [-> | [[i ->] | [i ->]]]; exact Hnd.
    + destruct (handle_input_cases sv (ArduinoManualPress d) I)
        as [-> | [[i ->] | [i ->]]]; exact Hnd.
    + destruct (handle_input_cases sv (ApiArduinoPress d) I)
        as [-> | [[i ->] | [i ->]]]; exact Hnd.
    + cbn [handle]. unfold onStartGame. cbn [gameState setPlayer1 setPlayer2 dots].
      exact resetGameState_dots_NoDup.
Qed.

(** C7. In every tick of a reachable session the dots left after the tick
    are dots that were there before it, and at most two are gone: exactly
    those under a player when collisions are resolved.  In the dot pass
    each player standing on a dot gets +10, whether or not the other player
    stands there too; when both stand on the same dot, the array loses that
    one dot and both get +10. *)
Theorem tick_dots_only_shrink_by_two :
  forall (events : list Event) (env : TickEnv),
    let s := gameState (run boot events) in
    let m := beforeCollisions env s in
    incl (dots (gameTick env s)) (dots s)
    /\ (List.length (dots s) <= List.length (dots (gameTick env s)) + 2)%nat
    /\ (forall d, In d (dots (gameTick env s)) <->
                  In d (dots s) /\ d <> playerPos (player1 m)
                  /\ d <> playerPos (player2 m))
    /\ (In (playerPos (player1 m)) (dots m) ->
        p_score (player1 (checkDots m)) = p_score (player1 m) + 10)
    /\ (In (playerPos (player2 m)) (dots m) ->
        p_score (player2 (checkDots m)) = p_score (player2 m) + 10)
    /\ (playerPos (player1 m) = playerPos (player2 m) ->
        In (playerPos (player1 m)) (dots m) ->
        (List.length (dots (checkDots m)) + 1 = List.length (dots m))%nat).
Proof.
  intros events env s m.
  assert (Hnd : NoDup (dots s)) by apply reachable_dots_NoDup.
  assert (Hm : dots m = dots s) by apply dots_beforeCollisions.
  split; [| split; [| split; [| split; [| split]]]].
  - rewrite gameTick_dots. apply incl_filter.
  - rewrite gameTick_dots. now apply removed_at_most_two.
  - intros d. rewrite gameTick_dots, filter_In. fold m. unfold keepDot.
    rewrite negb_true_iff, orb_false_iff.
    split; intros [Hin [H1 H2]]; (split; [exact Hin |]).
    + split; intros Heq; apply onPlayer_true in Heq; congruence.
    + split.
      * destruct (onPlayer d (player1 m)) eqn:E; [| reflexivity].
        apply onPlayer_true in E. contradiction.
      * destruct (onPlayer d (player2 m)) eqn:E; [| reflexivity].
        apply onPlayer_true in E. contradiction.
  - intros Hin. rewrite checkDots_eq.
    cbn [setDots addScores setPlayer1 setPlayer2 player1 p_addScore p_score].
    rewrite Hm in *.
    destruct (dotsUnder_NoDup (player1 m) (dots s) Hnd) as [H1 _].
    rewrite (H1 Hin). lia.
  - intros Hin. rewrite checkDots_eq.
    cbn [setDots addScores setPlayer1 setPlayer2 player2 p_addScore p_score].
    rewrite Hm in *.
    destruct (dotsUnder_NoDup (player2 m) (dots s) Hnd) as [H1 _].
    rewrite (H1 Hin). lia.
  - intros Hsame Hin. rewrite checkDots_eq. cbn [setDots dots].
    rewrite Hm in *.
    pose proof (filter_length (keepDot m) (dots s)) as HL.
    destruct (dotsUnder_NoDup (player1 m) (dots s) Hnd) as [H1 _].
    specialize (H1 Hin). unfold dotsUnder in H1.
    rewrite (filter_ext (fun x => negb (keepDot m x))
                        (fun d => onPlayer d (player1 m))) in HL.
    + lia.
    + intros d. unfold keepDot. rewrite negb_involutive.
      destruct (onPlayer d (player1 m)) eqn:E1; [reflexivity |].
      destruct (onPlayer d (player2 m)) eqn:E2; [| reflexivity].
      apply onPlayer_true in E2. rewrite <- Hsame in E2.
      apply onPlayer_true in E2. congruence.
Qed.

Lemma existsb_posEqb_In (c : Pos) (l : list Pos) :
  existsb (posEqb c) l = true -> In c l.
Proof.
  intros H. apply existsb_exists in H. destruct H as (x & Hin & Heq).
  apply posEqb_eq in Heq. now subst x.
Qed.

(** * Grid bounds *)

Lemma inGrid_iff (c : Pos) :
  inGrid c = true <-> 0 <= fst c <= 27 /\ 0 <= snd c <= 30.
Proof.
  unfold inGrid. rewrite !andb_true_iff, !Z.leb_le. tauto.
Qed.

Lemma movePlayer_inGrid (p : Player) :
  inGrid (playerPos p) = true -> inGrid (playerPos (movePlayer p)) = true.
Proof.
  intros Hp. rewrite movePlayer_eq.
  destruct (insideVertical (candidate p) && negb (isWall (candidate p))) eqn:E;
    [| exact Hp].
  apply andb_true_iff in E. destruct E as [Hv _].
  unfold insideVertical in Hv. apply andb_true_iff in Hv.
  rewrite !Z.leb_le in Hv.
  apply inGrid_iff. unfold playerPos, p_setPos; cbn [p_x p_y fst snd].
  split; [| lia].
  unfold candidate.
  destruct (stepDir (p_direction p) (p_x p) (p_y p)) as [nx ny]; cbn [fst].
  apply tunnel_range.
Qed.

Lemma commitGhost_inGrid (g : Ghost) (c : Pos) :
  ghostInGrid g -> inGrid (commitGhost g c) = true.
Proof.
  unfold commitGhost, ghostInGrid. intros Hg.
  destruct (inGrid (tunnel (fst c), snd c)) eqn:E; assumption.
Qed.

Lemma moveGhost_inGrid s env g i :
  ghostInGrid g -> ghostInGrid (moveGhost s env g i).
Proof.
  intros Hg. unfold ghostInGrid, moveGhost.
  rewrite stepGhost_pos. now apply commitGhost_inGrid.
Qed.

Lemma forEachIndexed_Forall {A : Type} (P : A -> Prop) (f : A -> nat -> A) :
  (forall a i, P a -> P (f a i)) ->
  forall l k, Forall P l -> Forall P (forEachIndexed f k l).
Proof.
  intros Hf. induction l as [| a l IH]; intros k Hl; cbn [forEachIndexed].
  - constructor.
  - inversion Hl; subst. constructor; [now apply Hf | now apply IH].
Qed.

Lemma forEachIndexed_length {A : Type} (f : A -> nat -> A) :
  forall l k, List.length (forEachIndexed f k l) = List.length l.
Proof.
  induction l as [| a l IH]; intros k; cbn; [reflexivity | now rewrite IH].
Qed.

Lemma map_Forall_pos (f : Ghost -> Ghost) (l : list Ghost) :
  (forall g, ghostPos (f g) = ghostPos g) ->
  Forall ghostInGrid l -> Forall ghostInGrid (map f l).
Proof.
  intros Hf Hl. apply Forall_map.
  eapply Forall_impl; [| exact Hl].
  intros g Hg. unfold ghostInGrid in *. now rewrite Hf.
Qed.

Lemma resetColor_pos (g : Ghost) : ghostPos (resetColor g) = ghostPos g.
Proof. unfold resetColor. break_ifs; try reflexivity.
  destruct (g_originalColor g); break_ifs; reflexivity. Qed.

Lemma turnBlue_pos (g : Ghost) : ghostPos (turnBlue g) = ghostPos g.
Proof. unfold turnBlue. break_ifs; reflexivity. Qed.

Lemma expireInvulnerability_pos now p :
  playerPos (expireInvulnerability now p) = playerPos p.
Proof. unfold expireInvulnerability. break_ifs; reflexivity. Qed.

Lemma updatePlayerDirection_pos p input :
  playerPos (updatePlayerDirection p input) = playerPos p.
Proof. unfold updatePlayerDirection. break_ifs; reflexivity. Qed.

Lemma GridInv_updateInvulnerability now s :
  GridInv s -> GridInv (updateInvulnerability now s).
Proof.
  unfold GridInv, updateInvulnerability.
  cbn [setPlayer1 setPlayer2 player1 player2 ghosts].
  rewrite !expireInvulnerability_pos. tauto.
Qed.

Lemma GridInv_updatePowerMode now s :
  GridInv s -> GridInv (updatePowerMode now s).
Proof.
  unfold updatePowerMode. intros H. break_ifs; try exact H.
  destruct H as (H1 & H2 & H3 & H4). unfold GridInv.
  cbn [setGhosts setPowerMode player1 player2 ghosts].
  repeat split; try assumption.
  - apply map_Forall_pos; [exact resetColor_pos | exact H3].
  - now rewrite length_map.
Qed.

Lemma GridInv_beforeCollisions env s :
  GridInv s -> GridInv (beforeCollisions env s).
Proof.
  intros H. unfold beforeCollisions.
  apply (GridInv_updateInvulnerability (now_invulnerability env)) in H.
  apply (GridInv_updatePowerMode (now_powerMode env)) in H.
  set (s1 := updatePowerMode _ _) in *.
  destruct H as (H1 & H2 & H3 & H4). unfold GridInv, moveGhosts.
  cbn [setGhosts setPlayer1 setPlayer2 player1 player2 ghosts].
  repeat split.
  - now apply movePlayer_inGrid.
  - now apply movePlayer_inGrid.
  - apply forEachIndexed_Forall; [| exact H3].
    intros g i Hg. now apply moveGhost_inGrid.
  - now rewrite forEachIndexed_length.
Qed.

Lemma GridInv_checkDots s : GridInv s -> GridInv (checkDots s).
Proof. rewrite checkDots_eq. intros H. exact H. Qed.

Lemma GridInv_collectPellet now s a :
  GridInv s -> GridInv (fst (collectPellet now s a)).
Proof.
  intros (H1 & H2 & H3 & H4). unfold collectPellet.
  destruct (onPlayer a (player1 s) || onPlayer a (player2 s));
    [| repeat split; assumption].
  cbn [fst]. unfold GridInv.
  destruct (onPlayer a (player1 s));
    cbn [setPlayer1 player2];
    destruct (onPlayer a (player2 s));
    cbn [setGhosts setPowerMode setPlayer1 setPlayer2 player1 player2 ghosts];
    (split; [assumption | split; [assumption | split;
     [apply map_Forall_pos; [exact turnBlue_pos | exact H3]
     | now rewrite length_map]]]).
Qed.

Lemma GridInv_checkPowerPellets now s :
  GridInv s -> GridInv (checkPowerPellets now s).
Proof.
  intros H. unfold checkPowerPellets.
  pose proof (filterSt_fst_invariant GridInv (collectPellet now)
                (GridInv_collectPellet now) (powerPellets s) s H) as H'.
  destruct (filterSt (collectPellet now) s (powerPellets s)) as [s' kept].
  exact H'.
Qed.

Lemma home_inGrid (i : nat) : (i < 4)%nat -> inGrid (homeX i, homeY i) = true.
Proof.
  intros Hi.
  destruct i as [| [| [| [| i]]]]; try reflexivity. lia.
Qed.

(** Where the collision callback can leave the players and the ghost. *)
Lemma ghostCollision_positions now s g i :
  let r := ghostCollision now s g i in
  (playerPos (player1 (fst r)) = playerPos (player1 s)
   \/ playerPos (player1 (fst r)) = (1, 1))
  /\ (playerPos (player2 (fst r)) = playerPos (player2 s)
      \/ playerPos (player2 (fst r)) = (26, 1))
  /\ (ghostPos (snd r) = ghostPos g
      \/ ghostPos (snd r) = (homeX i, homeY i)).
Proof.
  cbv zeta. unfold ghostCollision.
  destruct (ghostOn g (player1 s)); destruct (powerMode s) eqn:Hp;
    destruct (p_invulnerable (player1 s));
    cbn [negb setPlayer1 player2 powerMode]; rewrite ?Hp;
    destruct (p_invulnerable (player2 s)); cbn [negb];
    break_ifs;
    cbn [fst snd setPlayer1 setPlayer2 player1 player2 killPlayer playerPos
         p_x p_y p_addScore];
    rewrite ?eatGhost_pos; auto.
Qed.

Lemma forEachGhost_grid now :
  forall (l : list Ghost) (s : GameState) (k : nat),
    inGrid (playerPos (player1 s)) = true ->
    inGrid (playerPos (player2 s)) = true ->
    Forall ghostInGrid l ->
    (k + List.length l <= 4)%nat ->
    let r := forEachGhost (ghostCollision now) s k l in
    inGrid (playerPos (player1 (fst r))) = true
    /\ inGrid (playerPos (player2 (fst r))) = true
    /\ Forall ghostInGrid (snd r)
    /\ List.length (snd r) = List.length l.
Proof.
  induction l as [| g l IH]; intros s k H1 H2 Hl Hk; cbn [forEachGhost].
  - cbn. auto.
  - pose proof (ghostCollision_positions now s g k) as Hpos. cbv zeta in Hpos.
    destruct (ghostCollision now s g k) as [s1 g1]. cbn [fst snd] in Hpos.
    destruct Hpos as (Hp1 & Hp2 & Hg).
    inversion Hl as [| ? ? Hg0 Hl']; subst. cbn [List.length] in Hk.
    assert (H1' : inGrid (playerPos (player1 s1)) = true)
      by (destruct Hp1 as [-> | ->]; [exact H1 | reflexivity]).
    assert (H2' : inGrid (playerPos (player2 s1)) = true)
      by (destruct Hp2 as [-> | ->]; [exact H2 | reflexivity]).
    assert (Hg1 : ghostInGrid g1).
    { unfold ghostInGrid. destruct Hg as [-> | ->]; [exact Hg0 |].
      apply home_inGrid. lia. }
    specialize (IH s1 (S k) H1' H2' Hl' ltac:(lia)). cbv zeta in IH.
    destruct (forEachGhost (ghostCollision now) s1 (S k) l) as [s2 l2].
    cbn [fst snd] in *. destruct IH as (I1 & I2 & I3 & I4).
    repeat split; try assumption.
    + constructor; assumption.
    + cbn [List.length]. now rewrite I4.
Qed.

Lemma GridInv_checkGhostCollisions now s :
  GridInv s -> GridInv (checkGhostCollisions now s).
Proof.
  intros (H1 & H2 & H3 & H4). unfold checkGhostCollisions.
  pose proof (forEachGhost_grid now (ghosts s) s 0 H1 H2 H3 ltac:(lia)) as H.
  cbv zeta in H.
  destruct (forEachGhost (ghostCollision now) s 0 (ghosts s)) as [s' gl].
  cbn [fst snd] in H. destruct H as (I1 & I2 & I3 & I4).
  unfold GridInv. cbn [setGhosts player1 player2 ghosts].
  repeat split; try assumption. now rewrite I4.
Qed.

Lemma GridInv_checkGameOver s : GridInv s -> GridInv (checkGameOver s).
Proof. intros H. unfold checkGameOver. break_ifs; exact H. Qed.

Lemma GridInv_gameTick env s : GridInv s -> GridInv (gameTick env s).
Proof.
  intros H. rewrite gameTick_phases. unfold checkCollisions.
  apply GridInv_checkGameOver, GridInv_checkGhostCollisions,
    GridInv_checkPowerPellets, GridInv_checkDots, GridInv_beforeCollisions, H.
Qed.

Lemma GridInv_start n1 n2 :
  GridInv (setPlayer2 (p_setName n2 (player2 resetGameState))
             (setPlayer1 (p_setName n1 (player1 resetGameState)) resetGameState)).
Proof.
  unfold GridInv; cbn [setPlayer1 setPlayer2 player1 player2 ghosts resetGameState].
  repeat split; try reflexivity.
  repeat constructor.
Qed.

Lemma GridInv_handle sv e :
  GridInv (gameState sv) -> GridInv (gameState (handle sv e)).
Proof.
  intros H.
  assert (Hin : forall input,
             GridInv (gameState (mapPlayer1 (fun p => updatePlayerDirection p input) sv))
             /\ GridInv (gameState (mapPlayer2 (fun p => updatePlayerDirection p input) sv))).
  { intros input. destruct H as (H1 & H2 & H3 & H4).
    unfold GridInv, mapPlayer1, mapPlayer2.
    cbn [gameState setPlayer1 setPlayer2 player1 player2 ghosts].
    rewrite !updatePlayerDirection_pos. tauto. }
  destruct e as [env | player input | input | d | d | n1 n2].
  - cbn [handle]. unfold onInterval.
    destruct (gameLoopInterval sv); [| exact H].
    cbn [gameState]. now apply GridInv_gameTick.
  - destruct (handle_input_cases sv (PlayerInput player input) I)
      as [-> | [[i ->] | [i ->]]]; [exact H | apply Hin | apply Hin].
  - destruct (handle_input_cases sv (ArduinoInput input) I)
      as [-> | [[i ->] | [i ->]]]; [exact H | apply Hin | apply Hin].
  - destruct (handle_input_cases sv (ArduinoManualPress d) I)
      as [-> | [[i ->] | [i ->]]]; [exact H | apply Hin | apply Hin].
  - destruct (handle_input_cases sv (ApiArduinoPress d) I)
      as [-> | [[i ->] | [i ->]]]; [exact H | apply Hin | apply Hin].
  - cbn [handle]. unfold onStartGame. cbn [gameState]. apply GridInv_start.
Qed.

Lemma reachable_GridInv (events : list Event) :
  GridInv (gameState (run boot events)).
Proof.
  apply (run_invariant (fun sv => GridInv (gameState sv))).
  - unfold GridInv; cbn. repeat split; try reflexivity. repeat constructor.
  - intros sv e. apply GridInv_handle.
Qed.

(** C6. In every reachable session both players and all four ghosts stand
    on cells with 0 <= x <= 27 and 0 <= y <= 30.  The wraparound sends an x
    below 0 to 27 and an x above 27 to 0 and leaves the others alone; there
    is none for y: a player or a ghost whose attempted cell has y outside
    0..30 keeps its cell. *)
Theorem reachable_positions_in_grid :
  (forall (events : list Event),
      let s := gameState (run boot events) in
      (0 <= p_x (player1 s) <= 27 /\ 0 <= p_y (player1 s) <= 30)
      /\ (0 <= p_x (player2 s) <= 27 /\ 0 <= p_y (player2 s) <= 30)
      /\ List.length (ghosts s) = 4%nat
      /\ (forall g, In g (ghosts s) ->
                    0 <= g_x g <= 27 /\ 0 <= g_y g <= 30))
  /\ (forall x, (x < 0 -> tunnel x = 27) /\ (x > 27 -> tunnel x = 0)
                /\ (0 <= x <= 27 -> tunnel x = x))
  /\ (forall p, ~ 0 <= snd (candidate p) <= 30 -> movePlayer p = p)
  /\ (forall env g i target,
         ~ 0 <= snd (fst (attemptMove env g i target)) <= 30 ->
         ghostPos (stepGhost env g i target) = ghostPos g).
Proof.
  split; [| split; [exact tunnel_spec | split]].
  - intros events s.
    destruct (reachable_GridInv events) as (H1 & H2 & H3 & H4). fold s in H1, H2, H3, H4.
    apply inGrid_iff in H1. apply inGrid_iff in H2.
    split; [exact H1 | split; [exact H2 | split; [exact H4 |]]].
    intros g Hg. rewrite Forall_forall in H3.
    specialize (H3 g Hg). apply inGrid_iff in H3. exact H3.
  - intros p Hout. rewrite movePlayer_eq.
    destruct (insideVertical (candidate p)) eqn:E; [| reflexivity].
    unfold insideVertical in E. apply andb_true_iff in E.
    rewrite !Z.leb_le in E. lia.
  - intros env g i target Hout. rewrite stepGhost_pos. unfold commitGhost.
    destruct (attemptMove env g i target) as [[nx ny] d]; cbn [fst snd] in *.
    destruct (inGrid (tunnel nx, ny)) eqn:E; [| reflexivity].
    apply inGrid_iff in E. cbn [fst snd] in E. lia.
Qed.

(** * After the game is over *)








(** * Composition of direction inputs *)

Lemma updatePlayerDirection_overwrite (p : Player) (i1 i2 : Input) :
  hasFlag i2 = true ->
  updatePlayerDirection (updatePlayerDirection p i1) i2
  = updatePlayerDirection p i2.
Proof.
  unfold hasFlag, updatePlayerDirection.
  destruct i2 as [[|] [|] [|] [|]]; cbn [i_up i_down i_left i_right orb];
    intros H; try discriminate H; break_ifs; reflexivity.
Qed.

Lemma mapPlayer1_compose (f g : Player -> Player) (sv : Server) :
  mapPlayer1 f (mapPlayer1 g sv) = mapPlayer1 (fun p => f (g p)) sv.
Proof. reflexivity. Qed.

Lemma mapPlayer2_compose (f g : Player -> Player) (sv : Server) :
  mapPlayer2 f (mapPlayer2 g sv) = mapPlayer2 (fun p => f (g p)) sv.
Proof. reflexivity. Qed.

Lemma mapPlayer_commute (f g : Player -> Player) (sv : Server) :
  mapPlayer1 f (mapPlayer2 g sv) = mapPlayer2 g (mapPlayer1 f sv).
Proof. reflexivity. Qed.

(** X1. Direction inputs are not queued: of two inputs routed to the same
    player the later one wins outright whenever it sets a flag, so the
    earlier one leaves no trace; inputs for different players commute. *)
Theorem direction_inputs_last_write_wins :
  forall (sv : Server) (i1 i2 : Input),
    (hasFlag i2 = true ->
       onArduinoInput i2 (onArduinoInput i1 sv) = onArduinoInput i2 sv
       /\ (forall player,
              onPlayerInput player i2 (onPlayerInput player i1 sv)
              = onPlayerInput player i2 sv)
       /\ onPlayerInput 1 i2 (onArduinoInput i1 sv) = onPlayerInput 1 i2 sv)
    /\ onPlayerInput 1 i1 (onPlayerInput 2 i2 sv)
       = onPlayerInput 2 i2 (onPlayerInput 1 i1 sv).
Proof.
  intros sv i1 i2. split; [intros Hf; split; [| split] |].
  - unfold onArduinoInput. rewrite mapPlayer1_compose.
    unfold mapPlayer1. now rewrite updatePlayerDirection_overwrite.
  - intros player. unfold onPlayerInput.
    destruct (player =? 1); [| destruct (player =? 2); [| reflexivity]].
    + rewrite mapPlayer1_compose.
      unfold mapPlayer1. now rewrite updatePlayerDirection_overwrite.
    + rewrite mapPlayer2_compose.
      unfold mapPlayer2. now rewrite updatePlayerDirection_overwrite.
  - unfold onPlayerInput, onArduinoInput; cbn [Z.eqb Pos.eqb].
    rewrite mapPlayer1_compose.
    unfold mapPlayer1. now rewrite updatePlayerDirection_overwrite.
  - reflexivity.
Qed.

Lemma direction_inputs_last_write_wins_witness :
  onArduinoInput (mkInput false true false false)
    (onArduinoInput (mkInput true false false false) boot)
  = onArduinoInput (mkInput false true false false) boot.
Proof.
  destruct (direction_inputs_last_write_wins boot
              (mkInput true false false false)
              (mkInput false true false false)) as [H _].
  apply H. reflexivity.
Defined.

(** * The terminal conditions *)

Lemma checkGameOver_untouched (s : GameState) :
  collectiblesGone s = false -> someoneDead s = false ->
  checkGameOver s = s.
Proof.
  unfold collectiblesGone, someoneDead, checkGameOver. intros Hc Hd.
  rewrite Hc. apply orb_false_iff in Hd. destruct Hd as [H1 H2].
  rewrite H1, H2. cbn [andb]. rewrite H1, H2. reflexivity.
Qed.

Lemma checkGameOver_gameOver (s : GameState) :
  gameOver (checkGameOver s)
  = gameOver s || collectiblesGone s || someoneDead s.
Proof.
  unfold collectiblesGone, someoneDead, checkGameOver.
  destruct s as [p1 p2 ds pp gl go w pm pt];
    cbn [player1 player2 dots powerPellets gameOver].
  destruct ((Z.of_nat (List.length ds) =? 0) && (Z.of_nat (List.length pp) =? 0));
    cbn [setOutcome player1 player2 gameOver];
    destruct (p_lives p1 <=? 0) eqn:E1, (p_lives p2 <=? 0) eqn:E2;
    cbn [andb orb setOutcome player1 player2 gameOver];
    rewrite ?E1, ?E2; cbn [andb orb];
    destruct (p_lives p1 >? 0) eqn:E3, (p_lives p2 >? 0) eqn:E4;
    cbn [setOutcome gameOver]; rewrite ?orb_true_r; try reflexivity; try lia;
    destruct go; reflexivity.
Qed.

(** X2. The evaluator ends the game exactly when it was over already, when
    both collectible arrays are empty, or when some player has no lives
    left; it never puts a finished game back in play, and when none of the
    conditions holds it returns the session untouched. *)
Theorem checkGameOver_terminal_conditions :
  forall s : GameState,
    gameOver (checkGameOver s)
    = gameOver s || collectiblesGone s || someoneDead s
    /\ (gameOver s = true -> gameOver (checkGameOver s) = true)
    /\ (collectiblesGone s = false -> someoneDead s = false ->
        checkGameOver s = s).
Proof.
  intros s. split; [apply checkGameOver_gameOver | split].
  - intros H. rewrite checkGameOver_gameOver, H. reflexivity.
  - apply checkGameOver_untouched.
Qed.

Lemma checkGameOver_terminal_conditions_witness :
  checkGameOver resetGameState = resetGameState.
Proof.
  destruct (checkGameOver_terminal_conditions resetGameState) as (_ & _ & H).
  apply H; vm_compute; reflexivity.
Defined.

(** X3. When the game ends because the collectibles are gone or because
    both players are dead -- and it is not the case that exactly one player
    is dead -- the winner is decided by score alone: the higher score wins
    under its display name, and equal scores leave no winner, erasing any
    winner recorded before. *)
Theorem checkGameOver_winner_by_score :
  forall s : GameState,
    collectiblesGone s = true
    \/ (p_lives (player1 s) <= 0 /\ p_lives (player2 s) <= 0) ->
    ~ exactlyOneDead s ->
    gameOver (checkGameOver s) = true
    /\ (p_score (player1 s) > p_score (player2 s) ->
        winner (checkGameOver s) = Some (displayName1 s))
    /\ (p_score (player2 s) > p_score (player1 s) ->
        winner (checkGameOver s) = Some (displayName2 s))
    /\ (p_score (player1 s) = p_score (player2 s) ->
        winner (checkGameOver s) = None).
Proof.
  intros s Hend Hnot.
  assert (Hw : gameOver (checkGameOver s) = true
               /\ winner (checkGameOver s) = winnerByScore s).
  { unfold exactlyOneDead in Hnot. unfold checkGameOver, collectiblesGone in *.
    destruct s as [p1 p2 ds pp gl go w pm pt];
      cbn [player1 player2 dots powerPellets gameOver winner] in *.
    destruct ((Z.of_nat (List.length ds) =? 0) && (Z.of_nat (List.length pp) =? 0))
      eqn:Ec;
      cbn [setOutcome player1 player2 gameOver winner];
      destruct (p_lives p1 <=? 0) eqn:E1, (p_lives p2 <=? 0) eqn:E2;
      cbn [andb setOutcome player1 player2 gameOver winner];
      rewrite ?E1, ?E2; cbn [andb];
      destruct (p_lives p1 >? 0) eqn:E3, (p_lives p2 >? 0) eqn:E4;
      cbn [setOutcome gameOver winner];
      try (split; reflexivity); try lia;
      try (exfalso; apply Hnot; lia);
      destruct Hend as [Hd | Hd]; try discriminate Hd; lia. }
  destruct Hw as [Hg Hw]. split; [exact Hg |].
  rewrite Hw. unfold winnerByScore.
  repeat split; intros Hs.
  - destruct (p_score (player1 s) >? p_score (player2 s)) eqn:E; [reflexivity | lia].
  - destruct (p_score (player1 s) >? p_score (player2 s)) eqn:E; [lia |].
    destruct (p_score (player2 s) >? p_score (player1 s)) eqn:E'; [reflexivity | lia].
  - destruct (p_score (player1 s) >? p_score (player2 s)) eqn:E; [lia |].
    destruct (p_score (player2 s) >? p_score (player1 s)) eqn:E'; [lia | reflexivity].
Qed.

Lemma checkGameOver_winner_by_score_witness :
  let s := mkGameState (mkPlayer 3 1 Right 100 2 false 0 (Some "Ana"%string))
                       (mkPlayer 26 1 Left 80 1 false 0 None)
                       [] [] startGhosts false (Some "old"%string) false 0 in
  winner (checkGameOver s) = Some "Ana"%string.
Proof.
  intros s.
  destruct (checkGameOver_winner_by_score s) as (_ & H & _).
  - left. reflexivity.
  - unfold exactlyOneDead. simpl. lia.
  - apply H. simpl. lia.
Defined.

(** * The power-pellet pass *)

Lemma turnBlue_idempotent (g : Ghost) : turnBlue (turnBlue g) = turnBlue g.
Proof.
  unfold turnBlue. destruct (isBlue g) eqn:E; cbn [negb].
  - now rewrite E.
  - reflexivity.
Qed.

Lemma turnBlue_isBlue (g : Ghost) : isBlue (turnBlue g) = true.
Proof.
  unfold turnBlue. destruct (isBlue g) eqn:E; cbn [negb]; [exact E | reflexivity].
Qed.

Lemma map_turnBlue_idempotent (l : list Ghost) :
  map turnBlue (map turnBlue l) = map turnBlue l.
Proof.
  rewrite map_map. apply map_ext. exact turnBlue_idempotent.
Qed.

Lemma activatePower_absorb (now a b c d : Z) (s : GameState) :
  activatePower now (addScores c d (activatePower now (addScores a b s)))
  = activatePower now (addScores (a + c) (b + d) s).
Proof.
  unfold activatePower, addScores.
  cbn [setGhosts setPowerMode setPlayer1 setPlayer2 player1 player2 ghosts
       dots powerPellets gameOver winner].
  rewrite map_turnBlue_idempotent, !p_addScore_add. reflexivity.
Qed.

Lemma collectPellet_eq (now : Z) (s : GameState) (d : Pos) :
  collectPellet now s d
  = if keepDot s d then (s, true)
    else (activatePower now
            (addScores (if onPlayer d (player1 s) then 50 else 0)
                       (if onPlayer d (player2 s) then 50 else 0) s),
          false).
Proof.
  unfold collectPellet, keepDot, activatePower.
  destruct (onPlayer d (player1 s)) eqn:E1, (onPlayer d (player2 s)) eqn:E2;
    cbn [orb negb setPlayer1 player1 player2]; rewrite ?E2;
    try reflexivity.
  - unfold addScores. now rewrite p_addScore_0.
  - unfold addScores. rewrite p_addScore_0.
    cbn [setPlayer1 player2]. now rewrite setPlayer1_same.
Qed.

Lemma pelletEaten_false (s : GameState) (l : list Pos) :
  pelletEaten s l = false ->
  dotsUnder (player1 s) l = 0 /\ dotsUnder (player2 s) l = 0
  /\ filter (keepDot s) l = l.
Proof.
  unfold pelletEaten, dotsUnder, keepDot.
  induction l as [| d l IH]; cbn [existsb filter]; intros H.
  - repeat split; reflexivity.
  - apply orb_false_iff in H. destruct H as [Hd Hl].
    rewrite Hd. cbn [negb]. apply orb_false_iff in Hd. destruct Hd as [-> ->].
    destruct (IH Hl) as (I1 & I2 & I3).
    repeat split; [exact I1 | exact I2 | now rewrite I3].
Qed.

Lemma filterSt_collectPellet (now : Z) :
  forall (l : list Pos) (s : GameState),
    filterSt (collectPellet now) s l
    = (if pelletEaten s l
       then activatePower now
              (addScores (50 * dotsUnder (player1 s) l)
                         (50 * dotsUnder (player2 s) l) s)
       else s,
       filter (keepDot s) l).
Proof.
  induction l as [| d l IH]; intros s.
  - reflexivity.
  - cbn [filterSt]. rewrite collectPellet_eq.
    destruct (keepDot s d) eqn:Ek.
    + rewrite IH. cbn [filter]. rewrite Ek.
      unfold keepDot in Ek. apply negb_true_iff in Ek.
      unfold pelletEaten; cbn [existsb]. rewrite Ek; cbn [orb].
      apply orb_false_iff in Ek. destruct Ek as [E1 E2].
      unfold dotsUnder; cbn [filter]. rewrite E1, E2. reflexivity.
    + rewrite IH. cbn [filter]. rewrite Ek.
      set (a := if onPlayer d (player1 s) then 50 else 0).
      set (b := if onPlayer d (player2 s) then 50 else 0).
      change (keepDot (activatePower now (addScores a b s))) with (keepDot s).
      change (pelletEaten (activatePower now (addScores a b s)) l)
        with (pelletEaten s l).
      change (dotsUnder (player1 (activatePower now (addScores a b s))) l)
        with (dotsUnder (player1 s) l).
      change (dotsUnder (player2 (activatePower now (addScores a b s))) l)
        with (dotsUnder (player2 s) l).
      assert (Hhead : pelletEaten s (d :: l) = true).
      { unfold pelletEaten; cbn [existsb]. unfold keepDot in Ek.
        apply negb_false_iff in Ek. now rewrite Ek. }
      rewrite Hhead. f_equal.
      assert (Ha : 50 * dotsUnder (player1 s) (d :: l)
                   = a + 50 * dotsUnder (player1 s) l).
      { unfold dotsUnder, a; cbn [filter].
        destruct (onPlayer d (player1 s)); cbn [List.length]; lia. }
      assert (Hb : 50 * dotsUnder (player2 s) (d :: l)
                   = b + 50 * dotsUnder (player2 s) l).
      { unfold dotsUnder, b; cbn [filter].
        destruct (onPlayer d (player2 s)); cbn [List.length]; lia. }
      rewrite Ha, Hb.
      destruct (pelletEaten s l) eqn:El.
      * apply activatePower_absorb.
      * destruct (pelletEaten_false s l El) as (-> & -> & _).
        now rewrite !Z.mul_0_r, !Z.add_0_r.
Qed.

Lemma checkPowerPellets_eq (now : Z) (s : GameState) :
  checkPowerPellets now s
  = setPowerPellets (filter (keepDot s) (powerPellets s))
      (if pelletEaten s (powerPellets s)
       then activatePower now
              (addScores (50 * dotsUnder (player1 s) (powerPellets s))
                         (50 * dotsUnder (player2 s) (powerPellets s)) s)
       else s).
Proof. unfold checkPowerPellets. now rewrite filterSt_collectPellet. Qed.

(** X4. The power-pellet pass.  When no player stands on a pellet the pass
    returns the session untouched.  When one does, power mode is on
    afterwards with its timestamp set to the present reading of the clock
    -- also when it was on already, so a second pellet restarts the ten
    seconds --, every ghost is blue, every ghost that was not blue
    remembers the colour it had, each player gets 50 per pellet under it,
    and exactly the pellets under a player are gone. *)
Theorem checkPowerPellets_activates_power_mode :
  forall (now : Z) (s : GameState),
    let s' := checkPowerPellets now s in
    (pelletEaten s (powerPellets s) = false -> s' = s)
    /\ (pelletEaten s (powerPellets s) = true ->
        powerMode s' = true
        /\ powerModeTime s' = now
        /\ Forall (fun g => isBlue g = true) (ghosts s')
        /\ (forall i g, nth_error (ghosts s) i = Some g -> isBlue g = false ->
              nth_error (ghosts s') i
              = Some (g_setColors "blue" (Some (g_color g)) g)))
    /\ p_score (player1 s')
       = p_score (player1 s) + 50 * dotsUnder (player1 s) (powerPellets s)
    /\ p_score (player2 s')
       = p_score (player2 s) + 50 * dotsUnder (player2 s) (powerPellets s)
    /\ (forall d, In d (powerPellets s') <->
                  In d (powerPellets s) /\ d <> playerPos (player1 s)
                  /\ d <> playerPos (player2 s)).
Proof.
  intros now s s'. subst s'. rewrite checkPowerPellets_eq.
  split; [| split; [| split; [| split]]].
  - intros He. rewrite He.
    destruct (pelletEaten_false s _ He) as (_ & _ & ->).
    destruct s; reflexivity.
  - intros He. rewrite He.
    cbn [setPowerPellets activatePower setGhosts setPowerMode powerMode
         powerModeTime ghosts addScores setPlayer1 setPlayer2].
    split; [reflexivity | split; [reflexivity | split]].
    + apply Forall_map. apply Forall_forall. intros g _. apply turnBlue_isBlue.
    + intros i g Hi Hb. rewrite nth_error_map, Hi. cbn [option_map].
      unfold turnBlue. rewrite Hb. reflexivity.
  - destruct (pelletEaten s (powerPellets s)) eqn:He.
    + reflexivity.
    + destruct (pelletEaten_false s _ He) as (-> & _ & _).
      cbn [setPowerPellets player1]. lia.
  - destruct (pelletEaten s (powerPellets s)) eqn:He.
    + reflexivity.
    + destruct (pelletEaten_false s _ He) as (_ & -> & _).
      cbn [setPowerPellets player2]. lia.
  - intros d.
    assert (Hpp : forall st, powerPellets (setPowerPellets (filter (keepDot s) (powerPellets s)) st)
                             = filter (keepDot s) (powerPellets s)) by reflexivity.
    rewrite Hpp, filter_In. unfold keepDot.
    rewrite negb_true_iff, orb_false_iff.
    split; intros [Hin [H1 H2]]; (split; [exact Hin |]).
    + split; intros Heq; apply onPlayer_true in Heq; congruence.
    + split.
      * destruct (onPlayer d (player1 s)) eqn:E; [| reflexivity].
        apply onPlayer_true in E. contradiction.
      * destruct (onPlayer d (player2 s)) eqn:E; [| reflexivity].
        apply onPlayer_true in E. contradiction.
Qed.

(** * The ghost pass, mode by mode *)

Lemma ghostCollision_normal (now : Z) (s : GameState) (g : Ghost) (i : nat) :
  powerMode s = false ->
  ghostCollision now s g i = (resolveHits now [g] s, g).
Proof.
  intros Hpm. unfold ghostCollision, resolveHits, isHit; cbn [existsb].
  rewrite Hpm, !orb_false_r.
  destruct (ghostOn g (player1 s)), (p_invulnerable (player1 s));
    cbn [negb andb setPlayer1 player2 powerMode]; rewrite ?Hpm;
    destruct (ghostOn g (player2 s)), (p_invulnerable (player2 s));
    cbn [negb andb]; rewrite ?setPlayer1_same, ?setPlayer2_same;
    try reflexivity;
    destruct s; reflexivity.
Qed.

Lemma isHit_cons_after_hit (now sx sy : Z) (sd : Direction) (p : Player)
    (g : Ghost) (l : list Ghost) :
  (if isHit (if isHit p [g] then killPlayer now sx sy sd p else p) l
   then killPlayer now sx sy sd
          (if isHit p [g] then killPlayer now sx sy sd p else p)
   else if isHit p [g] then killPlayer now sx sy sd p else p)
  = if isHit p (g :: l) then killPlayer now sx sy sd p else p.
Proof.
  unfold isHit; cbn [existsb]. rewrite orb_false_r.
  destruct (p_invulnerable p) eqn:Ei; cbn [negb andb].
  - rewrite Ei. reflexivity.
  - destruct (ghostOn g p) eqn:Eg; cbn [orb killPlayer p_invulnerable negb andb].
    + reflexivity.
    + rewrite Ei. reflexivity.
Qed.

Lemma forEachGhost_normal (now : Z) :
  forall (l : list Ghost) (s : GameState) (k : nat),
    powerMode s = false ->
    forEachGhost (ghostCollision now) s k l = (resolveHits now l s, l).
Proof.
  induction l as [| g l IH]; intros s k Hpm.
  - cbn [forEachGhost]. unfold resolveHits, isHit; cbn [existsb].
    rewrite !andb_false_r. now rewrite setPlayer1_same, setPlayer2_same.
  - cbn [forEachGhost]. rewrite (ghostCollision_normal now s g k Hpm).
    rewrite IH by (destruct s; exact Hpm).
    f_equal. unfold resolveHits at 1.
    change (player1 (resolveHits now [g] s))
      with (if isHit (player1 s) [g]
            then killPlayer now 1 1 Right (player1 s) else player1 s).
    change (player2 (resolveHits now [g] s))
      with (if isHit (player2 s) [g]
            then killPlayer now 26 1 Left (player2 s) else player2 s).
    rewrite !isHit_cons_after_hit.
    unfold resolveHits. destruct s; reflexivity.
Qed.

Lemma checkGhostCollisions_normal (now : Z) (s : GameState) :
  powerMode s = false ->
  checkGhostCollisions now s = resolveHits now (ghosts s) s.
Proof.
  intros Hpm. unfold checkGhostCollisions.
  rewrite (forEachGhost_normal now (ghosts s) s 0 Hpm).
  unfold resolveHits. destruct s; reflexivity.
Qed.

(** X5. The ghost pass outside power mode.  A player is hit exactly when it
    is not invulnerable and some ghost of the array stands on its cell; a
    hit player loses one life -- one, however many ghosts stand there --,
    becomes invulnerable from the present clock reading, and is put back on
    its start cell facing its start direction, score and name kept; a
    player that is not hit, the ghosts and everything else stay as they
    were. *)
Theorem ghost_pass_normal_mode :
  forall (now : Z) (s : GameState),
    powerMode s = false ->
    let s' := checkGhostCollisions now s in
    s' = setPlayer2 (player2 s') (setPlayer1 (player1 s') s)
    /\ (isHit (player1 s) (ghosts s) = true ->
        player1 s' = mkPlayer 1 1 Right (p_score (player1 s))
                       (p_lives (player1 s) - 1) true now (p_name (player1 s)))
    /\ (isHit (player1 s) (ghosts s) = false -> player1 s' = player1 s)
    /\ (isHit (player2 s) (ghosts s) = true ->
        player2 s' = mkPlayer 26 1 Left (p_score (player2 s))
                       (p_lives (player2 s) - 1) true now (p_name (player2 s)))
    /\ (isHit (player2 s) (ghosts s) = false -> player2 s' = player2 s).
Proof.
  intros now s Hpm s'. subst s'.
  rewrite (checkGhostCollisions_normal now s Hpm). unfold resolveHits.
  cbn [setPlayer1 setPlayer2 player1 player2].
  split; [destruct s; reflexivity |].
  repeat split; intros H; rewrite H; reflexivity.
Qed.

Lemma ghost_pass_normal_mode_witness :
  let s := mkGameState (mkPlayer 13 14 Up 30 2 false 0 None)
                       (mkPlayer 14 14 Left 0 5 true 900 None)
                       [] [] startGhosts false None false 0 in
  p_lives (player1 (checkGhostCollisions 1000 s)) = 1
  /\ player2 (checkGhostCollisions 1000 s) = player2 s.
Proof.
  intros s.
  destruct (ghost_pass_normal_mode 1000 s eq_refl) as (_ & H1 & _ & _ & H2).
  split.
  - rewrite H1; reflexivity.
  - apply H2. reflexivity.
Defined.

Lemma ghostCollision_power_eq (now : Z) (s : GameState) (g : Ghost) (i : nat) :
  powerMode s = true ->
  ghostCollision now s g i
  = (addScores (if ghostOn g (player1 s) then 200 else 0)
               (if eatenBy2 s g i then 200 else 0) s,
     afterPlayers s g i).
Proof.
  intros Hpm. unfold ghostCollision, afterPlayers, eatenBy2, afterPlayer1.
  rewrite Hpm.
  destruct (ghostOn g (player1 s)) eqn:E1;
    cbn [setPlayer1 player2 powerMode]; rewrite ?Hpm.
  - destruct (ghostOn (eatGhost i g) (player2 s)) eqn:E2.
    + reflexivity.
    + unfold addScores. now rewrite p_addScore_0.
  - destruct (ghostOn g (player2 s)) eqn:E2.
    + unfold addScores. rewrite p_addScore_0. cbn [setPlayer1 player2].
      now rewrite setPlayer1_same.
    + now rewrite addScores_0.
Qed.

Lemma forEachGhost_power_eq (now : Z) :
  forall (l : list Ghost) (s : GameState) (k : nat),
    powerMode s = true ->
    forEachGhost (ghostCollision now) s k l
    = (addScores (200 * countGhosts (fun g _ => ghostOn g (player1 s)) k l)
                 (200 * countGhosts (eatenBy2 s) k l) s,
       forEachIndexed (afterPlayers s) k l).
Proof.
  induction l as [| g l IH]; intros s k Hpm.
  - cbn. now rewrite addScores_0.
  - cbn [forEachGhost forEachIndexed countGhosts].
    rewrite (ghostCollision_power_eq now s g k Hpm).
    set (a := if ghostOn g (player1 s) then 200 else 0).
    set (b := if eatenBy2 s g k then 200 else 0).
    rewrite IH by exact Hpm.
    change (fun (g0 : Ghost) (_ : nat) => ghostOn g0 (player1 (addScores a b s)))
      with (fun (g0 : Ghost) (_ : nat) => ghostOn g0 (player1 s)).
    change (eatenBy2 (addScores a b s)) with (eatenBy2 s).
    change (afterPlayers (addScores a b s)) with (afterPlayers s).
    rewrite addScores_add. f_equal. f_equal.
    + subst a. destruct (ghostOn g (player1 s)); lia.
    + subst b. destruct (eatenBy2 s g k); lia.
Qed.

Lemma countGhosts_nonneg (f : Ghost -> nat -> bool) :
  forall (l : list Ghost) (k : nat), 0 <= countGhosts f k l.
Proof.
  induction l as [| g l IH]; intros k; cbn [countGhosts]; [lia |].
  specialize (IH (S k)). destruct (f g k); lia.
Qed.

Lemma checkGhostCollisions_power (now : Z) (s : GameState) :
  powerMode s = true ->
  checkGhostCollisions now s
  = setGhosts (forEachIndexed (afterPlayers s) 0 (ghosts s))
      (addScores (200 * countGhosts (fun g _ => ghostOn g (player1 s)) 0 (ghosts s))
                 (200 * countGhosts (eatenBy2 s) 0 (ghosts s)) s).
Proof.
  intros Hpm. unfold checkGhostCollisions.
  now rewrite (forEachGhost_power_eq now (ghosts s) s 0 Hpm).
Qed.

(** X6. The ghost pass in power mode.  No player is hurt: lives,
    invulnerability, cell, facing and name of both players are what they
    were.  Player 1 gets 200 for every ghost standing on its cell; player 2
    gets 200 for every ghost that, after player 1's check, stands on player
    2's cell -- which includes a ghost eaten by player 1 whose home cell is
    the cell of player 2.  Nothing but the scores and the ghosts changes. *)
Theorem ghost_pass_power_mode :
  forall (now : Z) (s : GameState),
    powerMode s = true ->
    let s' := checkGhostCollisions now s in
    let n1 := countGhosts (fun g _ => ghostOn g (player1 s)) 0 (ghosts s) in
    let n2 := countGhosts (eatenBy2 s) 0 (ghosts s) in
    0 <= n1 /\ 0 <= n2
    /\ player1 s' = p_addScore (200 * n1) (player1 s)
    /\ player2 s' = p_addScore (200 * n2) (player2 s)
    /\ p_lives (player1 s') = p_lives (player1 s)
    /\ p_lives (player2 s') = p_lives (player2 s)
    /\ s' = setGhosts (ghosts s') (setPlayer2 (player2 s') (setPlayer1 (player1 s') s))
    /\ List.length (ghosts s') = List.length (ghosts s).
Proof.
  intros now s Hpm s' n1 n2. subst s' n1 n2.
  rewrite (checkGhostCollisions_power now s Hpm).
  cbn [setGhosts addScores setPlayer1 setPlayer2 player1 player2 ghosts].
  split; [apply countGhosts_nonneg | split; [apply countGhosts_nonneg |]].
  split; [reflexivity | split; [reflexivity |]].
  split; [reflexivity | split; [reflexivity |]].
  split; [destruct s; reflexivity | apply forEachIndexed_length].
Qed.

(** Player 1 on the home cell of the second ghost, player 2 on the home
    cell of the first; both ghosts are eaten by the player on their cell. *)
Lemma ghost_pass_power_mode_witness :
  let s := mkGameState (mkPlayer 14 14 Up 0 1 false 0 None)
                       (mkPlayer 13 14 Left 0 1 false 0 None)
                       [] [] startGhosts false None true 0 in
  p_score (player1 (checkGhostCollisions 5 s)) = 200
  /\ p_score (player2 (checkGhostCollisions 5 s)) = 200
  /\ p_lives (player1 (checkGhostCollisions 5 s)) = 1.
Proof.
  intros s.
  destruct (ghost_pass_power_mode 5 s eq_refl) as (_ & _ & H1 & H2 & _).
  rewrite H1, H2. repeat split; reflexivity.
Defined.

Lemma checkPowerPellets_activates_power_mode_witness :
  let s := mkGameState (mkPlayer 1 3 Down 0 5 false 0 None) (startPlayer2 None)
                       [] [(1, 3); (26, 3)] startGhosts false None true 2000 in
  powerModeTime (checkPowerPellets 9000 s) = 9000
  /\ powerPellets (checkPowerPellets 9000 s) = [(26, 3)].
Proof.
  intros s.
  destruct (checkPowerPellets_activates_power_mode 9000 s) as (_ & H & _).
  destruct (H eq_refl) as (_ & Ht & _).
  split; [exact Ht | reflexivity].
Defined.

(** * Lives and scores through a tick *)

Lemma gameTick_ghost_pass (env : TickEnv) (s : GameState) :
  gameTick env s
  = checkGameOver (checkGhostCollisions (now_collisions env) (beforeGhostPass env s)).
Proof. reflexivity. Qed.

Lemma player1_updatePowerMode now s : player1 (updatePowerMode now s) = player1 s.
Proof. unfold updatePowerMode. break_ifs; reflexivity. Qed.

Lemma player2_updatePowerMode now s : player2 (updatePowerMode now s) = player2 s.
Proof. unfold updatePowerMode. break_ifs; reflexivity. Qed.

Lemma player1_beforeCollisions env s :
  player1 (beforeCollisions env s)
  = movePlayer (expireInvulnerability (now_invulnerability env) (player1 s)).
Proof.
  unfold beforeCollisions, moveGhosts.
  cbn [setGhosts setPlayer1 setPlayer2 player1].
  rewrite player1_updatePowerMode. reflexivity.
Qed.

Lemma player2_beforeCollisions env s :
  player2 (beforeCollisions env s)
  = movePlayer (expireInvulnerability (now_invulnerability env) (player2 s)).
Proof.
  unfold beforeCollisions, moveGhosts.
  cbn [setGhosts setPlayer1 setPlayer2 player2].
  rewrite player2_updatePowerMode. reflexivity.
Qed.

Lemma vitals_movePlayer p : vitals (movePlayer p) = vitals p.
Proof. rewrite movePlayer_eq. break_ifs; reflexivity. Qed.

Lemma vitals_expireInvulnerability now p :
  vitals (expireInvulnerability now p) = vitals p.
Proof. unfold expireInvulnerability. break_ifs; reflexivity. Qed.

Lemma player1_checkDots s :
  player1 (checkDots s)
  = p_addScore (10 * dotsUnder (player1 s) (dots s)) (player1 s).
Proof. rewrite checkDots_eq. reflexivity. Qed.

Lemma player2_checkDots s :
  player2 (checkDots s)
  = p_addScore (10 * dotsUnder (player2 s) (dots s)) (player2 s).
Proof. rewrite checkDots_eq. reflexivity. Qed.

Lemma player1_checkPowerPellets now s :
  player1 (checkPowerPellets now s)
  = p_addScore (50 * dotsUnder (player1 s) (powerPellets s)) (player1 s).
Proof.
  rewrite checkPowerPellets_eq.
  destruct (pelletEaten s (powerPellets s)) eqn:He; [reflexivity |].
  destruct (pelletEaten_false s _ He) as (-> & _ & _).
  cbn [setPowerPellets player1]. now rewrite Z.mul_0_r, p_addScore_0.
Qed.

Lemma player2_checkPowerPellets now s :
  player2 (checkPowerPellets now s)
  = p_addScore (50 * dotsUnder (player2 s) (powerPellets s)) (player2 s).
Proof.
  rewrite checkPowerPellets_eq.
  destruct (pelletEaten s (powerPellets s)) eqn:He; [reflexivity |].
  destruct (pelletEaten_false s _ He) as (_ & -> & _).
  cbn [setPowerPellets player2]. now rewrite Z.mul_0_r, p_addScore_0.
Qed.

Lemma dotsUnder_nonneg p l : 0 <= dotsUnder p l.
Proof. unfold dotsUnder. lia. Qed.

(** The vitals of the players when the ghost pass starts: the scores have
    grown by the dots and pellets, lives and names are those of the tick's
    start. *)
Lemma beforeGhostPass_vitals (env : TickEnv) (s : GameState) :
  (exists k, 0 <= k
     /\ vitals (player1 (beforeGhostPass env s))
        = (p_score (player1 s) + 10 * k, p_lives (player1 s), p_name (player1 s)))
  /\ (exists k, 0 <= k
     /\ vitals (player2 (beforeGhostPass env s))
        = (p_score (player2 s) + 10 * k, p_lives (player2 s), p_name (player2 s))).
Proof.
  unfold beforeGhostPass.
  remember (beforeCollisions env s) as m eqn:Hm.
  assert (H1 : vitals (player1 m) = vitals (player1 s)).
  { rewrite Hm, player1_beforeCollisions, vitals_movePlayer.
    apply vitals_expireInvulnerability. }
  assert (H2 : vitals (player2 m) = vitals (player2 s)).
  { rewrite Hm, player2_beforeCollisions, vitals_movePlayer.
    apply vitals_expireInvulnerability. }
  clear Hm.
  unfold vitals in H1, H2. injection H1 as S1 L1 N1. injection H2 as S2 L2 N2.
  split.
  - exists (dotsUnder (player1 m) (dots m)
            + 5 * dotsUnder (player1 (checkDots m)) (powerPellets (checkDots m))).
    split.
    + pose proof (dotsUnder_nonneg (player1 m) (dots m)).
      pose proof (dotsUnder_nonneg (player1 (checkDots m)) (powerPellets (checkDots m))).
      lia.
    + rewrite player1_checkPowerPellets, player1_checkDots.
      unfold vitals, p_addScore; cbn [p_score p_lives p_name].
      rewrite S1, L1, N1. f_equal. f_equal. lia.
  - exists (dotsUnder (player2 m) (dots m)
            + 5 * dotsUnder (player2 (checkDots m)) (powerPellets (checkDots m))).
    split.
    + pose proof (dotsUnder_nonneg (player2 m) (dots m)).
      pose proof (dotsUnder_nonneg (player2 (checkDots m)) (powerPellets (checkDots m))).
      lia.
    + rewrite player2_checkPowerPellets, player2_checkDots.
      unfold vitals, p_addScore; cbn [p_score p_lives p_name].
      rewrite S2, L2, N2. f_equal. f_equal. lia.
Qed.

Lemma player1_checkGameOver s : player1 (checkGameOver s) = player1 s.
Proof. unfold checkGameOver. break_ifs; reflexivity. Qed.

Lemma player2_checkGameOver s : player2 (checkGameOver s) = player2 s.
Proof. unfold checkGameOver. break_ifs; reflexivity. Qed.

Lemma powerMode_checkGameOver s : powerMode (checkGameOver s) = powerMode s.
Proof. unfold checkGameOver. break_ifs; reflexivity. Qed.

Lemma powerMode_checkGhostCollisions now s :
  powerMode (checkGhostCollisions now s) = powerMode s.
Proof.
  destruct (powerMode s) eqn:Hpm.
  - rewrite (checkGhostCollisions_power now s Hpm). exact Hpm.
  - rewrite (checkGhostCollisions_normal now s Hpm). exact Hpm.
Qed.

(** The outcome of a tick for one player, read off the ghost pass. *)
Lemma gameTick_player1 (env : TickEnv) (s : GameState) :
  let b := beforeGhostPass env s in
  (powerMode b = true /\
   exists n, 0 <= n /\ player1 (gameTick env s) = p_addScore (200 * n) (player1 b))
  \/ (powerMode b = false /\ player1 (gameTick env s) = player1 b)
  \/ (powerMode b = false /\
      player1 (gameTick env s)
      = killPlayer (now_collisions env) 1 1 Right (player1 b)).
Proof.
  intros b. rewrite gameTick_ghost_pass, player1_checkGameOver. fold b.
  destruct (powerMode b) eqn:Hpm.
  - left. split; [reflexivity |].
    rewrite (checkGhostCollisions_power _ b Hpm).
    eexists. split; [apply countGhosts_nonneg | reflexivity].
  - right. rewrite (checkGhostCollisions_normal _ b Hpm). unfold resolveHits.
    cbn [setPlayer1 setPlayer2 player1].
    destruct (isHit (player1 b) (ghosts b)); [right | left]; split; reflexivity.
Qed.

Lemma gameTick_player2 (env : TickEnv) (s : GameState) :
  let b := beforeGhostPass env s in
  (powerMode b = true /\
   exists n, 0 <= n /\ player2 (gameTick env s) = p_addScore (200 * n) (player2 b))
  \/ (powerMode b = false /\ player2 (gameTick env s) = player2 b)
  \/ (powerMode b = false /\
      player2 (gameTick env s)
      = killPlayer (now_collisions env) 26 1 Left (player2 b)).
Proof.
  intros b. rewrite gameTick_ghost_pass, player2_checkGameOver. fold b.
  destruct (powerMode b) eqn:Hpm.
  - left. split; [reflexivity |].
    rewrite (checkGhostCollisions_power _ b Hpm).
    eexists. split; [apply countGhosts_nonneg | reflexivity].
  - right. rewrite (checkGhostCollisions_normal _ b Hpm). unfold resolveHits.
    cbn [setPlayer1 setPlayer2 player2].
    destruct (isHit (player2 b) (ghosts b)); [right | left]; split; reflexivity.
Qed.

Lemma powerMode_gameTick (env : TickEnv) (s : GameState) :
  powerMode (gameTick env s) = powerMode (beforeGhostPass env s).
Proof.
  rewrite gameTick_ghost_pass, powerMode_checkGameOver.
  apply powerMode_checkGhostCollisions.
Qed.

(** X7. One tick costs a player at most one life.  Either the player's
    lives are what they were, or the player has exactly one life less and
    ends the tick on its start cell, facing its start direction,
    invulnerable since the clock reading of the collision phase, with the
    session out of power mode.  A tick that ends in power mode costs nobody
    a life.  Names never change in a tick. *)
Theorem tick_costs_at_most_one_life :
  forall (env : TickEnv) (s : GameState),
    let s' := gameTick env s in
    (p_lives (player1 s') = p_lives (player1 s)
     \/ (p_lives (player1 s') = p_lives (player1 s) - 1
         /\ playerPos (player1 s') = (1, 1)
         /\ p_direction (player1 s') = Right
         /\ p_invulnerable (player1 s') = true
         /\ p_invulnerableTime (player1 s') = now_collisions env
         /\ powerMode s' = false))
    /\ (p_lives (player2 s') = p_lives (player2 s)
        \/ (p_lives (player2 s') = p_lives (player2 s) - 1
            /\ playerPos (player2 s') = (26, 1)
            /\ p_direction (player2 s') = Left
            /\ p_invulnerable (player2 s') = true
            /\ p_invulnerableTime (player2 s') = now_collisions env
            /\ powerMode s' = false))
    /\ (powerMode s' = true ->
        p_lives (player1 s') = p_lives (player1 s)
        /\ p_lives (player2 s') = p_lives (player2 s))
    /\ p_name (player1 s') = p_name (player1 s)
    /\ p_name (player2 s') = p_name (player2 s).
Proof.
  intros env s s'. subst s'.
  destruct (beforeGhostPass_vitals env s) as [(k1 & _ & V1) (k2 & _ & V2)].
  unfold vitals in V1, V2. injection V1 as _ L1 N1. injection V2 as _ L2 N2.
  pose proof (gameTick_player1 env s) as P1.
  pose proof (gameTick_player2 env s) as P2.
  cbv zeta in P1, P2. rewrite powerMode_gameTick.
  destruct P1 as [[Hp1 (n1 & _ & ->)] | [[Hp1 ->] | [Hp1 ->]]];
    destruct P2 as [[Hp2 (n2 & _ & ->)] | [[Hp2 ->] | [Hp2 ->]]];
    try congruence;
    cbn [p_addScore killPlayer p_lives p_name playerPos p_x p_y p_direction
         p_invulnerable p_invulnerableTime];
    rewrite ?L1, ?L2, ?N1, ?N2;
    (split; [| split; [| split; [| split]]]);
    try reflexivity; try (left; reflexivity);
    try (right; repeat split; try reflexivity; assumption);
    try (intros _; split; reflexivity);
    try (intros Habs; congruence).
Qed.

Lemma tick_costs_at_most_one_life_witness :
  let s := mkGameState (mkPlayer 1 1 Up 0 5 false 0 None) (startPlayer2 None)
                       [] [(5, 5)] startGhosts false None true 0 in
  powerMode (gameTick quietEnv s) = true
  /\ p_lives (player1 (gameTick quietEnv s)) = p_lives (player1 s).
Proof.
  intros s.
  destruct (tick_costs_at_most_one_life quietEnv s) as (_ & _ & H & _).
  split; [reflexivity | apply H; reflexivity].
Defined.

(** X8. Scores only grow in a tick, and in steps of ten: each player's
    score after a tick is its score before plus a non-negative multiple of
    ten (10 per dot, 50 per pellet, 200 per ghost). *)
Theorem tick_scores_grow_by_tens :
  forall (env : TickEnv) (s : GameState),
    (exists k, 0 <= k
       /\ p_score (player1 (gameTick env s)) = p_score (player1 s) + 10 * k)
    /\ (exists k, 0 <= k
       /\ p_score (player2 (gameTick env s)) = p_score (player2 s) + 10 * k).
Proof.
  intros env s.
  destruct (beforeGhostPass_vitals env s) as [(k1 & Hk1 & V1) (k2 & Hk2 & V2)].
  assert (S1 := f_equal (fun v => fst (fst v)) V1).
  assert (S2 := f_equal (fun v => fst (fst v)) V2).
  cbn [vitals fst snd] in S1, S2. clear V1 V2.
  pose proof (gameTick_player1 env s) as P1.
  pose proof (gameTick_player2 env s) as P2.
  cbv zeta in P1, P2.
  split.
  - destruct P1 as [[_ (n1 & Hn & ->)] | [[_ ->] | [_ ->]]];
      cbn [p_addScore killPlayer p_score]; rewrite S1.
    + exists (k1 + 20 * n1). split; lia.
    + exists k1. split; lia.
    + exists k1. split; lia.
  - destruct P2 as [[_ (n2 & Hn & ->)] | [[_ ->] | [_ ->]]];
      cbn [p_addScore killPlayer p_score]; rewrite S2.
    + exists (k2 + 20 * n2). split; lia.
    + exists k2. split; lia.
    + exists k2. split; lia.
Qed.

(** * Lives, scores and verdict of reachable servers *)

Lemma gameTick_vitals1 (env : TickEnv) (s : GameState) :
  exists k dl, 0 <= k /\ (dl = 0 \/ dl = 1)
    /\ p_score (player1 (gameTick env s)) = p_score (player1 s) + 10 * k
    /\ p_lives (player1 (gameTick env s)) = p_lives (player1 s) - dl.
Proof.
  destruct (beforeGhostPass_vitals env s) as [(k1 & Hk1 & V1) _].
  assert (S1 := f_equal (fun v => fst (fst v)) V1).
  assert (L1 := f_equal (fun v => snd (fst v)) V1).
  cbn [vitals fst snd] in S1, L1. clear V1.
  pose proof (gameTick_player1 env s) as P1. cbv zeta in P1.
  destruct P1 as [[_ (n1 & Hn & ->)] | [[_ ->] | [_ ->]]];
    cbn [p_addScore killPlayer p_score p_lives]; rewrite S1, L1.
  - exists (k1 + 20 * n1), 0. repeat split; lia.
  - exists k1, 0. repeat split; lia.
  - exists k1, 1. repeat split; lia.
Qed.

Lemma gameTick_vitals2 (env : TickEnv) (s : GameState) :
  exists k dl, 0 <= k /\ (dl = 0 \/ dl = 1)
    /\ p_score (player2 (gameTick env s)) = p_score (player2 s) + 10 * k
    /\ p_lives (player2 (gameTick env s)) = p_lives (player2 s) - dl.
Proof.
  destruct (beforeGhostPass_vitals env s) as [_ (k2 & Hk2 & V2)].
  assert (S2 := f_equal (fun v => fst (fst v)) V2).
  assert (L2 := f_equal (fun v => snd (fst v)) V2).
  cbn [vitals fst snd] in S2, L2. clear V2.
  pose proof (gameTick_player2 env s) as P2. cbv zeta in P2.
  destruct P2 as [[_ (n2 & Hn & ->)] | [[_ ->] | [_ ->]]];
    cbn [p_addScore killPlayer p_score p_lives]; rewrite S2, L2.
  - exists (k2 + 20 * n2), 0. repeat split; lia.
  - exists k2, 0. repeat split; lia.
  - exists k2, 1. repeat split; lia.
Qed.

Lemma verdict_updatePowerMode now s :
  gameOver (updatePowerMode now s) = gameOver s
  /\ winner (updatePowerMode now s) = winner s.
Proof. unfold updatePowerMode. break_ifs; split; reflexivity. Qed.

Lemma verdict_beforeGhostPass env s :
  gameOver (beforeGhostPass env s) = gameOver s
  /\ winner (beforeGhostPass env s) = winner s.
Proof.
  unfold beforeGhostPass.
  rewrite checkPowerPellets_eq, checkDots_eq.
  assert (H : gameOver (beforeCollisions env s) = gameOver s
              /\ winner (beforeCollisions env s) = winner s).
  { unfold beforeCollisions, moveGhosts, updateInvulnerability.
    cbn [setGhosts setPlayer1 setPlayer2 gameOver winner].
    destruct (verdict_updatePowerMode (now_powerMode env)
                (setPlayer2
                   (expireInvulnerability (now_invulnerability env)
                      (player2 (setPlayer1 (expireInvulnerability
                         (now_invulnerability env) (player1 s)) s)))
                   (setPlayer1 (expireInvulnerability (now_invulnerability env)
                      (player1 s)) s))) as [-> ->].
    split; reflexivity. }
  destruct H as [Hg Hw].
  break_ifs; cbn [setPowerPellets activatePower setGhosts setPowerMode addScores
                  setPlayer1 setPlayer2 setDots gameOver winner];
    split; assumption.
Qed.

Lemma verdict_checkGhostCollisions now s :
  gameOver (checkGhostCollisions now s) = gameOver s
  /\ winner (checkGhostCollisions now s) = winner s.
Proof.
  destruct (powerMode s) eqn:Hpm.
  - rewrite (checkGhostCollisions_power now s Hpm). split; reflexivity.
  - rewrite (checkGhostCollisions_normal now s Hpm). split; reflexivity.
Qed.

Lemma vitals_updatePlayerDirection p input :
  vitals (updatePlayerDirection p input) = vitals p.
Proof. unfold updatePlayerDirection. break_ifs; reflexivity. Qed.

Lemma tenfold_add (z k : Z) : tenfold z -> 0 <= k -> tenfold (z + 10 * k).
Proof.
  intros (j & Hj & ->) Hk. exists (j + k). split; lia.
Qed.

Lemma VitalsInv_tick (env : TickEnv) (sv : Server) :
  VitalsInv sv -> VitalsInv (onInterval env sv).
Proof.
  intros Hinv. unfold onInterval.
  destruct (gameLoopInterval sv) eqn:Hrun; [| exact Hinv].
  destruct Hinv as ((Hl1 & Hl2) & (Hs1 & Hs2) & Hlive & Hstop).
  destruct (gameOver (gameState sv)) eqn:Hover;
    [specialize (Hstop eq_refl); congruence |].
  destruct (Hlive eq_refl) as (Hp1 & Hp2 & Hw).
  set (s := gameState sv) in *.
  destruct (gameTick_vitals1 env s) as (k1 & d1 & Hk1 & Hd1 & Sc1 & Li1).
  destruct (gameTick_vitals2 env s) as (k2 & d2 & Hk2 & Hd2 & Sc2 & Li2).
  unfold VitalsInv. cbn [gameState gameLoopInterval].
  split; [split; lia | split; [split |]].
  - rewrite Sc1. now apply tenfold_add.
  - rewrite Sc2. now apply tenfold_add.
  - split.
    + intros Hnot.
      pose proof (checkGameOver_gameOver
                    (checkGhostCollisions (now_collisions env) (beforeGhostPass env s)))
        as Hg.
      rewrite <- gameTick_ghost_pass, Hnot in Hg. symmetry in Hg.
      apply orb_false_iff in Hg. destruct Hg as [Hg Hdead].
      apply orb_false_iff in Hg. destruct Hg as [_ Hgone].
      pose proof (checkGameOver_untouched _ Hgone Hdead) as Hsame.
      rewrite <- gameTick_ghost_pass in Hsame.
      unfold someoneDead in Hdead. apply orb_false_iff in Hdead.
      rewrite <- Hsame in Hdead. destruct Hdead as [D1 D2].
      split; [lia | split; [lia |]].
      rewrite Hsame.
      destruct (verdict_checkGhostCollisions (now_collisions env)
                  (beforeGhostPass env s)) as [_ ->].
      destruct (verdict_beforeGhostPass env s) as [_ ->]. exact Hw.
    + intros ->. reflexivity.
Qed.

Lemma VitalsInv_mapPlayer (sv : Server) (input : Input) :
  VitalsInv sv ->
  VitalsInv (mapPlayer1 (fun p => updatePlayerDirection p input) sv)
  /\ VitalsInv (mapPlayer2 (fun p => updatePlayerDirection p input) sv).
Proof.
  intros Hinv. unfold VitalsInv, mapPlayer1, mapPlayer2 in *.
  cbn [gameState gameLoopInterval setPlayer1 setPlayer2 player1 player2
       gameOver winner] in *.
  pose proof (vitals_updatePlayerDirection (player1 (gameState sv)) input) as V1.
  pose proof (vitals_updatePlayerDirection (player2 (gameState sv)) input) as V2.
  assert (S1 := f_equal (fun v => fst (fst v)) V1).
  assert (L1 := f_equal (fun v => snd (fst v)) V1).
  assert (S2 := f_equal (fun v => fst (fst v)) V2).
  assert (L2 := f_equal (fun v => snd (fst v)) V2).
  cbn [vitals fst snd] in S1, L1, S2, L2.
  rewrite S1, L1, S2, L2. split; exact Hinv.
Qed.

Lemma reachable_VitalsInv (events : list Event) : VitalsInv (run boot events).
Proof.
  apply (run_invariant VitalsInv).
  - unfold VitalsInv; cbn. repeat split; try lia; try discriminate.
    + exists 0; split; lia.
    + exists 0; split; lia.
  - intros sv e Hinv.
    destruct e as [env | player input | input | d | d | n1 n2].
    + now apply VitalsInv_tick.
    + destruct (handle_input_cases sv (PlayerInput player input) I)
        as [-> | [[i ->] | [i ->]]];
        [exact Hinv | now apply VitalsInv_mapPlayer | now apply VitalsInv_mapPlayer].
    + destruct (handle_input_cases sv (ArduinoInput input) I)
        as [-> | [[i ->] | [i ->]]];
        [exact Hinv | now apply VitalsInv_mapPlayer | now apply VitalsInv_mapPlayer].
    + destruct (handle_input_cases sv (ArduinoManualPress d) I)
        as [-> | [[i ->] | [i ->]]];
        [exact Hinv | now apply VitalsInv_mapPlayer | now apply VitalsInv_mapPlayer].
    + destruct (handle_input_cases sv (ApiArduinoPress d) I)
        as [-> | [[i ->] | [i ->]]];
        [exact Hinv | now apply VitalsInv_mapPlayer | now apply VitalsInv_mapPlayer].
    + cbn [handle]. unfold onStartGame, VitalsInv. cbn.
      repeat split; try lia; try discriminate.
      * exists 0; split; lia.
      * exists 0; split; lia.
Qed.

(** X9. In every reachable server each player has between 0 and 5 lives
    and a score that is a non-negative multiple of ten.  While the game is
    not over both players have a life left and no winner is recorded; and
    the interval runs only while the game is not over. *)
Theorem reachable_lives_scores_verdict :
  forall (events : list Event),
    let sv := run boot events in
    let s := gameState sv in
    (0 <= p_lives (player1 s) <= 5 /\ 0 <= p_lives (player2 s) <= 5)
    /\ (0 <= p_score (player1 s) /\ (10 | p_score (player1 s)))
    /\ (0 <= p_score (player2 s) /\ (10 | p_score (player2 s)))
    /\ (gameOver s = false ->
        0 < p_lives (player1 s) /\ 0 < p_lives (player2 s) /\ winner s = None)
    /\ (gameLoopInterval sv = true -> gameOver s = false).
Proof.
  intros events sv s.
  destruct (reachable_VitalsInv events) as (Hl & (Hs1 & Hs2) & Hlive & Hstop).
  fold sv in Hl, Hs1, Hs2, Hlive, Hstop. fold s in Hl, Hs1, Hs2, Hlive, Hstop.
  split; [exact Hl | split; [| split; [| split; [exact Hlive |]]]].
  - destruct Hs1 as (k & Hk & ->). split; [lia | exists k; lia].
  - destruct Hs2 as (k & Hk & ->). split; [lia | exists k; lia].
  - intros Hrun. destruct (gameOver s) eqn:E; [| reflexivity].
    specialize (Hstop eq_refl). congruence.
Qed.

(** * Ghost colours *)

Lemma isOwnColor_spec (c : string) :
  isOwnColor c = true -> c <> EmptyString /\ c <> "blue"%string.
Proof.
  unfold isOwnColor. rewrite andb_true_iff, !negb_true_iff.
  intros [H1 H2]. split; intros ->; discriminate.
Qed.

Lemma wears_turnBlue own g : wearsOwnOrBlue own g -> wearsOwnOrBlue own (turnBlue g).
Proof.
  intros [Hown [[Hc Ho] | [Hc Ho]]]; (split; [exact Hown |]).
  - destruct (isOwnColor_spec own Hown) as [_ Hnb].
    unfold turnBlue, isBlue. rewrite Hc.
    destruct (String.eqb_spec own "blue"); [contradiction |].
    cbn [negb g_setColors g_color g_originalColor]. right. split; reflexivity.
  - unfold turnBlue, isBlue. rewrite Hc. cbn [String.eqb negb].
    replace (String.eqb "blue" "blue") with true by reflexivity.
    cbn [negb]. right. split; assumption.
Qed.

Lemma wears_resetColor own g :
  wearsOwnOrBlue own g ->
  wearsOwnOrBlue own (resetColor g) /\ isBlue (resetColor g) = false.
Proof.
  intros [Hown Hcase]. destruct (isOwnColor_spec own Hown) as [Hne Hnb].
  assert (Hnotblue : String.eqb own "blue" = false)
    by (destruct (String.eqb_spec own "blue"); [contradiction | reflexivity]).
  assert (Htruthy : truthy (Some own) = true).
  { unfold truthy. destruct (String.eqb_spec own EmptyString);
      [contradiction | reflexivity]. }
  destruct Hcase as [[Hc Ho] | [Hc Ho]].
  - assert (Hb : isBlue g = false) by (unfold isBlue; now rewrite Hc).
    unfold resetColor. rewrite Hb. split; [| exact Hb].
    split; [exact Hown | left; split; assumption].
  - assert (Hb : isBlue g = true) by (unfold isBlue; now rewrite Hc).
    unfold resetColor. rewrite Hb, Ho, Htruthy.
    split; [split; [exact Hown | left; split; reflexivity] |].
    unfold isBlue; cbn [g_setColors g_color]. exact Hnotblue.
Qed.

Lemma wears_eatGhost own g i : wearsOwnOrBlue own g -> wearsOwnOrBlue own (eatGhost i g).
Proof.
  intros [Hown Hcase]. destruct (isOwnColor_spec own Hown) as [Hne Hnb].
  assert (Htruthy : truthy (Some own) = true).
  { unfold truthy. destruct (String.eqb_spec own EmptyString);
      [contradiction | reflexivity]. }
  split; [exact Hown |]. unfold eatGhost; cbn [g_setPos g_originalColor].
  destruct Hcase as [[Hc Ho] | [Hc Ho]]; rewrite Ho.
  - left. split; assumption.
  - rewrite Htruthy. left. split; reflexivity.
Qed.

Lemma wears_same_colors own g g' :
  g_color g' = g_color g -> g_originalColor g' = g_originalColor g ->
  wearsOwnOrBlue own g -> wearsOwnOrBlue own g'.
Proof. unfold wearsOwnOrBlue. intros -> ->. tauto. Qed.

Lemma Forall2_map_right {A B : Type} (R : A -> B -> Prop) (f : B -> B) :
  (forall a b, R a b -> R a (f b)) ->
  forall la lb, Forall2 R la lb -> Forall2 R la (map f lb).
Proof.
  intros Hf la lb H. induction H; cbn [map]; constructor; auto.
Qed.

Lemma Forall2_forEachIndexed {A B : Type} (R : A -> B -> Prop) (f : B -> nat -> B) :
  (forall a b i, R a b -> R a (f b i)) ->
  forall la lb k, Forall2 R la lb -> Forall2 R la (forEachIndexed f k lb).
Proof.
  intros Hf la lb k H. revert k.
  induction H; intros k; cbn [forEachIndexed]; constructor; auto.
Qed.

Lemma isBlue_moveGhost s env g i : isBlue (moveGhost s env g i) = isBlue g.
Proof.
  unfold isBlue, moveGhost.
  destruct (stepGhost_colors env g i (chooseTarget s env g i)) as [-> _].
  reflexivity.
Qed.

Lemma ColorInv_updatePowerMode now s : ColorInv s -> ColorInv (updatePowerMode now s).
Proof.
  intros H. unfold updatePowerMode.
  destruct (powerMode s) eqn:Hpm; [| exact H].
  destruct (now - powerModeTime s >? 10000); [| exact H].
  destruct H as [H1 H2].
  unfold ColorInv; cbn [setGhosts setPowerMode ghosts powerMode]. split.
  - apply Forall2_map_right; [| exact H1]. intros a b Hab.
    now apply wears_resetColor.
  - intros _. apply Forall_map.
    clear H2. induction H1; constructor; [| assumption].
    eapply wears_resetColor; eassumption.
Qed.

Lemma ColorInv_beforeCollisions env s : ColorInv s -> ColorInv (beforeCollisions env s).
Proof.
  intros H. unfold beforeCollisions.
  assert (H0 : ColorInv (updateInvulnerability (now_invulnerability env) s)) by exact H.
  apply (ColorInv_updatePowerMode (now_powerMode env)) in H0.
  set (s1 := updatePowerMode _ _) in *.
  destruct H0 as [H1 H2].
  unfold ColorInv, moveGhosts. cbn [setGhosts setPlayer1 setPlayer2 ghosts powerMode].
  split.
  - apply Forall2_forEachIndexed; [| exact H1]. intros a b i Hab.
    unfold moveGhost.
    destruct (stepGhost_colors env b i
                (chooseTarget (setPlayer2 (movePlayer (player2 (setPlayer1 (movePlayer (player1 s1)) s1)))
                                 (setPlayer1 (movePlayer (player1 s1)) s1)) env b i))
      as [Hc Ho].
    eapply wears_same_colors; eassumption.
  - intros Hpm. specialize (H2 Hpm).
    apply forEachIndexed_Forall; [| exact H2].
    intros g i Hg. now rewrite isBlue_moveGhost.
Qed.

Lemma ColorInv_checkPowerPellets now s : ColorInv s -> ColorInv (checkPowerPellets now s).
Proof.
  intros H. rewrite checkPowerPellets_eq.
  destruct (pelletEaten s (powerPellets s)); [| exact H].
  destruct H as [H1 H2]. unfold ColorInv.
  cbn [setPowerPellets activatePower setGhosts setPowerMode ghosts powerMode].
  split; [| discriminate].
  apply Forall2_map_right; [| exact H1]. intros a b. apply wears_turnBlue.
Qed.

Lemma ColorInv_checkGhostCollisions now s :
  ColorInv s -> ColorInv (checkGhostCollisions now s).
Proof.
  intros H. destruct (powerMode s) eqn:Hpm.
  - rewrite (checkGhostCollisions_power now s Hpm). destruct H as [H1 H2].
    unfold ColorInv.
    cbn [setGhosts addScores setPlayer1 setPlayer2 ghosts powerMode].
    split; [| rewrite Hpm; discriminate].
    apply Forall2_forEachIndexed; [| exact H1]. intros a b i Hab.
    unfold afterPlayers, afterPlayer1.
    destruct (eatenBy2 s b i), (ghostOn b (player1 s));
      repeat apply wears_eatGhost; exact Hab.
  - rewrite (checkGhostCollisions_normal now s Hpm). exact H.
Qed.

Lemma ColorInv_checkGameOver s : ColorInv s -> ColorInv (checkGameOver s).
Proof. intros H. unfold checkGameOver. break_ifs; exact H. Qed.

Lemma ColorInv_gameTick env s : ColorInv s -> ColorInv (gameTick env s).
Proof.
  intros H. rewrite gameTick_ghost_pass. unfold beforeGhostPass.
  apply ColorInv_checkGameOver, ColorInv_checkGhostCollisions,
    ColorInv_checkPowerPellets.
  rewrite checkDots_eq. apply (ColorInv_beforeCollisions env) in H. exact H.
Qed.

Lemma ColorInv_start : forall s, ghosts s = startGhosts -> powerMode s = false -> ColorInv s.
Proof.
  intros s Hg Hp. unfold ColorInv. rewrite Hg. split.
  - cbn. repeat constructor.
  - intros _. cbn. repeat constructor.
Qed.

Lemma reachable_ColorInv (events : list Event) : ColorInv (gameState (run boot events)).
Proof.
  apply (run_invariant (fun sv => ColorInv (gameState sv))).
  - now apply ColorInv_start.
  - intros sv e H.
    destruct e as [env | player input | input | d | d | n1 n2].
    + cbn [handle]. unfold onInterval.
      destruct (gameLoopInterval sv); [| exact H].
      cbn [gameState]. now apply ColorInv_gameTick.
    + destruct (handle_input_cases sv (PlayerInput player input) I)
        as [-> | [[i ->] | [i ->]]]; exact H.
    + destruct (handle_input_cases sv (ArduinoInput input) I)
        as [-> | [[i ->] | [i ->]]]; exact H.
    + destruct (handle_input_cases sv (ArduinoManualPress d) I)
        as [-> | [[i ->] | [i ->]]]; exact H.
    + destruct (handle_input_cases sv (ApiArduinoPress d) I)
        as [-> | [[i ->] | [i ->]]]; exact H.
    + cbn [handle]. unfold onStartGame. cbn [gameState].
      now apply ColorInv_start.
Qed.

(** X10. Ghosts keep their identity.  In every reachable session there are
    four ghosts and, in array order, each shows red, pink, cyan, orange
    with an empty original-colour slot, or shows blue and remembers exactly
    that colour.  Outside power mode no ghost is blue: the colours are red,
    pink, cyan, orange and every slot is empty. *)
Theorem reachable_ghost_colors :
  forall (events : list Event),
    let s := gameState (run boot events) in
    Forall2 wearsOwnOrBlue ["red"; "pink"; "cyan"; "orange"]%string (ghosts s)
    /\ (powerMode s = false ->
        map g_color (ghosts s) = ["red"; "pink"; "cyan"; "orange"]%string
        /\ Forall (fun g => g_originalColor g = None) (ghosts s)).
Proof.
  intros events s. destruct (reachable_ColorInv events) as [H1 H2].
  fold s in H1, H2. split; [exact H1 |].
  intros Hpm. specialize (H2 Hpm).
  change (map g_color startGhosts)
    with ["red"; "pink"; "cyan"; "orange"]%string in H1.
  revert H2. induction H1 as [| own g owns gl Hw Hrest IH]; intros Hnb.
  - split; [reflexivity | constructor].
  - inversion Hnb as [| ? ? Hg Hgl]; subst.
    destruct (IH Hgl) as [IHc IHo].
    destruct Hw as [_ [[Hc Ho] | [Hc _]]].
    + split; [cbn [map]; now rewrite Hc, IHc | constructor; assumption].
    + unfold isBlue in Hg. rewrite Hc in Hg. discriminate Hg.
Qed.

(** * Players and walls *)

Lemma playerPos_movePlayer_expire now p :
  playerPos (movePlayer (expireInvulnerability now p)) = playerPos (movePlayer p).
Proof.
  unfold expireInvulnerability.
  destruct (p_invulnerable p && (now - p_invulnerableTime p >? 3000));
    [| reflexivity].
  unfold movePlayer, p_setInvulnerable; cbn [p_direction p_x p_y].
  destruct (stepDir (p_direction p) (p_x p) (p_y p)) as [nx ny].
  break_ifs; reflexivity.
Qed.

Lemma playerPos_beforeGhostPass1 env s :
  playerPos (player1 (beforeGhostPass env s)) = playerPos (movePlayer (player1 s)).
Proof.
  unfold beforeGhostPass.
  rewrite player1_checkPowerPellets, player1_checkDots, player1_beforeCollisions.
  cbn [p_addScore playerPos p_x p_y].
  apply playerPos_movePlayer_expire.
Qed.

Lemma playerPos_beforeGhostPass2 env s :
  playerPos (player2 (beforeGhostPass env s)) = playerPos (movePlayer (player2 s)).
Proof.
  unfold beforeGhostPass.
  rewrite player2_checkPowerPellets, player2_checkDots, player2_beforeCollisions.
  cbn [p_addScore playerPos p_x p_y].
  apply playerPos_movePlayer_expire.
Qed.

Lemma gameTick_player1_pos env s :
  playerPos (player1 (gameTick env s)) = playerPos (movePlayer (player1 s))
  \/ playerPos (player1 (gameTick env s)) = (1, 1).
Proof.
  pose proof (gameTick_player1 env s) as P. cbv zeta in P.
  destruct P as [[_ (n & _ & ->)] | [[_ ->] | [_ ->]]].
  - left. cbn [p_addScore playerPos p_x p_y]. apply playerPos_beforeGhostPass1.
  - left. apply playerPos_beforeGhostPass1.
  - right. reflexivity.
Qed.

Lemma gameTick_player2_pos env s :
  playerPos (player2 (gameTick env s)) = playerPos (movePlayer (player2 s))
  \/ playerPos (player2 (gameTick env s)) = (26, 1).
Proof.
  pose proof (gameTick_player2 env s) as P. cbv zeta in P.
  destruct P as [[_ (n & _ & ->)] | [[_ ->] | [_ ->]]].
  - left. cbn [p_addScore playerPos p_x p_y]. apply playerPos_beforeGhostPass2.
  - left. apply playerPos_beforeGhostPass2.
  - right. reflexivity.
Qed.

Lemma movePlayer_notWall (p : Player) :
  isWall (playerPos p) = false -> isWall (playerPos (movePlayer p)) = false.
Proof.
  intros Hp. rewrite movePlayer_eq.
  destruct (insideVertical (candidate p) && negb (isWall (candidate p))) eqn:E;
    [| exact Hp].
  apply andb_true_iff in E. destruct E as [_ Hw]. apply negb_true_iff in Hw.
  unfold playerPos, p_setPos; cbn [p_x p_y].
  now rewrite <- surjective_pairing.
Qed.

Lemma reachable_players_off_walls (events : list Event) :
  isWall (playerPos (player1 (gameState (run boot events)))) = false
  /\ isWall (playerPos (player2 (gameState (run boot events)))) = false.
Proof.
  apply (run_invariant
           (fun sv => isWall (playerPos (player1 (gameState sv))) = false
                      /\ isWall (playerPos (player2 (gameState sv))) = false)).
  - split; reflexivity.
  - intros sv e [H1 H2].
    assert (Hin : forall input,
               (isWall (playerPos (player1 (gameState
                   (mapPlayer1 (fun p => updatePlayerDirection p input) sv)))) = false
                /\ isWall (playerPos (player2 (gameState
                   (mapPlayer1 (fun p => updatePlayerDirection p input) sv)))) = false)
               /\ (isWall (playerPos (player1 (gameState
                   (mapPlayer2 (fun p => updatePlayerDirection p input) sv)))) = false
                /\ isWall (playerPos (player2 (gameState
                   (mapPlayer2 (fun p => updatePlayerDirection p input) sv)))) = false)).
    { intros input. unfold mapPlayer1, mapPlayer2.
      cbn [gameState setPlayer1 setPlayer2 player1 player2].
      rewrite !updatePlayerDirection_pos. tauto. }
    destruct e as [env | player input | input | d | d | n1 n2].
    + cbn [handle]. unfold onInterval.
      destruct (gameLoopInterval sv); [| split; assumption].
      cbn [gameState]. split.
      * destruct (gameTick_player1_pos env (gameState sv)) as [-> | ->];
          [now apply movePlayer_notWall | reflexivity].
      * destruct (gameTick_player2_pos env (gameState sv)) as [-> | ->];
          [now apply movePlayer_notWall | reflexivity].
    + destruct (handle_input_cases sv (PlayerInput player input) I)
        as [-> | [[i ->] | [i ->]]]; [split; assumption | apply Hin | apply Hin].
    + destruct (handle_input_cases sv (ArduinoInput input) I)
        as [-> | [[i ->] | [i ->]]]; [split; assumption | apply Hin | apply Hin].
    + destruct (handle_input_cases sv (ArduinoManualPress d) I)
        as [-> | [[i ->] | [i ->]]]; [split; assumption | apply Hin | apply Hin].
    + destruct (handle_input_cases sv (ApiArduinoPress d) I)
        as [-> | [[i ->] | [i ->]]]; [split; assumption | apply Hin | apply Hin].
    + cbn [handle]. unfold onStartGame. split; reflexivity.
Qed.

(** X11. Players never stand on walls; ghosts do.  After any tick a player
    is on the cell its own step took it to or on its start cell, and in
    every reachable session neither player's cell is a wall.  Ghosts are
    not held to this: five ticks into a fresh session the fourth ghost,
    drifting up, stands on the wall cell (14,10). *)
Theorem players_never_on_walls :
  (forall (env : TickEnv) (s : GameState),
      (playerPos (player1 (gameTick env s)) = playerPos (movePlayer (player1 s))
       \/ playerPos (player1 (gameTick env s)) = (1, 1))
      /\ (playerPos (player2 (gameTick env s)) = playerPos (movePlayer (player2 s))
          \/ playerPos (player2 (gameTick env s)) = (26, 1)))
  /\ (forall (events : list Event),
         let s := gameState (run boot events) in
         isWall (playerPos (player1 s)) = false
         /\ isWall (playerPos (player2 s)) = false)
  /\ (exists events g,
         nth_error (ghosts (gameState (run boot events))) 3 = Some g
         /\ ghostPos g = (14, 10) /\ isWall (ghostPos g) = true).
Proof.
  split; [| split].
  - intros env s. split; [apply gameTick_player1_pos | apply gameTick_player2_pos].
  - intros events s. apply reachable_players_off_walls.
  - exists (StartGame None None :: repeat (Tick quietEnv) 5).
    eexists. split; [vm_compute; reflexivity | split; reflexivity].
Qed.

(** * Collectibles and the layout *)

Lemma scanCells_In (v : Z) :
  forall (row : list Z) (x y a b : Z),
    In (a, b) (scanCells v x y row)
    <-> b = y /\ exists j, nth_error row j = Some v /\ a = x + Z.of_nat j.
Proof.
  induction row as [| c row IH]; intros x y a b; cbn [scanCells].
  - split; [intros [] | intros (_ & [| j] & H & _); discriminate H].
  - rewrite in_app_iff, IH. split.
    + intros [Hhead | (Hb & j & Hj & Ha)].
      * destruct (c =? v) eqn:E; [| destruct Hhead].
        destruct Hhead as [Heq | []]. injection Heq as <- <-.
        apply Z.eqb_eq in E. subst c.
        split; [reflexivity |]. exists 0%nat. split; [reflexivity | lia].
      * split; [exact Hb |]. exists (S j). split; [exact Hj | lia].
    + intros (Hb & [| j] & Hj & Ha).
      * left. cbn in Hj. injection Hj as ->. rewrite Z.eqb_refl.
        left. f_equal; lia.
      * right. split; [exact Hb |]. exists j. split; [exact Hj | lia].
Qed.

Lemma scanRows_In (v : Z) :
  forall (rows : list (list Z)) (y a b : Z),
    In (a, b) (scanRows v y rows)
    <-> exists i j row,
          nth_error rows i = Some row /\ nth_error row j = Some v
          /\ a = Z.of_nat j /\ b = y + Z.of_nat i.
Proof.
  induction rows as [| row rows IH]; intros y a b; cbn [scanRows].
  - split; [intros [] | intros ([| i] & j & r & H & _); discriminate H].
  - rewrite in_app_iff, scanCells_In, IH. split.
    + intros [(Hb & j & Hj & Ha) | (i & j & r & Hi & Hj & Ha & Hb)].
      * exists 0%nat, j, row. repeat split; [exact Hj | lia | lia].
      * exists (S i), j, r. repeat split; [exact Hi | exact Hj | exact Ha | lia].
    + intros ([| i] & j & r & Hi & Hj & Ha & Hb).
      * left. cbn in Hi. injection Hi as ->.
        split; [lia |]. exists j. split; [exact Hj | lia].
      * right. exists i, j, r. repeat split; [exact Hi | exact Hj | exact Ha | lia].
Qed.

Lemma scanRows_maze (v a b : Z) :
  In (a, b) (scanRows v 0 MAZE_LAYOUT)
  <-> 0 <= a /\ 0 <= b /\ mazeCell a b = Some v.
Proof.
  rewrite scanRows_In. unfold mazeCell. split.
  - intros (i & j & row & Hi & Hj & -> & ->).
    split; [lia | split; [lia |]].
    rewrite Z.add_0_l, !Nat2Z.id, Hi. exact Hj.
  - intros (Ha & Hb & Hc).
    destruct (nth_error MAZE_LAYOUT (Z.to_nat b)) as [row |] eqn:Hi;
      [| discriminate Hc].
    exists (Z.to_nat b), (Z.to_nat a), row.
    repeat split; [exact Hi | exact Hc | lia | lia].
Qed.

Lemma powerPellets_updatePowerMode now s :
  powerPellets (updatePowerMode now s) = powerPellets s.
Proof. unfold updatePowerMode. break_ifs; reflexivity. Qed.

Lemma powerPellets_checkGameOver s : powerPellets (checkGameOver s) = powerPellets s.
Proof. unfold checkGameOver. break_ifs; reflexivity. Qed.

Lemma powerPellets_checkGhostCollisions now s :
  powerPellets (checkGhostCollisions now s) = powerPellets s.
Proof.
  destruct (powerMode s) eqn:Hpm.
  - now rewrite (checkGhostCollisions_power now s Hpm).
  - now rewrite (checkGhostCollisions_normal now s Hpm).
Qed.

Lemma gameTick_powerPellets (env : TickEnv) (s : GameState) :
  powerPellets (gameTick env s)
  = filter (keepDot (checkDots (beforeCollisions env s))) (powerPellets s).
Proof.
  rewrite gameTick_ghost_pass, powerPellets_checkGameOver,
    powerPellets_checkGhostCollisions.
  unfold beforeGhostPass. rewrite checkPowerPellets_eq.
  cbn [setPowerPellets powerPellets]. rewrite checkDots_eq.
  cbn [setDots powerPellets addScores setPlayer1 setPlayer2].
  unfold beforeCollisions, moveGhosts, updateInvulnerability.
  cbn [setGhosts setPlayer1 setPlayer2 powerPellets].
  now rewrite powerPellets_updatePowerMode.
Qed.

Lemma reachable_collectibles_incl (events : list Event) :
  incl (dots (gameState (run boot events))) (dots resetGameState)
  /\ incl (powerPellets (gameState (run boot events))) (powerPellets resetGameState).
Proof.
  apply (run_invariant
           (fun sv => incl (dots (gameState sv)) (dots resetGameState)
                      /\ incl (powerPellets (gameState sv))
                              (powerPellets resetGameState))).
  - split; intros c [].
  - intros sv e [H1 H2].
    destruct e as [env | player input | input | d | d | n1 n2].
    + cbn [handle]. unfold onInterval.
      destruct (gameLoopInterval sv); [| split; assumption].
      cbn [gameState]. rewrite gameTick_dots, gameTick_powerPellets. split.
      * eapply incl_tran; [apply incl_filter | exact H1].
      * eapply incl_tran; [apply incl_filter | exact H2].
    + destruct (handle_input_cases sv (PlayerInput player input) I)
        as [-> | [[i ->] | [i ->]]]; split; assumption.
    + destruct (handle_input_cases sv (ArduinoInput input) I)
        as [-> | [[i ->] | [i ->]]]; split; assumption.
    + destruct (handle_input_cases sv (ArduinoManualPress d) I)
        as [-> | [[i ->] | [i ->]]]; split; assumption.
    + destruct (handle_input_cases sv (ApiArduinoPress d) I)
        as [-> | [[i ->] | [i ->]]]; split; assumption.
    + cbn [handle]. unfold onStartGame.
      cbn [gameState setPlayer1 setPlayer2 dots powerPellets].
      split; apply incl_refl.
Qed.

(** X12. Collectibles follow the layout and only shrink.  A fresh session
    has a dot exactly on the cells whose layout value is 0 and a power
    pellet exactly on those whose value is 3.  A tick never adds a pellet.
    In every reachable session each dot lies on a value-0 cell and each
    pellet on a value-3 cell, so no collectible is on a wall and no cell
    holds both a dot and a pellet. *)
Theorem collectibles_follow_the_layout :
  (forall a b, In (a, b) (dots resetGameState)
               <-> 0 <= a /\ 0 <= b /\ mazeCell a b = Some 0)
  /\ (forall a b, In (a, b) (powerPellets resetGameState)
                  <-> 0 <= a /\ 0 <= b /\ mazeCell a b = Some 3)
  /\ (forall env s, incl (powerPellets (gameTick env s)) (powerPellets s))
  /\ (forall (events : list Event) (c : Pos),
         let s := gameState (run boot events) in
         (In c (dots s) -> mazeCell (fst c) (snd c) = Some 0 /\ isWall c = false)
         /\ (In c (powerPellets s) ->
             mazeCell (fst c) (snd c) = Some 3 /\ isWall c = false)
         /\ ~ (In c (dots s) /\ In c (powerPellets s))).
Proof.
  split; [intros a b; apply scanRows_maze |].
  split; [intros a b; apply scanRows_maze |].
  split; [intros env s; rewrite gameTick_powerPellets; apply incl_filter |].
  intros events [a b] s.
  destruct (reachable_collectibles_incl events) as [Hd Hp]. fold s in Hd, Hp.
  assert (D : In (a, b) (dots s) -> mazeCell a b = Some 0).
  { intros Hin. apply Hd in Hin.
    change (dots resetGameState) with (scanRows 0 0 MAZE_LAYOUT) in Hin.
    apply scanRows_maze in Hin. tauto. }
  assert (P : In (a, b) (powerPellets s) -> mazeCell a b = Some 3).
  { intros Hin. apply Hp in Hin.
    change (powerPellets resetGameState) with (scanRows 3 0 MAZE_LAYOUT) in Hin.
    apply scanRows_maze in Hin. tauto. }
  cbn [fst snd]. unfold isWall; cbn [fst snd].
  split; [| split].
  - intros Hin. rewrite (D Hin). split; reflexivity.
  - intros Hin. rewrite (P Hin). split; reflexivity.
  - intros [H1 H2]. rewrite (D H1) in P. specialize (P H2). discriminate P.
Qed.

(** * Pursuit and flight *)

Lemma tunnel_id (x : Z) : 0 <= x <= 27 -> tunnel x = x.
Proof. intros H. now apply tunnel_spec. Qed.

Lemma chooseTarget_normal (s : GameState) (env : TickEnv) (g : Ghost) (i : nat)
    (t : Pos) :
  powerMode s = false ->
  chooseTarget s env g i = Some t ->
  t = playerPos (player1 s) \/ t = playerPos (player2 s).
Proof.
  intros Hpm. unfold chooseTarget. rewrite Hpm.
  destruct i as [| [| [| [| i]]]]; break_ifs; intros H;
    try discriminate H; injection H as <-; auto.
Qed.

Lemma stepGhost_towards (env : TickEnv) (g : Ghost) (i : nat) (t : Pos) :
  inGrid (ghostPos g) = true -> inGrid t = true ->
  let g' := stepGhost env g i (Some t) in
  (0 < distTo (ghostPos g) t -> distTo (ghostPos g') t = distTo (ghostPos g) t - 1)
  /\ (distTo (ghostPos g) t = 0 ->
      g_direction g' = Up
      /\ ghostPos g' = (if 0 <? g_y g then (g_x g, g_y g - 1) else ghostPos g)).
Proof.
  intros Hg Ht g'.
  pose proof (stepGhost_direction env g i (Some t)) as Hd.
  pose proof (stepGhost_pos env g i (Some t)) as Hp.
  fold g' in Hd, Hp. clearbody g'. rewrite Hd, Hp. clear Hd Hp g'.
  apply inGrid_iff in Hg. apply inGrid_iff in Ht.
  destruct t as [tx ty]. unfold ghostPos in *. cbn [fst snd] in *.
  unfold attemptMove, commitGhost, distTo, ghostPos; cbn [fst snd].
  destruct (Z.abs (tx - g_x g) >? Z.abs (ty - g_y g)) eqn:Eabs;
    [destruct (tx - g_x g >? 0) eqn:Esgn | destruct (ty - g_y g >? 0) eqn:Esgn];
    cbn [fst snd].
  - rewrite (tunnel_id (g_x g + 1)) by lia.
    replace (inGrid (g_x g + 1, g_y g)) with true
      by (symmetry; apply inGrid_iff; cbn [fst snd]; lia).
    cbn [fst snd]. split; intros; lia.
  - rewrite (tunnel_id (g_x g - 1)) by lia.
    replace (inGrid (g_x g - 1, g_y g)) with true
      by (symmetry; apply inGrid_iff; cbn [fst snd]; lia).
    cbn [fst snd]. split; intros; lia.
  - rewrite (tunnel_id (g_x g)) by lia.
    replace (inGrid (g_x g, g_y g + 1)) with true
      by (symmetry; apply inGrid_iff; cbn [fst snd]; lia).
    cbn [fst snd]. split; intros; lia.
  - rewrite (tunnel_id (g_x g)) by lia.
    destruct (inGrid (g_x g, g_y g - 1)) eqn:Ein; cbn [fst snd].
    + apply inGrid_iff in Ein. cbn [fst snd] in Ein.
      split; [intros; lia |]. intros _. split; [reflexivity |].
      replace (0 <? g_y g) with true by lia. reflexivity.
    + assert (Hy : g_y g = 0).
      { destruct (Z.eq_dec (g_y g) 0) as [E | E]; [exact E |].
        assert (inGrid (g_x g, g_y g - 1) = true)
          by (apply inGrid_iff; cbn [fst snd]; lia).
        congruence. }
      split; [intros; lia |]. intros _. split; [reflexivity |].
      replace (0 <? g_y g) with false by lia. reflexivity.
Qed.

(** X13. Pursuit always makes progress.  Outside power mode a ghost's
    target, when it has one, is the cell of player 1 or of player 2 (ghost
    0 always player 1, ghost 1 always player 2, ghost 2 player 1 unless
    player 2's score is strictly higher).  With ghost and players inside
    the grid, a targeted ghost that is not yet on its target ends the step
    exactly one cell closer to it in Manhattan distance -- no wall, bound
    or wraparound ever holds it back; a ghost standing on its target turns
    up and leaves it by one cell unless it is on the top row. *)
Theorem chasing_ghost_gets_closer :
  forall (s : GameState) (env : TickEnv) (g : Ghost) (i : nat) (t : Pos),
    powerMode s = false ->
    inGrid (ghostPos g) = true ->
    inGrid (playerPos (player1 s)) = true ->
    inGrid (playerPos (player2 s)) = true ->
    chooseTarget s env g i = Some t ->
    let g' := moveGhost s env g i in
    (t = playerPos (player1 s) \/ t = playerPos (player2 s))
    /\ (i = 0%nat -> t = playerPos (player1 s))
    /\ (i = 1%nat -> t = playerPos (player2 s))
    /\ (i = 2%nat ->
        t = if p_score (player1 s) >=? p_score (player2 s)
            then playerPos (player1 s) else playerPos (player2 s))
    /\ (0 < distTo (ghostPos g) t ->
        distTo (ghostPos g') t = distTo (ghostPos g) t - 1)
    /\ (distTo (ghostPos g) t = 0 ->
        g_direction g' = Up
        /\ ghostPos g' = (if 0 <? g_y g then (g_x g, g_y g - 1) else ghostPos g)).
Proof.
  intros s env g i t Hpm Hg H1 H2 Ht g'. subst g'.
  pose proof (chooseTarget_normal s env g i t Hpm Ht) as Hwho.
  assert (Hin : inGrid t = true) by (destruct Hwho as [-> | ->]; assumption).
  split; [exact Hwho |].
  split; [| split; [| split]].
  - intros ->. unfold chooseTarget in Ht. rewrite Hpm in Ht. now injection Ht as <-.
  - intros ->. unfold chooseTarget in Ht. rewrite Hpm in Ht. now injection Ht as <-.
  - intros ->. unfold chooseTarget in Ht. rewrite Hpm in Ht.
    destruct (p_score (player1 s) >=? p_score (player2 s)); now injection Ht as <-.
  - unfold moveGhost. rewrite Ht.
    exact (stepGhost_towards env g i t Hg Hin).
Qed.

Lemma chasing_ghost_gets_closer_witness :
  let s := chaseState 1 1 in
  let g := mkGhost 13 14 Up "red" None in
  distTo (ghostPos (moveGhost s quietEnv g 0)) (1, 1) = 24.
Proof.
  intros s g.
  pose proof (chasing_ghost_gets_closer s quietEnv g 0 (1, 1)
                eq_refl eq_refl eq_refl eq_refl eq_refl) as H.
  cbv zeta in H. destruct H as (_ & _ & _ & _ & Hcloser & _).
  rewrite Hcloser; [reflexivity | vm_compute; reflexivity].
Defined.

Lemma chooseTarget_power (s : GameState) (env : TickEnv) (g : Ghost) (i : nat) :
  powerMode s = true ->
  chooseTarget s env g i = Some (fleeFrom g (nearerPlayer s g)).
Proof.
  intros Hpm. unfold chooseTarget, nearerPlayer. rewrite Hpm.
  destruct (manhattan g (player1 s) <? manhattan g (player2 s)); reflexivity.
Qed.

Lemma stepGhost_away (env : TickEnv) (g : Ghost) (i : nat) (p : Player) :
  inGrid (ghostPos g) = true ->
  let g' := stepGhost env g i (Some (fleeFrom g p)) in
  ghostPos g' = ghostPos g
  \/ (g_x g = 0 /\ ghostPos g' = (27, g_y g))
  \/ (g_x g = 27 /\ ghostPos g' = (0, g_y g))
  \/ distTo (ghostPos g') (playerPos p) = distTo (ghostPos g) (playerPos p) + 1.
Proof.
  intros Hg g'.
  pose proof (stepGhost_pos env g i (Some (fleeFrom g p))) as Hp.
  fold g' in Hp. clearbody g'. rewrite Hp. clear Hp g'.
  apply inGrid_iff in Hg.
  unfold ghostPos in *. cbn [fst snd] in *.
  unfold attemptMove, fleeFrom, commitGhost, distTo, ghostPos, playerPos;
    cbn [fst snd].
  destruct (Z.abs (g_x g + (g_x g - p_x p) - g_x g)
            >? Z.abs (g_y g + (g_y g - p_y p) - g_y g)) eqn:Eabs;
    [destruct (g_x g + (g_x g - p_x p) - g_x g >? 0) eqn:Esgn
    | destruct (g_y g + (g_y g - p_y p) - g_y g >? 0) eqn:Esgn];
    cbn [fst snd].
  - destruct (Z.eq_dec (g_x g) 27) as [E | E].
    + right; right; left. split; [exact E |]. rewrite E.
      change (tunnel (27 + 1)) with 0.
      replace (inGrid (0, g_y g)) with true
        by (symmetry; apply inGrid_iff; cbn [fst snd]; lia).
      reflexivity.
    + rewrite (tunnel_id (g_x g + 1)) by lia.
      replace (inGrid (g_x g + 1, g_y g)) with true
        by (symmetry; apply inGrid_iff; cbn [fst snd]; lia).
      cbn [fst snd]. right; right; right. lia.
  - destruct (Z.eq_dec (g_x g) 0) as [E | E].
    + right; left. split; [exact E |]. rewrite E.
      change (tunnel (0 - 1)) with 27.
      replace (inGrid (27, g_y g)) with true
        by (symmetry; apply inGrid_iff; cbn [fst snd]; lia).
      reflexivity.
    + rewrite (tunnel_id (g_x g - 1)) by lia.
      replace (inGrid (g_x g - 1, g_y g)) with true
        by (symmetry; apply inGrid_iff; cbn [fst snd]; lia).
      cbn [fst snd]. right; right; right. lia.
  - rewrite (tunnel_id (g_x g)) by lia.
    destruct (inGrid (g_x g, g_y g + 1)) eqn:Ein; cbn [fst snd];
      [right; right; right; lia | left; reflexivity].
  - rewrite (tunnel_id (g_x g)) by lia.
    destruct (inGrid (g_x g, g_y g - 1)) eqn:Ein; cbn [fst snd];
      [right; right; right; lia | left; reflexivity].
Qed.

(** X14. Flight.  In power mode every ghost has a target, whatever its
    index and whatever the random draws: the mirror image of the nearer
    player (player 2 on equal distances) about the ghost.  A ghost inside
    the grid then either keeps its cell (its step left the grid at the top
    or bottom), or passes through the tunnel from column 0 to 27 or from 27
    to 0, or ends exactly one cell further from that player. *)
Theorem fleeing_ghost_gets_away :
  forall (s : GameState) (env : TickEnv) (g : Ghost) (i : nat),
    powerMode s = true ->
    inGrid (ghostPos g) = true ->
    let p := nearerPlayer s g in
    let g' := moveGhost s env g i in
    chooseTarget s env g i
    = Some (2 * g_x g - p_x p, 2 * g_y g - p_y p)
    /\ (ghostPos g' = ghostPos g
        \/ (g_x g = 0 /\ ghostPos g' = (27, g_y g))
        \/ (g_x g = 27 /\ ghostPos g' = (0, g_y g))
        \/ distTo (ghostPos g') (playerPos p)
           = distTo (ghostPos g) (playerPos p) + 1).
Proof.
  intros s env g i Hpm Hg p g'. subst p g'.
  rewrite (chooseTarget_power s env g i Hpm). split.
  - unfold fleeFrom. f_equal. f_equal; lia.
  - unfold moveGhost. rewrite (chooseTarget_power s env g i Hpm).
    exact (stepGhost_away env g i (nearerPlayer s g) Hg).
Qed.

Lemma fleeing_ghost_gets_away_witness :
  let s := mkGameState (mkPlayer 13 20 Up 0 5 false 0 None) (startPlayer2 None)
                       [] [] startGhosts false None true 0 in
  chooseTarget s quietEnv (mkGhost 13 14 Up "blue" (Some "red"%string)) 3
  = Some (13, 8).
Proof.
  intros s.
  pose proof (fleeing_ghost_gets_away s quietEnv
                (mkGhost 13 14 Up "blue" (Some "red"%string)) 3 eq_refl eq_refl)
    as H.
  cbv zeta in H. destruct H as [H _]. exact H.
Defined.

(** * Saving the scores *)











(** * Letter case of direction tokens *)

Lemma apiArduinoPress_upper (a b : string) (sv : Server) :
  truthy (Some a) = truthy (Some b) ->
  toUpperCase a = toUpperCase b ->
  apiArduinoPress (JsString a) sv = apiArduinoPress (JsString b) sv.
Proof.
  intros Ht H. unfold apiArduinoPress, validToken, inputOfToken.
  now rewrite Ht, H.
Qed.

Lemma asciiUpper_empty (a : string) :
  asciiUpper a = EmptyString -> a = EmptyString.
Proof.
  destruct a; [reflexivity | discriminate].
Qed.

(** X16. The manual-press handlers read a token only through its upper-case
    form.  Two strings with the same upper-case form get the same treatment
    from the socket handler and, when neither is empty, from the HTTP
    endpoint (same server afterwards, same rejection or same input object
    in the success body); the empty string is rejected with status 400.
    In particular two strings of the ASCII range that differ in letter
    case only are interchangeable for both handlers. *)
Theorem press_tokens_are_case_insensitive :
  (forall (a b : string) (sv : Server),
      toUpperCase a = toUpperCase b ->
      onArduinoManualPress a sv = onArduinoManualPress b sv
      /\ (a <> EmptyString -> b <> EmptyString ->
          apiArduinoPress (JsString a) sv = apiArduinoPress (JsString b) sv))
  /\ (forall sv : Server,
      apiArduinoPress (JsString EmptyString) sv = (sv, BadRequest))
  /\ (forall (a b : string) (sv : Server),
      isAscii a = true -> isAscii b = true ->
      asciiUpper a = asciiUpper b ->
      onArduinoManualPress a sv = onArduinoManualPress b sv
      /\ apiArduinoPress (JsString a) sv = apiArduinoPress (JsString b) sv).
Proof.
  split; [| split].
  - intros a b sv H. split.
    + unfold onArduinoManualPress, inputOfToken. now rewrite H.
    + intros Ha Hb. apply apiArduinoPress_upper; [| exact H].
      destruct a, b; try reflexivity; contradiction.
  - intros sv. reflexivity.
  - intros a b sv Ha Hb H.
    assert (Hu : toUpperCase a = toUpperCase b)
      by (rewrite (toUpperCase_ascii a Ha), (toUpperCase_ascii b Hb); exact H).
    split.
    + unfold onArduinoManualPress, inputOfToken. now rewrite Hu.
    + apply apiArduinoPress_upper; [| exact Hu].
      destruct a as [| c a], b as [| c' b]; try reflexivity; discriminate H.
Qed.

(** * Bridge bookkeeping *)

Lemma hasId_true (id : string) (s : Socket) : hasId id s = true <-> sock_id s = id.
Proof.
  unfold hasId. rewrite String.eqb_eq. split; intros H; now symmetry.
Qed.

Lemma hasId_false (id : string) (s : Socket) : hasId id s = false <-> sock_id s <> id.
Proof.
  unfold hasId. rewrite String.eqb_neq. split; intros H E; apply H; now symmetry.
Qed.

Lemma existsb_hasId (id : string) (l : list Socket) :
  existsb (hasId id) l = true <-> In id (map sock_id l).
Proof.
  rewrite existsb_exists, in_map_iff. split.
  - intros (s & Hin & Hs). exists s. apply hasId_true in Hs. auto.
  - intros (s & Hs & Hin). exists s. split; [exact Hin | now apply hasId_true].
Qed.

Lemma setAdd_In (x y : string) (l : list string) :
  In y (setAdd x l) <-> y = x \/ In y l.
Proof.
  unfold setAdd. destruct (existsb (String.eqb x) l) eqn:E.
  - split; [auto |]. intros [-> | H]; [| exact H].
    apply existsb_exists in E. destruct E as (z & Hz & Heq).
    apply String.eqb_eq in Heq. now subst z.
  - rewrite in_app_iff. cbn [In]. split.
    + intros [H | [H | []]]; auto.
    + intros [-> | H]; auto.
Qed.

Lemma setAdd_NoDup (x : string) (l : list string) : NoDup l -> NoDup (setAdd x l).
Proof.
  intros Hnd. unfold setAdd. destruct (existsb (String.eqb x) l) eqn:E; [exact Hnd |].
  apply NoDup_app; [exact Hnd | repeat constructor; intros [] |].
  intros y Hy [Heq | []]. rewrite <- Heq in Hy.
  assert (existsb (String.eqb x) l = true); [| congruence].
  apply existsb_exists. exists x. split; [exact Hy | apply String.eqb_refl].
Qed.

Lemma setDelete_In (x y : string) (l : list string) :
  In y (setDelete x l) <-> In y l /\ y <> x.
Proof.
  unfold setDelete. rewrite filter_In, negb_true_iff, String.eqb_neq.
  split; intros [H1 H2]; (split; [exact H1 |]); intros E; apply H2; now symmetry.
Qed.

Lemma socket_unique (l : list Socket) (s1 s2 : Socket) :
  NoDup (map sock_id l) -> In s1 l -> In s2 l -> sock_id s1 = sock_id s2 -> s1 = s2.
Proof.
  induction l as [| s l IH]; cbn [map In]; intros Hnd H1 H2 Hid; [destruct H1 |].
  inversion Hnd as [| ? ? Hnotin Hnd']; subst.
  destruct H1 as [<- | H1], H2 as [<- | H2].
  - reflexivity.
  - exfalso. apply Hnotin. rewrite Hid. now apply in_map.
  - exfalso. apply Hnotin. rewrite <- Hid. now apply in_map.
  - now apply IH.
Qed.

Lemma live_ids_filter (keep : Socket -> bool) :
  forall sockets : list Socket,
    NoDup (map sock_id sockets) -> NoDup (map sock_id (filter keep sockets)).
Proof.
  intros sockets. induction sockets as [| s rest IH]; cbn [map filter]; intros Hnd.
  - constructor.
  - inversion Hnd as [| ? ? Hfresh Hrest]; subst.
    destruct (keep s); [| now apply IH].
    cbn [map]. constructor; [| now apply IH].
    intros Hin. apply Hfresh. apply in_map_iff in Hin.
    destruct Hin as (x & Hx & Hin). apply filter_In in Hin.
    apply in_map_iff. exists x. tauto.
Qed.

Lemma find_hasId (id : string) (l : list Socket) (s : Socket) :
  find (hasId id) l = Some s -> In s l /\ sock_id s = id.
Proof.
  intros H. apply find_some in H. destruct H as [Hin Hs].
  split; [exact Hin | now apply hasId_true].
Qed.

Lemma BridgeInv_step (b : BridgeState) (e : NetEvent) :
  BridgeInv b -> BridgeInv (fst (netHandle b e)).
Proof.
  intros Hinv. pose proof Hinv as (Hids & Hnd & Hmem & Hconn).
  destruct e as [id | id | id | id]; cbn [netHandle].
  - destruct (existsb (hasId id) (liveSockets b)) eqn:Elive;
      [exact Hinv |].
    cbn [fst]. unfold BridgeInv.
    cbn [liveSockets connectedBridges arduinoConnected].
    split; [| split; [exact Hnd | split; [| exact Hconn]]].
    + rewrite map_app. cbn [map sock_id].
      apply NoDup_app; [exact Hids | repeat constructor; intros [] |].
      intros y Hy [Heq | []]. rewrite <- Heq in Hy.
      apply existsb_hasId in Hy. congruence.
    + intros x. rewrite Hmem, in_app_iff. cbn [In]. split; [auto |].
      intros [H | [H | []]]; [exact H | discriminate H].
  - destruct (existsb (hasId id) (liveSockets b)) eqn:Elive;
      [| exact Hinv].
    cbn [fst]. unfold BridgeInv.
    cbn [liveSockets connectedBridges arduinoConnected].
    split; [| split; [now apply setAdd_NoDup | split]].
    + rewrite map_map.
      erewrite map_ext; [exact Hids |].
      intros s. cbn. destruct (hasId id s); reflexivity.
    + intros x. rewrite setAdd_In, Hmem, in_map_iff. split.
      * intros [-> | Hin].
        -- apply existsb_exists in Elive. destruct Elive as (s & Hs & Hid).
           exists s. rewrite Hid. apply hasId_true in Hid. rewrite Hid. auto.
        -- exists (mkSocket x true). split; [| exact Hin].
           destruct (hasId id (mkSocket x true)); reflexivity.
      * intros (s & Hs & Hin).
        destruct (hasId id s) eqn:Eid.
        -- injection Hs as <-. left. now apply hasId_true.
        -- subst s. right. exact Hin.
    + symmetry. apply Nat.ltb_lt.
      assert (In id (setAdd id (connectedBridges b))) by (apply setAdd_In; auto).
      destruct (setAdd id (connectedBridges b)); [contradiction | cbn; lia].
  - exact Hinv.
  - destruct (find (hasId id) (liveSockets b)) as [s |] eqn:Efind;
      [| exact Hinv].
    destruct (find_hasId id _ s Efind) as [Hs Hsid].
    assert (Hlive : NoDup (map sock_id
                     (filter (fun s' => negb (hasId id s')) (liveSockets b))))
      by now apply live_ids_filter.
    assert (Hlive_in : forall x flag,
               In (mkSocket x flag)
                  (filter (fun s' => negb (hasId id s')) (liveSockets b))
               <-> In (mkSocket x flag) (liveSockets b) /\ x <> id).
    { intros x flag. rewrite filter_In, negb_true_iff, hasId_false. reflexivity. }
    destruct (sock_isBridge s) eqn:Eb; cbn [fst]; unfold BridgeInv;
      cbn [liveSockets connectedBridges arduinoConnected].
    + split; [exact Hlive | split; [now apply NoDup_filter | split]].
      * intros x. rewrite setDelete_In, Hlive_in, Hmem. reflexivity.
      * destruct (setDelete id (connectedBridges b)) as [| y l] eqn:Ed;
          [reflexivity |].
        cbn [List.length Nat.eqb]. rewrite Hconn.
        assert (Hy : In y (connectedBridges b)).
        { assert (In y (setDelete id (connectedBridges b)))
            by (rewrite Ed; now left).
          now apply setDelete_In in H. }
        destruct (connectedBridges b); [destruct Hy | reflexivity].
    + split; [exact Hlive | split; [exact Hnd | split; [| exact Hconn]]].
      intros x. rewrite Hlive_in, Hmem. split; [| tauto].
      intros Hx. split; [exact Hx |]. intros ->.
      assert (Heq : mkSocket id true = s).
      { apply (socket_unique (liveSockets b)); try assumption.
        cbn. now symmetry. }
      rewrite <- Heq in Eb. discriminate Eb.
Qed.

Lemma reachable_BridgeInv (events : list NetEvent) :
  BridgeInv (netRun bootBridges events).
Proof.
  unfold netRun.
  assert (H0 : BridgeInv bootBridges).
  { repeat split; try constructor; cbn; tauto. }
  generalize bootBridges H0.
  induction events as [| e events IH]; intros b Hb; cbn [fold_left].
  - exact Hb.
  - apply IH. now apply BridgeInv_step.
Qed.

Lemma bridges_counted (b : BridgeState) :
  BridgeInv b ->
  List.length (connectedBridges b) = List.length (liveBridges b).
Proof.
  intros (Hids & Hnd & Hmem & _). unfold liveBridges.
  rewrite <- (length_map sock_id (filter sock_isBridge (liveSockets b))).
  assert (Hnd' : NoDup (map sock_id (filter sock_isBridge (liveSockets b))))
    by now apply live_ids_filter.
  apply Nat.le_antisymm; apply NoDup_incl_length; try assumption.
  - intros x Hx. apply Hmem in Hx. apply in_map_iff.
    exists (mkSocket x true). split; [reflexivity |].
    apply filter_In. split; [exact Hx | reflexivity].
  - intros x Hx. apply in_map_iff in Hx. destruct Hx as (s & <- & Hs).
    apply filter_In in Hs. destruct Hs as [Hin Hb].
    apply Hmem. destruct s as [sid flag]. cbn in Hb |- *. now subst flag.
Qed.

(** X17. The bridge bookkeeping counts right.  After any sequence of
    connections, bridge registrations, heartbeats and disconnects, the set
    of bridge ids holds exactly the ids of the live sockets that registered
    as bridges, each once, and [arduinoConnected] is true exactly when
    there is one.  Every status message an event sends reports the number
    of live bridge sockets after that event, and reports connected exactly
    when that number is not zero; a heartbeat, and the disconnect of a
    socket that never registered, send nothing and leave the bridge set
    alone. *)
Theorem bridge_status_counts_live_bridges :
  forall (events : list NetEvent) (e : NetEvent),
    let b := netRun bootBridges events in
    let b' := fst (netHandle b e) in
    (forall id, In id (connectedBridges b)
                <-> In (mkSocket id true) (liveSockets b))
    /\ List.length (connectedBridges b) = List.length (liveBridges b)
    /\ (arduinoConnected b = true <-> liveBridges b <> [])
    /\ Forall (fun st => status_bridges st = List.length (liveBridges b')
                         /\ status_connected st
                            = (0 <? List.length (liveBridges b'))%nat)
              (snd (netHandle b e))
    /\ (forall id, snd (netHandle b (BridgeHeartbeat id)) = []
                   /\ fst (netHandle b (BridgeHeartbeat id)) = b)
    /\ (forall id, ~ In id (connectedBridges b) ->
          snd (netHandle b (Disconnect id)) = []
          /\ connectedBridges (fst (netHandle b (Disconnect id)))
             = connectedBridges b).
Proof.
  intros events e b b'.
  pose proof (reachable_BridgeInv events) as Hinv. fold b in Hinv.
  pose proof (BridgeInv_step b e Hinv) as Hinv'. fold b' in Hinv'.
  pose proof (bridges_counted b Hinv) as Hcount.
  pose proof (bridges_counted b' Hinv') as Hcount'.
  destruct Hinv as (Hids & Hnd & Hmem & Hconn).
  split; [exact Hmem | split; [exact Hcount | split; [| split; [| split]]]].
  - rewrite Hconn, Hcount, Nat.ltb_lt.
    destruct (liveBridges b); cbn [List.length]; split; intros H;
      try lia; congruence.
  - rewrite <- Hcount'. subst b'.
    destruct e as [id | id | id | id]; cbn [netHandle].
    + destruct (existsb (hasId id) (liveSockets b)); cbn [fst snd];
        [constructor |].
      cbn [connectedBridges]. repeat constructor.
      cbn [status_connected]. rewrite Hconn. apply orb_diag.
    + destruct (existsb (hasId id) (liveSockets b)); cbn [fst snd];
        [| constructor].
      cbn [connectedBridges]. repeat constructor.
      cbn [status_connected]. symmetry. apply Nat.ltb_lt.
      assert (In id (setAdd id (connectedBridges b))) by (apply setAdd_In; auto).
      destruct (setAdd id (connectedBridges b)); [contradiction | cbn; lia].
    + constructor.
    + destruct (find (hasId id) (liveSockets b)) as [s |]; [| constructor].
      destruct (sock_isBridge s); cbn [fst snd]; [| constructor].
      cbn [connectedBridges]. repeat constructor.
  - intros id. split; reflexivity.
  - intros id Hnot. cbn [netHandle].
    destruct (find (hasId id) (liveSockets b)) as [s |] eqn:Efind;
      [| split; reflexivity].
    destruct (find_hasId id _ s Efind) as [Hs Hsid].
    destruct (sock_isBridge s) eqn:Eb; [| split; reflexivity].
    exfalso. apply Hnot. apply Hmem.
    destruct s as [sid flag]. cbn in Hsid, Eb. now subst.
Qed.

Lemma bridge_status_counts_live_bridges_witness :
  let b := netRun bootBridges [Connection "a"; Connection "b"] in
  snd (netHandle b (Disconnect "a")) = [].
Proof.
  intros b.
  destruct (bridge_status_counts_live_bridges
              [Connection "a"; Connection "b"] (BridgeHeartbeat "a"))
    as (_ & _ & _ & _ & _ & H).
  apply (H "a"%string). vm_compute. tauto.
Defined.

(** * The simulated keypad *)

Lemma pressButton_dropped (now : Z) (name : string) (sim : ArduinoSimulator) :
  snd (pressButton now name sim) = None -> fst (pressButton now name sim) = sim.
Proof.
  unfold pressButton. break_ifs; cbn [fst snd]; [reflexivity .. | discriminate].
Qed.

Lemma pressButton_emits (now : Z) (name : string) (sim : ArduinoSimulator) :
  snd (pressButton now name sim) <> None
  <-> sim_isConnected sim = true /\ now - sim_lastKeyTime sim >= sim_keyDelay sim.
Proof.
  unfold pressButton.
  destruct (sim_isConnected sim); cbn [negb].
  - destruct (now - sim_lastKeyTime sim <? sim_keyDelay sim) eqn:E; cbn [snd].
    + split; [intros H; now contradiction H | intros [_ H]; lia].
    + split; [intros _; split; [reflexivity | lia] | discriminate].
  - cbn [snd]. split; [intros H; now contradiction H | intros [H _]; discriminate H].
Qed.

Lemma pressButton_frame (now : Z) (name : string) (sim : ArduinoSimulator) :
  sim_isConnected (fst (pressButton now name sim)) = sim_isConnected sim
  /\ sim_keyDelay (fst (pressButton now name sim)) = sim_keyDelay sim.
Proof. unfold pressButton. break_ifs; split; reflexivity. Qed.

Lemma pressAll_spaced :
  forall (presses : list (Z * string)) (sim : ArduinoSimulator),
    spaced (sim_keyDelay sim) (sim_lastKeyTime sim)
           (map fst (snd (pressAll sim presses))).
Proof.
  induction presses as [| [now name] presses IH]; intros sim; cbn [pressAll].
  - exact I.
  - unfold pressButton.
    destruct (negb (sim_isConnected sim)).
    + specialize (IH sim). destruct (pressAll sim presses) as [sim2 outs]. exact IH.
    + destruct (now - sim_lastKeyTime sim <? sim_keyDelay sim) eqn:E.
      * specialize (IH sim). destruct (pressAll sim presses) as [sim2 outs]. exact IH.
      * specialize (IH (mkSimulator (sim_isConnected sim) (Some name) now
                          (sim_keyDelay sim) "Button pressed:" (name ++ " ->"))).
        destruct (pressAll _ presses) as [sim2 outs].
        cbn [snd map fst spaced sim_keyDelay sim_lastKeyTime] in IH |- *.
        split; [lia | exact IH].
Qed.

Lemma pressAll_disconnected :
  forall (presses : list (Z * string)) (sim : ArduinoSimulator),
    sim_isConnected sim = false -> pressAll sim presses = (sim, []).
Proof.
  induction presses as [| [now name] presses IH]; intros sim Hd; cbn [pressAll].
  - reflexivity.
  - unfold pressButton. rewrite Hd. cbn [negb]. now rewrite IH.
Qed.

Lemma keyInput_upper (d : string) : keyInput (toUpperCase d) = inputOfToken d.
Proof. reflexivity. Qed.

(** X18. The simulated keypad debounces.  A press gets through exactly
    when the simulator is connected and at least [keyDelay] (100 ms from
    the constructor) has passed since the last press that got through; a
    press that does not get through changes nothing in the simulator.  So
    over any run of presses the emitted inputs are at least [keyDelay]
    apart, and a disconnected simulator emits nothing at all.  The input
    emitted for a manual press of a token is the input object the socket
    server builds for the same token; and the HTTP endpoint of this variant
    answers success for a valid token whether or not the press got
    through. *)
Theorem simulator_debounces_presses :
  forall (sim : ArduinoSimulator),
    (forall now name,
        snd (pressButton now name sim) <> None
        <-> sim_isConnected sim = true
            /\ now - sim_lastKeyTime sim >= sim_keyDelay sim)
    /\ (forall now name,
        snd (pressButton now name sim) = None ->
        fst (pressButton now name sim) = sim)
    /\ (forall presses,
        spaced (sim_keyDelay sim) (sim_lastKeyTime sim)
               (map fst (snd (pressAll sim presses))))
    /\ (forall presses,
        sim_isConnected sim = false -> pressAll sim presses = (sim, []))
    /\ (forall now d input,
        snd (manualPress now d sim) = Some input -> input = inputOfToken d)
    /\ (forall now d,
        validToken d = true ->
        snd (fst (apiArduinoPressSim now (JsString d) (Some sim))) = SimSuccess)
    /\ sim_keyDelay newSimulator = 100.
Proof.
  intros sim.
  split; [intros; apply pressButton_emits |].
  split; [intros now name; apply pressButton_dropped |].
  split; [intros; apply pressAll_spaced |].
  split; [intros presses; apply pressAll_disconnected |].
  split; [| split; [| reflexivity]].
  - intros now d input. unfold manualPress, pressButton.
    break_ifs; cbn [snd]; intros H; try discriminate H.
    injection H as <-. apply keyInput_upper.
  - intros now d Hv. unfold apiArduinoPressSim.
    rewrite Hv, (validToken_nonempty d Hv). cbn [negb orb].
    destruct (manualPress now d sim). reflexivity.
Qed.

(** * Single-flag inputs *)

Lemma flagCount_keyInput (k : string) : (flagCount (keyInput k) <= 1)%nat.
Proof. unfold keyInput. break_ifs; cbn; lia. Qed.

Lemma flagCount_serialKeyInput (k : string) : (flagCount (serialKeyInput k) <= 1)%nat.
Proof. unfold serialKeyInput. break_ifs; cbn; lia. Qed.

Lemma flagCount_analogInput (v : Z) : (flagCount (analogInput v) <= 1)%nat.
Proof. unfold analogInput. break_ifs; cbn; lia. Qed.

Lemma flagCount_inputOfToken (d : string) : (flagCount (inputOfToken d) <= 1)%nat.
Proof. unfold inputOfToken. break_ifs; cbn; lia. Qed.

Lemma serialKeyInput_extends_keyInput (k : string) :
  hasFlag (keyInput k) = true -> serialKeyInput k = keyInput k.
Proof.
  unfold keyInput, serialKeyInput.
  destruct (String.eqb k "UP"); [reflexivity |].
  destruct (String.eqb k "DOWN"); [reflexivity |].
  destruct (String.eqb k "LEFT"); [reflexivity |].
  destruct (String.eqb k "RIGHT"); [reflexivity |].
  discriminate.
Qed.

Lemma hasFlag_analogInput (v : Z) : hasFlag (analogInput v) = true <-> v < 600.
Proof.
  unfold analogInput.
  destruct (v <? 50) eqn:E1; [cbn; split; [lia | reflexivity] |].
  destruct (v <? 200) eqn:E2; [cbn; split; [lia | reflexivity] |].
  destruct (v <? 400) eqn:E3; [cbn; split; [lia | reflexivity] |].
  destruct (v <? 600) eqn:E4; [cbn; split; [lia | reflexivity] |].
  cbn. split; [discriminate | lia].
Qed.

(** X19. Every producer of input objects sets at most one flag -- the
    simulated keypad, the serial key parser, the analog threshold chain and
    the token switch of the socket server -- so the priority order of
    [updatePlayerDirection] never decides anything for them.  The serial
    parser agrees with the simulated keypad on every key the keypad maps to
    a direction, and unlike the HTTP endpoint it is case-sensitive.  An
    analog reading selects a direction exactly when it is below 600; at 600
    or above the serial handler sends nothing and leaves the server as it
    was. *)
Theorem hardware_inputs_set_one_flag :
  (forall k, (flagCount (keyInput k) <= 1)%nat
             /\ (flagCount (serialKeyInput k) <= 1)%nat
             /\ (flagCount (inputOfToken k) <= 1)%nat)
  /\ (forall v, (flagCount (analogInput v) <= 1)%nat)
  /\ (forall k, hasFlag (keyInput k) = true -> serialKeyInput k = keyInput k)
  /\ (serialKeyInput "up" = noInput /\ inputOfToken "up" = keyInput "UP")
  /\ (forall v, hasFlag (analogInput v) = true <-> v < 600)
  /\ (forall v sv, 600 <= v -> onSerialAnalog v sv = (sv, []))
  /\ (forall v sv, v < 600 ->
        fst (onSerialAnalog v sv)
        = onArduinoInput (analogInput v) sv).
Proof.
  split; [intros k; split; [apply flagCount_keyInput
                           | split; [apply flagCount_serialKeyInput
                                    | apply flagCount_inputOfToken]] |].
  split; [exact flagCount_analogInput |].
  split; [exact serialKeyInput_extends_keyInput |].
  split; [split; [reflexivity |];
          unfold inputOfToken; rewrite toUpperCase_ascii by reflexivity;
          reflexivity |].
  split; [exact hasFlag_analogInput |].
  split.
  - intros v sv Hv. unfold onSerialAnalog.
    destruct (hasFlag (analogInput v)) eqn:E; [| reflexivity].
    apply hasFlag_analogInput in E. lia.
  - intros v sv Hv. unfold onSerialAnalog.
    destruct (hasFlag (analogInput v)) eqn:E; [reflexivity |].
    apply hasFlag_analogInput in Hv. congruence.
Qed.

(** * Invulnerability *)

Lemma invulnerable_movePlayer p : p_invulnerable (movePlayer p) = p_invulnerable p.
Proof. rewrite movePlayer_eq. break_ifs; reflexivity. Qed.

Lemma invulnerable_beforeGhostPass1 env s :
  p_invulnerable (player1 (beforeGhostPass env s))
  = p_invulnerable (expireInvulnerability (now_invulnerability env) (player1 s)).
Proof.
  unfold beforeGhostPass.
  rewrite player1_checkPowerPellets, player1_checkDots, player1_beforeCollisions.
  cbn [p_addScore p_invulnerable]. apply invulnerable_movePlayer.
Qed.

Lemma invulnerable_beforeGhostPass2 env s :
  p_invulnerable (player2 (beforeGhostPass env s))
  = p_invulnerable (expireInvulnerability (now_invulnerability env) (player2 s)).
Proof.
  unfold beforeGhostPass.
  rewrite player2_checkPowerPellets, player2_checkDots, player2_beforeCollisions.
  cbn [p_addScore p_invulnerable]. apply invulnerable_movePlayer.
Qed.

Lemma expireInvulnerability_kept now p :
  p_invulnerable p = true -> now - p_invulnerableTime p <= 3000 ->
  expireInvulnerability now p = p.
Proof.
  intros Hi Ht. unfold expireInvulnerability. rewrite Hi.
  replace (now - p_invulnerableTime p >? 3000) with false by lia. reflexivity.
Qed.

Lemma isHit_invulnerable p gl : p_invulnerable p = true -> isHit p gl = false.
Proof. intros H. unfold isHit. now rewrite H. Qed.

(** X20. Invulnerability protects for its whole three seconds.  A player
    that is invulnerable when a tick starts, with at most 3000 ms passed
    since the invulnerability began, loses no life in that tick whatever
    the ghosts do, is still invulnerable after it, and ends it on the cell
    its own step took it to (it is not sent back to its start cell). *)
Theorem invulnerable_player_is_safe :
  forall (env : TickEnv) (s : GameState),
    (p_invulnerable (player1 s) = true ->
     now_invulnerability env - p_invulnerableTime (player1 s) <= 3000 ->
     p_lives (player1 (gameTick env s)) = p_lives (player1 s)
     /\ p_invulnerable (player1 (gameTick env s)) = true
     /\ playerPos (player1 (gameTick env s)) = playerPos (movePlayer (player1 s)))
    /\ (p_invulnerable (player2 s) = true ->
        now_invulnerability env - p_invulnerableTime (player2 s) <= 3000 ->
        p_lives (player2 (gameTick env s)) = p_lives (player2 s)
        /\ p_invulnerable (player2 (gameTick env s)) = true
        /\ playerPos (player2 (gameTick env s)) = playerPos (movePlayer (player2 s))).
Proof.
  intros env s.
  destruct (beforeGhostPass_vitals env s) as [(k1 & _ & V1) (k2 & _ & V2)].
  assert (L1 := f_equal (fun v => snd (fst v)) V1).
  assert (L2 := f_equal (fun v => snd (fst v)) V2).
  cbn [vitals fst snd] in L1, L2. clear V1 V2.
  split; intros Hi Ht.
  - pose proof (invulnerable_beforeGhostPass1 env s) as Hb.
    rewrite (expireInvulnerability_kept _ _ Hi Ht), Hi in Hb.
    pose proof (playerPos_beforeGhostPass1 env s) as Hpos.
    rewrite gameTick_ghost_pass, player1_checkGameOver.
    set (b := beforeGhostPass env s) in *.
    destruct (powerMode b) eqn:Hpm.
    + rewrite (checkGhostCollisions_power _ b Hpm).
      cbn [setGhosts addScores setPlayer1 setPlayer2 player1 p_addScore
           p_lives p_invulnerable playerPos p_x p_y].
      split; [exact L1 | split; [exact Hb | exact Hpos]].
    + rewrite (checkGhostCollisions_normal _ b Hpm). unfold resolveHits.
      cbn [setPlayer1 setPlayer2 player1].
      rewrite (isHit_invulnerable _ _ Hb).
      split; [exact L1 | split; [exact Hb | exact Hpos]].
  - pose proof (invulnerable_beforeGhostPass2 env s) as Hb.
    rewrite (expireInvulnerability_kept _ _ Hi Ht), Hi in Hb.
    pose proof (playerPos_beforeGhostPass2 env s) as Hpos.
    rewrite gameTick_ghost_pass, player2_checkGameOver.
    set (b := beforeGhostPass env s) in *.
    destruct (powerMode b) eqn:Hpm.
    + rewrite (checkGhostCollisions_power _ b Hpm).
      cbn [setGhosts addScores setPlayer1 setPlayer2 player2 p_addScore
           p_lives p_invulnerable playerPos p_x p_y].
      split; [exact L2 | split; [exact Hb | exact Hpos]].
    + rewrite (checkGhostCollisions_normal _ b Hpm). unfold resolveHits.
      cbn [setPlayer1 setPlayer2 player2].
      rewrite (isHit_invulnerable _ _ Hb).
      split; [exact L2 | split; [exact Hb | exact Hpos]].
Qed.

(** Player 1, invulnerable since 2000 and down to its last life, steps up
    from (13,14) onto (13,13) at 5000 while the first ghost steps onto the
    same cell: the two share the cell after the tick and no life is lost. *)
Lemma invulnerable_player_is_safe_witness :
  let s := mkGameState (mkPlayer 13 14 Up 0 1 true 2000 None) (startPlayer2 None)
                       [] [] startGhosts false None false 0 in
  let env := mkTickEnv 5000 5000 5000 (fun _ => false) (fun _ => Up) in
  ghostPos (nth 0 (ghosts (gameTick env s)) (mkGhost 0 0 Up "" None)) = (13, 13)
  /\ playerPos (player1 (gameTick env s)) = (13, 13)
  /\ p_lives (player1 (gameTick env s)) = 1.
Proof.
  intros s env. split; [reflexivity | split; [reflexivity |]].
  destruct (invulnerable_player_is_safe env s) as [H _].
  destruct H as (Hl & _); [reflexivity | simpl; lia | exact Hl].
Defined.

(** * Eaten ghosts *)

Lemma Forall2_nth_error_right {A B : Type} (R : A -> B -> Prop) :
  forall (la : list A) (lb : list B) (i : nat) (b : B),
    Forall2 R la lb -> nth_error lb i = Some b ->
    exists a, nth_error la i = Some a /\ R a b.
Proof.
  intros la lb i b H. revert i.
  induction H as [| a0 b0 la lb Hab Hrest IH]; intros i Hi.
  - destruct i; discriminate Hi.
  - destruct i as [| i]; cbn in Hi |- *.
    + injection Hi as <-. exists a0. auto.
    + now apply IH.
Qed.

(** X21. Eating a ghost resets it.  In every reachable session the ghost
    at index i, when eaten, becomes the ghost the session started with at
    index i -- same cell, same colour, empty original-colour slot -- except
    that it keeps the direction it was facing. *)
Theorem eaten_ghost_is_reset :
  forall (events : list Event) (i : nat) (g : Ghost),
    nth_error (ghosts (gameState (run boot events))) i = Some g ->
    exists g0,
      nth_error startGhosts i = Some g0
      /\ eatGhost i g
         = mkGhost (g_x g0) (g_y g0) (g_direction g) (g_color g0) None.
Proof.
  intros events i g Hi.
  destruct (reachable_ColorInv events) as [Hcol _].
  destruct (Forall2_nth_error_right _ _ _ i g Hcol Hi) as (own & Hown & Hok & Hw).
  rewrite nth_error_map in Hown.
  destruct (nth_error startGhosts i) as [g0 |] eqn:Hg0; [| discriminate Hown].
  cbn [option_map] in Hown. injection Hown as <-.
  exists g0. split; [reflexivity |].
  assert (Hhome : (homeX i, homeY i) = (g_x g0, g_y g0)).
  { destruct i as [| [| [| [| i]]]]; cbn in Hg0;
      try (injection Hg0 as <-; reflexivity).
    destruct i; discriminate Hg0. }
  injection Hhome as Hx Hy.
  assert (Htruthy : truthy (Some (g_color g0)) = true).
  { destruct (isOwnColor_spec _ Hok) as [Hne _]. unfold truthy.
    destruct (String.eqb_spec (g_color g0) EmptyString); [contradiction | reflexivity]. }
  unfold eatGhost; cbn [g_setPos g_originalColor].
  destruct Hw as [[Hc Ho] | [Hc Ho]]; rewrite Ho.
  - unfold g_setPos. now rewrite Hx, Hy, Hc, Ho.
  - rewrite Htruthy. unfold g_setColors, g_setPos.
    cbn [g_x g_y g_direction]. now rewrite Hx, Hy.
Qed.

End UpperCasing.

(** * Sample runs *)

(** The runs below take the upper-casing of the ASCII range for the
    built-in; every string in them lies in that range. *)
Lemma asciiUpper_ascii (t : string) :
  isAscii t = true -> asciiUpper t = asciiUpper t.
Proof. reflexivity. Qed.



Lemma reachable_positions_in_grid_witness :
  movePlayer (mkPlayer 1 30 Down 0 5 false 0 None)
  = mkPlayer 1 30 Down 0 5 false 0 None.
Proof.
  destruct (reachable_positions_in_grid asciiUpper) as (_ & _ & H & _).
  apply H. simpl. lia.
Defined.

(** First tick of a fresh session: player 1 steps from (1,1) onto the dot
    at (2,1) and scores 10 in the dot pass. *)
Lemma tick_dots_only_shrink_by_two_witness :
  let s := gameState (run asciiUpper boot [StartGame None None]) in
  let m := beforeCollisions quietEnv s in
  playerPos (player1 m) = (2, 1)
  /\ p_score (player1 (checkDots m)) = p_score (player1 m) + 10.
Proof.
  intros s m. split; [reflexivity |].
  destruct (tick_dots_only_shrink_by_two asciiUpper
              [StartGame None None] quietEnv)
    as (_ & _ & _ & H1 & _).
  apply H1. apply existsb_posEqb_In. vm_compute. reflexivity.
Defined.

Lemma apiArduinoPress_rejects_or_routes_witness :
  apiArduinoPress asciiUpper (JsString "jump") boot = (boot, BadRequest)
  /\ player1 (gameState (fst (apiArduinoPress asciiUpper (JsString "down")
                                               boot)))
     = mkPlayer 1 1 Down 0 5 false 0 None.
Proof.
  destruct (apiArduinoPress_rejects_or_routes asciiUpper asciiUpper_ascii)
    as (_ & _ & Hbad & Hok & _).
  split.
  - apply Hbad. reflexivity.
  - pose proof (Hok "down"%string Down boot eq_refl) as H.
    cbv zeta in H. destruct H as (_ & _ & Hp & _). exact Hp.
Defined.

Lemma noInput_is_noop_witness :
  onArduinoInput (mkInput false false false false) boot = boot.
Proof.
  destruct (noInput_is_noop asciiUpper asciiUpper_ascii) as (_ & _ & _ & _ & H).
  apply (H boot (mkInput false false false false)). reflexivity.
Defined.

Lemma reachable_lives_scores_verdict_witness :
  winner (gameState (run asciiUpper boot [StartGame None None; Tick quietEnv]))
  = None.
Proof.
  destruct (reachable_lives_scores_verdict asciiUpper
              [StartGame None None; Tick quietEnv])
    as (_ & _ & _ & H & _).
  apply H. vm_compute. reflexivity.
Defined.

Lemma reachable_ghost_colors_witness :
  map g_color (ghosts (gameState (run asciiUpper boot
                                    [StartGame None None; Tick quietEnv])))
  = ["red"; "pink"; "cyan"; "orange"]%string.
Proof.
  destruct (reachable_ghost_colors asciiUpper
              [StartGame None None; Tick quietEnv]) as [_ H].
  apply H. vm_compute. reflexivity.
Defined.

Lemma collectibles_follow_the_layout_witness :
  mazeCell 26 3 = Some 3 /\ isWall (26, 3) = false.
Proof.
  destruct (collectibles_follow_the_layout asciiUpper) as (_ & _ & _ & H).
  destruct (H [StartGame None None] (26, 3)) as (_ & Hp & _).
  apply Hp. apply existsb_posEqb_In. vm_compute. reflexivity.
Defined.


Lemma press_tokens_are_case_insensitive_witness :
  apiArduinoPress asciiUpper (JsString "Left") boot
  = apiArduinoPress asciiUpper (JsString "lEFT") boot.
Proof.
  destruct (press_tokens_are_case_insensitive asciiUpper asciiUpper_ascii)
    as (_ & _ & H).
  apply (H "Left"%string "lEFT"%string boot); reflexivity.
Defined.

(** Two presses 40 ms apart on a connected simulator: only the first is
    emitted. *)
Lemma simulator_debounces_presses_witness :
  snd (pressAll (simConnect newSimulator) [(1000, "UP"); (1040, "LEFT")]%string)
  = [(1000, mkInput true false false false)]
  /\ snd (pressButton 1040 "LEFT"
            (fst (pressButton 1000 "UP" (simConnect newSimulator)))) = None.
Proof.
  split; [reflexivity |].
  destruct ((simulator_debounces_presses asciiUpper asciiUpper_ascii)
              (fst (pressButton 1000 "UP" (simConnect newSimulator))))
    as (H & _).
  destruct (snd (pressButton 1040 "LEFT"
                   (fst (pressButton 1000 "UP" (simConnect newSimulator)))))
    as [input |] eqn:E; [| reflexivity].
  assert (Hne : snd (pressButton 1040 "LEFT"
                       (fst (pressButton 1000 "UP" (simConnect newSimulator))))
                <> None) by (rewrite E; discriminate).
  apply H in Hne. destruct Hne as [_ Hgap]. vm_compute in Hgap.
  exfalso. apply Hgap. reflexivity.
Defined.

Lemma hardware_inputs_set_one_flag_witness :
  onSerialAnalog 700 boot = (boot, []).
Proof.
  destruct (hardware_inputs_set_one_flag asciiUpper asciiUpper_ascii)
    as (_ & _ & _ & _ & _ & H & _).
  apply H. lia.
Defined.

Lemma eaten_ghost_is_reset_witness :
  exists g0,
    nth_error startGhosts 2 = Some g0
    /\ eatGhost 2 (mkGhost 13 14 Up "cyan" None)
       = mkGhost (g_x g0) (g_y g0) Up (g_color g0) None.
Proof.
  apply ((eaten_ghost_is_reset asciiUpper)
           [StartGame None None; Tick quietEnv] 2 (mkGhost 13 14 Up "cyan" None)).
  vm_compute. reflexivity.
Defined.
